(** * Neural ODE model ([models/neural_odes.py]): shallow embedding

    The three classes of the module, [Dynamics], [Semiflow] and [NeuralODE],
    are embedded as records with explicit state passing.

    - Tensors are kept the way the tensor library keeps them: a shape and
      the row-major list of entries.  Entries are real numbers (the ideal
      semantics of the floating-point entries); time values are rationals,
      so that the time grid, the step index and the solver's comparisons
      all compute.
    - A Python exception is a [Raise] result.  A method returns the object
      after the call, the content of its tensor argument after the call
      (two of the activations work in place) and the result.
    - The external integrator ([odeint] with [method='euler'] and a
      [step_size] option) is modelled as the fixed-grid explicit Euler
      scheme with linear interpolation at the requested times. *)

From Stdlib Require Import List ZArith QArith Qround Qreals Reals Psatz.
From Stdlib Require Import Bool String SetoidList.
Import ListNotations.

Local Open Scope nat_scope.

(** ** Exceptions and results *)

Inductive exn : Type :=
| KeyError (key : string)
| IndexError
| RuntimeError
| AssertionError
| AttributeError
| FileNotFoundError.

Inductive result (A : Type) : Type :=
| Ok (a : A)
| Raise (e : exn).

Arguments Ok {A} a.
Arguments Raise {A} e.

Definition bind {A B : Type} (r : result A) (k : A -> result B) : result B :=
  match r with
  | Ok a => k a
  | Raise e => Raise e
  end.

Notation "x <- r ;; k" := (bind r (fun x => k))
  (at level 61, r at next level, right associativity).

(** ** Hyperparameters (module level) *)

Definition MAX_NUM_STEPS : nat := 1000.

Definition T : Q := 10%Q.
Definition time_steps : nat := 15.
Definition dt : Q := (T / inject_Z (Z.of_nat time_steps))%Q.

(** Python's [int()] on a number: truncation towards zero. *)
Definition int (q : Q) : Z := Z.quot (Qnum q) (Zpos (Qden q)).

(** ** Tensors *)

Record tensor : Type := mkTensor { shape : list nat; data : list R }.

Definition numel (sh : list nat) : nat := fold_right Nat.mul 1 sh.

(** Every tensor of the library has as many entries as its shape says. *)
Definition well_formed (x : tensor) : Prop :=
  length (data x) = numel (shape x).

(** [x] has shape [sh] (and the entries for it). *)
Definition has_shape (sh : list nat) (x : tensor) : Prop :=
  shape x = sh /\ length (data x) = numel sh.

Definition tensor_map (f : R -> R) (x : tensor) : tensor :=
  mkTensor (shape x) (map f (data x)).

(** [i]-th row of length [k] of a row-major entry list. *)
Definition row (k i : nat) (d : list R) : list R :=
  firstn k (skipn (i * k) d).

Fixpoint dot (u v : list R) : R :=
  match u, v with
  | a :: u', b :: v' => (a * b + dot u' v')%R
  | _, _ => 0%R
  end.

(** [w.t()]: tensors of rank 0 and 1 are returned as they are, a rank-2
    tensor is transposed, a higher rank is refused. *)
Definition tensor_t (w : tensor) : result tensor :=
  match shape w with
  | [] | [_] => Ok w
  | [r; c] =>
      Ok (mkTensor [c; r]
            (flat_map (fun j => map (fun i => nth (i * c + j) (data w) 0%R)
                                    (seq 0 r))
                      (seq 0 c)))
  | _ => Raise RuntimeError
  end.

(** Column [j] of a rank-2 tensor of shape [[n; p]]. *)
Definition column (m : tensor) (n p j : nat) : list R :=
  map (fun i => nth (i * p + j) (data m) 0%R) (seq 0 n).

(** [x.matmul(m)] for a matrix [m] of shape [[n; p]]: the product is taken
    along the last axis of [x], all leading axes are batch axes.  A rank-0
    [x] and a last axis different from [n] are refused.  The module only
    ever multiplies by a (transposed) weight matrix; another second
    argument is refused here. *)
Definition matmul (x m : tensor) : result tensor :=
  match shape m, rev (shape x) with
  | [n; p], k :: lead =>
      if (k =? n) then
        Ok (mkTensor (rev lead ++ [p])
              (flat_map (fun i => map (fun j => dot (row k i (data x))
                                                    (column m n p j))
                                      (seq 0 p))
                        (seq 0 (numel (rev lead)))))
      else Raise RuntimeError
  | _, _ => Raise RuntimeError
  end.

(** Entry [i] of the left operand meets entry [i mod k] of the right
    operand, which has [k] entries. *)
Fixpoint broadcast_last (f : R -> R -> R) (k i : nat) (u v : list R) : list R :=
  match u with
  | [] => []
  | a :: u' => f a (nth (i mod k) v 0%R) :: broadcast_last f k (S i) u' v
  end.

(** The trailing axes of [sha] are [shb]. *)
Definition trailing_axes (sha shb : list nat) : bool :=
  if list_eq_dec Nat.eq_dec (skipn (length sha - length shb) sha) shb
  then true else false.

(** Binary elementwise operation [a op b] where the shape of [b] is made
    of the trailing axes of [a]: equal shapes, or a bias vector against the
    last axis.  [b] is repeated along the leading axes of [a].  These are
    the broadcasting situations of the module; other shape combinations are
    refused. *)
Definition elementwise (f : R -> R -> R) (a b : tensor) : result tensor :=
  if trailing_axes (shape a) (shape b) then
    Ok (mkTensor (shape a)
          (broadcast_last f (numel (shape b)) 0 (data a) (data b)))
  else Raise RuntimeError.

Definition add : tensor -> tensor -> result tensor := elementwise Rplus.
Definition sub : tensor -> tensor -> result tensor := elementwise Rminus.

(** Number times tensor. *)
Definition scale (c : R) (x : tensor) : tensor := tensor_map (Rmult c) x.

(** [torch.zeros(b, a)]. *)
Definition zeros (sh : list nat) : tensor :=
  mkTensor sh (repeat 0%R (numel sh)).

(** [x.view(x.size(0), -1)]: [x.size(0)] needs rank >= 1, and the [-1]
    cannot be inferred for a tensor without entries. *)
Definition view_flat (x : tensor) : result tensor :=
  match shape x with
  | [] => Raise IndexError
  | b :: rest =>
      if (numel (shape x) =? 0) then Raise RuntimeError
      else Ok (mkTensor [b; numel rest] (data x))
  end.

(** [torch.cat([x, y], 1)] for two rank-2 tensors. *)
Definition cat1 (x y : tensor) : result tensor :=
  match shape x, shape y with
  | [b; m], [b'; a] =>
      if (b =? b') then
        Ok (mkTensor [b; m + a]
              (flat_map (fun i => row m i (data x) ++ row a i (data y))
                        (seq 0 b)))
      else Raise RuntimeError
  | _, _ => Raise RuntimeError
  end.

(** [x[i]] for a natural index: the [i]-th slice along the first axis. *)
Definition index0 (x : tensor) (i : nat) : result tensor :=
  match shape x with
  | [] => Raise IndexError
  | n :: rest =>
      if (i <? n) then Ok (mkTensor rest (row (numel rest) i (data x)))
      else Raise IndexError
  end.

(** The solver's [solution] tensor: [len(t)] slices of the shape of [y0]. *)
Definition stack (sh : list nat) (l : list tensor) : tensor :=
  mkTensor (length l :: sh) (concat (map data l)).

(** ** Activations (the [activations] dictionary) *)

Inductive activation : Type :=
| Tanh
| ReLU (inplace : bool)
| Sigmoid
| LeakyReLU (negative_slope : R) (inplace : bool).

Definition relu (v : R) : R := Rmax 0 v.
Definition sigmoid (v : R) : R := (1 / (1 + exp (- v)))%R.
Definition leaky_relu (slope v : R) : R := (Rmax 0 v + slope * Rmin 0 v)%R.

Definition activation_fn (a : activation) : R -> R :=
  match a with
  | Tanh => tanh
  | ReLU _ => relu
  | Sigmoid => sigmoid
  | LeakyReLU slope _ => leaky_relu slope
  end.

Definition is_inplace (a : activation) : bool :=
  match a with
  | ReLU b | LeakyReLU _ b => b
  | Tanh | Sigmoid => false
  end.

(** Calling an activation module on [x]: the content of [x] after the call
    and the returned tensor.  An in-place module overwrites its argument
    and returns it. *)
Definition activation_call (a : activation) (x : tensor) : tensor * tensor :=
  let y := tensor_map (activation_fn a) x in
  if is_inplace a then (y, y) else (x, y).

Fixpoint dict_get {V : Type} (d : list (string * V)) (key : string) : result V :=
  match d with
  | [] => Raise (KeyError key)
  | (k, v) :: d' => if String.eqb k key then Ok v else dict_get d' key
  end.

Definition activations : list (string * activation) :=
  [ ("tanh"%string, Tanh);
    ("relu"%string, ReLU true);
    ("sigmoid"%string, Sigmoid);
    ("leakyrelu"%string, LeakyReLU 0.25 true) ].

Definition species : list (string * Z) :=
  [ ("inside"%string, (-1)%Z); ("outside"%string, 0%Z);
    ("bottleneck"%string, 1%Z) ].

(** ** Linear layers and the parameter bank *)

Record Linear : Type := mkLinear {
  in_features : nat;
  out_features : nat;
  weight : tensor;
  bias : tensor
}.

(** The values the parameters hold (random at construction, later set by
    training) are given by name, as in a state dictionary:
    [init_weight "fc2_time" k i j] is entry [(i, j)] of
    [fc2_time[k].weight]. *)
Record initializer : Type := mkInit {
  init_weight : string -> nat -> nat -> nat -> R;
  init_bias : string -> nat -> nat -> R
}.

(** [nn.Linear(in_features, out_features)]: a weight of shape
    [[out_features; in_features]] and a bias of shape [[out_features]]. *)
Definition nn_Linear (inf outf : nat) (w : nat -> nat -> R) (b : nat -> R)
  : Linear :=
  mkLinear inf outf
    (mkTensor [outf; inf]
       (flat_map (fun i => map (fun j => w i j) (seq 0 inf)) (seq 0 outf)))
    (mkTensor [outf] (map b (seq 0 outf))).

(** [layer(x)], that is [x.matmul(weight.t()) + bias]. *)
Definition Linear_forward (l : Linear) (x : tensor) : result tensor :=
  wt <- tensor_t (weight l) ;;
  m <- matmul x wt ;;
  add m (bias l).

(** [seq[idx]] on an [nn.Sequential]: Python indexing, negative indices
    count from the end. *)
Definition Sequential_getitem {A : Type} (l : list A) (idx : Z) : result A :=
  let size := Z.of_nat (length l) in
  if ((- size <=? idx) && (idx <? size))%Z then
    match nth_error l (Z.to_nat (idx mod size)) with
    | Some a => Ok a
    | None => Raise IndexError
    end
  else Raise IndexError.

(** Reading an attribute that the constructor may not have set. *)
Definition getattr {A : Type} (a : option A) : result A :=
  match a with
  | Some v => Ok v
  | None => Raise AttributeError
  end.

(** ** Dynamics *)

Record Dynamics : Type := mkDynamics {
  augment_dim : nat;
  data_dim : nat;
  input_dim : nat;
  hidden_dim : nat;
  nfe : nat;
  non_linearity : activation;
  species_ : Z;
  fc1_time : option (list Linear);
  fc3_time : option (list Linear);
  fc2_time : option (list Linear)
}.

Definition set_nfe (d : Dynamics) (n : nat) : Dynamics :=
  mkDynamics (augment_dim d) (data_dim d) (input_dim d) (hidden_dim d) n
    (non_linearity d) (species_ d) (fc1_time d) (fc3_time d) (fc2_time d).

(** [[nn.Linear(inf, outf) for _ in range(time_steps)]]. *)
Definition blocks (name : string) (inf outf : nat) (theta : initializer)
  : list Linear :=
  map (fun k => nn_Linear inf outf (init_weight theta name k)
                          (init_bias theta name k))
      (seq 0 time_steps).

(** [Dynamics.__init__] (the [device] argument has no effect on values). *)
Definition Dynamics_init (data_dim hidden_dim augment_dim : nat)
    (non_linearity : string) (theta : initializer) : result Dynamics :=
  let input_dim := data_dim + augment_dim in
  act <- dict_get activations non_linearity ;;
  sp <- dict_get species "inside" ;;
  if (0 <? sp)%Z then
    Ok (mkDynamics augment_dim data_dim input_dim hidden_dim 0 act sp
          (Some (blocks "fc1_time" input_dim hidden_dim theta))
          (Some (blocks "fc3_time" hidden_dim input_dim theta))
          None)
  else
    Ok (mkDynamics augment_dim data_dim input_dim hidden_dim 0 act sp
          None None
          (Some (blocks "fc2_time" hidden_dim hidden_dim theta))).

(** [Dynamics.forward(t, x)]: the object after the call, the content of
    [x] after the call, and the returned derivative. *)
Definition Dynamics_forward (self : Dynamics) (t : Q) (x : tensor)
  : Dynamics * tensor * result tensor :=
  let self := set_nfe self (nfe self + 1) in
  let k := int (t / dt)%Q in
  if (species_ self <? 1)%Z then
    match (l <- getattr (fc2_time self) ;; Sequential_getitem l k) with
    | Raise e => (self, x, Raise e)
    | Ok layer =>
        let w_t := weight layer in
        let b_t := bias layer in
        if (species_ self <? 0)%Z then
          let '(x', sx) := activation_call (non_linearity self) x in
          (self, x', wt <- tensor_t w_t ;; m <- matmul sx wt ;; add m b_t)
        else
          (self, x,
           wt <- tensor_t w_t ;; m <- matmul x wt ;; z <- add m b_t ;;
           Ok (snd (activation_call (non_linearity self) z)))
    end
  else
    match (l <- getattr (fc1_time self) ;; Sequential_getitem l k),
          (l <- getattr (fc3_time self) ;; Sequential_getitem l k) with
    | Raise e, _ => (self, x, Raise e)
    | Ok _, Raise e => (self, x, Raise e)
    | Ok layer1, Ok layer3 =>
        (self, x,
         w1 <- tensor_t (weight layer1) ;; m1 <- matmul x w1 ;;
         z1 <- add m1 (bias layer1) ;;
         let out := snd (activation_call (non_linearity self) z1) in
         w2 <- tensor_t (weight layer3) ;; m2 <- matmul out w2 ;;
         z2 <- add m2 (bias layer3) ;;
         Ok (snd (activation_call (non_linearity self) z2)))
    end.

(** ** The integrator

    Modelled from the spec: the ODE-integration collaborator ([odeint] and
    [odeint_adjoint] of the external package torchdiffeq, which is not part
    of this repository), called with [method='euler'] and
    [options={'step_size': dt}].  It is the fixed-step explicit Euler
    scheme: the time grid runs from the first to the last requested time in
    steps of [step_size], the vector field is queried once per step at the
    step's left end, and the state at a requested time is the linear
    interpolant of the step that reaches it.  Requested times have to be
    strictly increasing. *)

(** A stateful callable [func(t, y)]: the callable after the call, the
    content of [y] after the call, and the returned value. *)
Definition callable (S : Type) : Type :=
  S -> Q -> tensor -> S * tensor * result tensor.

Definition Qlt_bool (a b : Q) : bool := negb (Qle_bool b a).

Fixpoint strictly_increasing (t : list Q) : bool :=
  match t with
  | a :: (b :: _) as t' => Qlt_bool a b && strictly_increasing t'
  | _ => true
  end.

Definition set_last (l : list Q) (e : Q) : list Q :=
  match l with
  | [] => []
  | _ => removelast l ++ [e]
  end.

(** Modelled from the spec: the integrator's time grid for a fixed step
    size, [start, start + h, start + 2h, ...] with
    [ceil((end - start) / h + 1)] points, the last one moved to [end]. *)
Definition grid_constructor (step_size : Q) (t : list Q) : list Q :=
  let start_time := hd 0%Q t in
  let end_time := last t 0%Q in
  let niters :=
    Z.to_nat (Qceiling ((end_time - start_time) / step_size + 1)%Q) in
  set_last
    (map (fun i => (inject_Z (Z.of_nat i) * step_size + start_time)%Q)
         (seq 0 niters))
    end_time.

(** Modelled from the spec: the integrator's state at a requested time [t]
    reached by the step from [(t0, y0)] to [(t1, y1)]. *)
Definition linear_interp (t0 t1 : Q) (y0 y1 : tensor) (t : Q)
  : result tensor :=
  if Qeq_bool t t0 then Ok y0
  else if Qeq_bool t t1 then Ok y1
  else
    let slope := ((t - t0) / (t1 - t0))%Q in
    d <- sub y1 y0 ;; add y0 (scale (Q2R slope) d).

(** Modelled from the spec: the integrator's inner [while] loop of a step.
    The requested times reached by the step [t0, t1] get their state; the
    times still to come are returned. *)
Fixpoint fill_solution (t0 t1 : Q) (y0 y1 : tensor) (ts : list Q)
  : result (list tensor) * list Q :=
  match ts with
  | [] => (Ok [], [])
  | tj :: ts' =>
      if Qle_bool tj t1 then
        match linear_interp t0 t1 y0 y1 tj with
        | Raise e => (Raise e, ts)
        | Ok v =>
            let '(r, rest) := fill_solution t0 t1 y0 y1 ts' in
            (vs <- r ;; Ok (v :: vs), rest)
        end
      else (Ok [], ts)
  end.

(** Modelled from the spec: the integrator's loop over the steps of the
    grid, the explicit Euler step [y1 = y0 + (t1 - t0) * func(t0, y0)].
    The loop starts from [t0] with state [y0]; [grid] holds the grid points
    after [t0] and [ts] the requested times not yet served.  An exception
    of [func] ends the loop.  The second component is the content after the
    loop of the tensor passed as [y0]: the step allocates [y1], so only the
    first query can have touched it. *)
Fixpoint euler_loop {S : Type} (func : callable S) (s : S) (t0 : Q)
    (y0 : tensor) (grid : list Q) (ts : list Q)
  : S * tensor * result (list tensor) :=
  match grid with
  | [] => (s, y0, Ok [])
  | t1 :: grid' =>
      let '(s1, y0', r) := func s t0 y0 in
      match (f0 <- r ;; add y0' (scale (Q2R (t1 - t0)) f0)) with
      | Raise e => (s1, y0', Raise e)
      | Ok y1 =>
          match fill_solution t0 t1 y0' y1 ts with
          | (Raise e, _) => (s1, y0', Raise e)
          | (Ok sols, ts') =>
              let '(s2, _, r2) := euler_loop func s1 t1 y1 grid' ts' in
              (s2, y0', more <- r2 ;; Ok (sols ++ more))
          end
      end
  end.

(** Modelled from the spec: [odeint(func, y0, t, method='euler',
    options={'step_size': step_size})] of the external package, which is
    not among the sources.  The requested times [t] have to increase
    strictly.  The result stacks one state per requested time; the first
    is a copy of [y0] taken before the first query. *)
Definition odeint {S : Type} (func : callable S) (s : S) (y0 : tensor)
    (t : list Q) (step_size : Q) : S * tensor * result tensor :=
  if negb (strictly_increasing t) then (s, y0, Raise AssertionError)
  else
    match t, grid_constructor step_size t with
    | [], _ => (s, y0, Raise IndexError)
    | _, [] => (s, y0, Raise IndexError)
    | t_first :: ts, g0 :: grid =>
        if Qeq_bool g0 t_first
           && Qeq_bool (last (g0 :: grid) 0%Q) (last t 0%Q)
        then
          let '(s', y0', r) := euler_loop func s g0 y0 grid ts in
          (s', y0', sols <- r ;; Ok (stack (shape y0) (y0 :: sols)))
        else (s, y0, Raise AssertionError)
    end.

(** Modelled from the spec: [odeint_adjoint], the memory-efficient
    variant.  It differs in how gradients are obtained afterwards; the
    values it returns are those of [odeint]. *)
Definition odeint_adjoint {S : Type} : callable S -> S -> tensor ->
    list Q -> Q -> S * tensor * result tensor := @odeint S.

(** [torch.linspace(start, stop, steps)]. *)
Definition linspace (start stop : Q) (steps : nat) : list Q :=
  match steps with
  | 0 => []
  | 1 => [start]
  | _ =>
      map (fun i => (start + inject_Z (Z.of_nat i)
                             * ((stop - start)
                                / inject_Z (Z.of_nat (steps - 1))))%Q)
          (seq 0 steps)
  end.

(** ** Semiflow *)

Record Semiflow : Type := mkSemiflow {
  adjoint : bool;
  dynamics : Dynamics;
  tol : Q
}.

Definition Semiflow_init (dynamics : Dynamics) (tol : Q) (adjoint : bool)
  : Semiflow := mkSemiflow adjoint dynamics tol.

Definition set_dynamics (self : Semiflow) (d : Dynamics) : Semiflow :=
  mkSemiflow (adjoint self) d (tol self).

(** The initial state of the integration: the input itself, or the
    flattened input padded with zeros. *)
Definition augment (d : Dynamics) (x : tensor) : result tensor :=
  if 0 <? augment_dim d then
    x1 <- view_flat x ;;
    let aug := zeros [hd 0 (shape x1); augment_dim d] in
    cat1 x1 aug
  else Ok x.

(** [Semiflow.forward(x, eval_times)]: the object after the call, the
    content of [x] after the call, and the result.  Without augmentation
    [x_aug] is [x] itself, so what the integrator's first query does to its
    argument is done to [x]; with augmentation [x_aug] is a new tensor. *)
Definition Semiflow_forward (self : Semiflow) (x : tensor)
    (eval_times : option (list Q)) : Semiflow * tensor * result tensor :=
  let d0 := set_nfe (dynamics self) 0 in
  let integration_time :=
    match eval_times with
    | None => [0%Q; T]
    | Some times => times
    end in
  match augment d0 x with
  | Raise e => (set_dynamics self d0, x, Raise e)
  | Ok x_aug =>
      let '(d1, x_aug', out) :=
        if adjoint self
        then odeint_adjoint Dynamics_forward d0 x_aug integration_time dt
        else odeint Dynamics_forward d0 x_aug integration_time dt in
      let x' := if 0 <? augment_dim d0 then x else x_aug' in
      (set_dynamics self d1, x',
       match eval_times with
       | None => o <- out ;; index0 o 1
       | Some _ => out
       end)
  end.

Definition Semiflow_trajectory (self : Semiflow) (x : tensor)
    (timesteps : nat) : Semiflow * tensor * result tensor :=
  let integration_time := linspace 0 T timesteps in
  Semiflow_forward self x (Some integration_time).

(** ** NeuralODE *)

Record NeuralODE : Type := mkNeuralODE {
  ode_data_dim : nat;
  ode_hidden_dim : nat;
  ode_augment_dim : nat;
  output_dim : nat;
  ode_tol : Q;
  flow : Semiflow;
  linear_layer : Linear;
  ode_non_linearity : activation;
  traj : option tensor;
  proj_traj : option tensor
}.

Definition set_flow (self : NeuralODE) (f : Semiflow) : NeuralODE :=
  mkNeuralODE (ode_data_dim self) (ode_hidden_dim self)
    (ode_augment_dim self) (output_dim self) (ode_tol self) f
    (linear_layer self) (ode_non_linearity self) (traj self)
    (proj_traj self).

Definition set_traj (self : NeuralODE) (v : tensor) : NeuralODE :=
  mkNeuralODE (ode_data_dim self) (ode_hidden_dim self)
    (ode_augment_dim self) (output_dim self) (ode_tol self) (flow self)
    (linear_layer self) (ode_non_linearity self) (Some v) (proj_traj self).

Definition set_proj_traj (self : NeuralODE) (v : tensor) : NeuralODE :=
  mkNeuralODE (ode_data_dim self) (ode_hidden_dim self)
    (ode_augment_dim self) (output_dim self) (ode_tol self) (flow self)
    (linear_layer self) (ode_non_linearity self) (traj self) (Some v).

(** [NeuralODE.__init__]. *)
Definition NeuralODE_init (data_dim hidden_dim output_dim augment_dim : nat)
    (non_linearity : string) (tol : Q) (adjoint : bool)
    (theta : initializer) : result NeuralODE :=
  dynamics <- Dynamics_init data_dim hidden_dim augment_dim non_linearity
                            theta ;;
  let flow := Semiflow_init dynamics tol adjoint in
  Ok (mkNeuralODE data_dim hidden_dim augment_dim output_dim tol flow
        (nn_Linear (input_dim dynamics) output_dim
                   (init_weight theta "linear_layer" 0)
                   (init_bias theta "linear_layer" 0))
        Tanh None None).

(** [pickle.load] of ['text.txt']: the file may be missing; when present it
    holds a list of tensors. *)
Definition pickle_load (file : option (list tensor)) : result (list tensor) :=
  match file with
  | Some projector => Ok projector
  | None => Raise FileNotFoundError
  end.

Definition return_value (return_features : bool)
    (features pred proj : tensor) : tensor * tensor :=
  if return_features then (features, pred) else (pred, proj).

(** [NeuralODE.forward(x, return_features)].  [file] is the content of
    ['text.txt'] in the working directory. *)
Definition NeuralODE_forward (file : option (list tensor))
    (self : NeuralODE) (x : tensor) (return_features : bool)
  : NeuralODE * tensor * result (tensor * tensor) :=
  let cross_entropy := true in
  let fixed_projector := false in
  let '(f1, x1, r_features) := Semiflow_forward (flow self) x None in
  let self := set_flow self f1 in
  match r_features with
  | Raise e => (self, x1, Raise e)
  | Ok features =>
      if fixed_projector then
        match (projector <- pickle_load file ;;
               w <- Sequential_getitem projector (-2) ;;
               wt <- tensor_t w ;;
               m <- matmul features wt ;;
               b <- Sequential_getitem projector (-1) ;;
               pred <- add m b ;;
               Ok (pred, wt, b)) with
        | Raise e => (self, x1, Raise e)
        | Ok (pred, wt, b) =>
            let '(f2, x2, r_traj) :=
              Semiflow_trajectory (flow self) x1 time_steps in
            let self := set_flow self f2 in
            match r_traj with
            | Raise e => (self, x2, Raise e)
            | Ok tr =>
                let self := set_traj self tr in
                match (m <- matmul tr wt ;; add m b) with
                | Raise e => (self, x2, Raise e)
                | Ok pt =>
                    (set_proj_traj self pt, x2,
                     Ok (return_value return_features features pred pt))
                end
            end
        end
      else
        let '(f2, x2, r_traj) :=
          Semiflow_trajectory (flow self) x1 time_steps in
        let self := set_flow self f2 in
        match r_traj with
        | Raise e => (self, x2, Raise e)
        | Ok tr =>
            let self := set_traj self tr in
            match Linear_forward (linear_layer self) features with
            | Raise e => (self, x2, Raise e)
            | Ok pred =>
                match Linear_forward (linear_layer self) tr with
                | Raise e => (self, x2, Raise e)
                | Ok pt =>
                    let self := set_proj_traj self pt in
                    if negb cross_entropy then
                      let pred' :=
                        snd (activation_call (ode_non_linearity self) pred) in
                      let pt' :=
                        snd (activation_call (ode_non_linearity self) pt) in
                      (set_proj_traj self pt', x2,
                       Ok (return_value return_features features pred' pt'))
                    else
                      (self, x2,
                       Ok (return_value return_features features pred pt))
                end
            end
        end
  end.

(** [NeuralODE.forward] as the learnable-readout path alone: no file is
    read and the affine outputs are returned as they are. *)
Definition learnable_readout_forward (self : NeuralODE) (x : tensor)
    (return_features : bool)
  : NeuralODE * tensor * result (tensor * tensor) :=
  let '(f1, x1, r_features) := Semiflow_forward (flow self) x None in
  let self := set_flow self f1 in
  match r_features with
  | Raise e => (self, x1, Raise e)
  | Ok features =>
      let '(f2, x2, r_traj) :=
        Semiflow_trajectory (flow self) x1 time_steps in
      let self := set_flow self f2 in
      match r_traj with
      | Raise e => (self, x2, Raise e)
      | Ok tr =>
          let self := set_traj self tr in
          match Linear_forward (linear_layer self) features with
          | Raise e => (self, x2, Raise e)
          | Ok pred =>
              match Linear_forward (linear_layer self) tr with
              | Raise e => (self, x2, Raise e)
              | Ok pt =>
                  (set_proj_traj self pt, x2,
                   Ok (return_value return_features features pred pt))
              end
          end
      end
  end.

(** The names accepted by [Dynamics.__init__]. *)
Definition supported_non_linearities : list string :=
  [ "tanh"%string; "relu"%string; "sigmoid"%string; "leakyrelu"%string ].

(** ** Notions used in the statements *)

(** Times at which the parameter bank has a layer. *)
Definition in_time_range (t : Q) : Prop := (0 <= t)%Q /\ (t < T)%Q.

(** A [Dynamics] as [Dynamics.__init__] leaves it, whatever the value of
    the counter: the flat mode with a bank of [hd] by [hd] layers. *)
Definition constructed (hd : nat) (theta : initializer) (d : Dynamics)
  : Prop :=
  species_ d = (-1)%Z /\ fc2_time d = Some (blocks "fc2_time" hd hd theta).

(** A callable that, on states of shape [sh] and at the times [okt],
    returns a derivative of shape [sh] and keeps [inv]. *)
Definition regular {S : Type} (func : callable S) (inv : S -> Prop)
    (sh : list nat) (okt : Q -> Prop) : Prop :=
  forall s t y, inv s -> okt t -> has_shape sh y ->
  exists s' y' f0,
    func s t y = (s', y', Ok f0) /\ inv s' /\
    has_shape sh y' /\ has_shape sh f0.

(** A callable that reads its time argument as a number, not as a
    fraction. *)
Definition time_compatible {S : Type} (func : callable S) : Prop :=
  forall s t t' y, (t == t')%Q -> func s t y = func s t' y.

(** The callable [func] with a log of the times it is queried at. *)
Definition recording {S : Type} (func : callable S) : callable (S * list Q) :=
  fun sl t y =>
    let '(s', y', r) := func (fst sl) t y in
    ((s', snd sl ++ [t]), y', r).

(** The state the Euler steps over [grid] end in. *)
Fixpoint euler_final {S : Type} (func : callable S) (s : S) (t0 : Q)
    (y0 : tensor) (grid : list Q) : S * tensor * result tensor :=
  match grid with
  | [] => (s, y0, Ok y0)
  | t1 :: grid' =>
      let '(s1, y0', r) := func s t0 y0 in
      match (f0 <- r ;; add y0' (scale (Q2R (t1 - t0)) f0)) with
      | Raise e => (s1, y0', Raise e)
      | Ok y1 =>
          let '(s2, _, r2) := euler_final func s1 t1 y1 grid' in
          (s2, y0', r2)
      end
  end.

(** The solver's time grid for an integration over [[0, T]]. *)
Definition time_grid : list Q := grid_constructor dt [0%Q; T].

(** A zero-initialised parameter bank. *)
Definition zero_bank (theta : initializer) : Prop :=
  (forall k i j, init_weight theta "fc2_time" k i j = 0%R) /\
  (forall k i, init_bias theta "fc2_time" k i = 0%R).

(** A callable whose value is the zero field and which leaves its argument
    as it was. *)
Definition zero_field {S : Type} (func : callable S) (inv : S -> Prop)
    (sh : list nat) (okt : Q -> Prop) : Prop :=
  forall s t y, inv s -> okt t -> has_shape sh y ->
  exists s', func s t y = (s', y, Ok (zeros sh)) /\ inv s'.

(** [d] is [d0] up to the value of the counter. *)
Definition same_model (d0 d : Dynamics) : Prop :=
  exists k, d = set_nfe d0 k.

(** ** Example parameters and inputs *)

(** All parameters zero. *)
Definition zero_init : initializer :=
  mkInit (fun _ _ _ _ => 0%R) (fun _ _ _ => 0%R).

(** All weights zero and all biases one: the constant field [1]. *)
Definition unit_bias_init : initializer :=
  mkInit (fun _ _ _ _ => 0%R) (fun _ _ _ => 1%R).

(** The times at which the integrator queries the vector field during
    [Semiflow.forward(x, eval_times)]: the log kept by the recording
    callable when the same integrator call is made on it. *)
Definition solver_queries (self : Semiflow) (x : tensor)
    (eval_times : option (list Q)) : list Q :=
  let d0 := set_nfe (dynamics self) 0 in
  let integration_time :=
    match eval_times with
    | None => [0%Q; T]
    | Some times => times
    end in
  match augment d0 x with
  | Raise _ => []
  | Ok x_aug =>
      snd (fst (fst (odeint (recording Dynamics_forward) (d0, []) x_aug
                            integration_time dt)))
  end.

(** The residual block the integration makes of layer [k] of the bank:
    [y + dt * (W_k sigma(y) + b_k)].  The first [y] is what the activation
    module leaves in the state: the state itself, or the activated state
    when the activation works in place. *)
Definition residual_block (hd : nat) (theta : initializer)
    (sigma : activation) (k : nat) (y : tensor) : result tensor :=
  f <- Linear_forward
         (nn_Linear hd hd (init_weight theta "fc2_time" k)
                    (init_bias theta "fc2_time" k))
         (snd (activation_call sigma y)) ;;
  add (fst (activation_call sigma y)) (scale (Q2R dt) f).

(** The blocks [k], [k + 1], ..., [k + n - 1] one after the other. *)
Fixpoint residual_network (hd : nat) (theta : initializer)
    (sigma : activation) (k n : nat) (y : tensor) : result tensor :=
  match n with
  | 0 => Ok y
  | S n' =>
      y1 <- residual_block hd theta sigma k y ;;
      residual_network hd theta sigma (S k) n' y1
  end.

(** * Properties *)

(** ** Time grid and step index *)

Lemma int_nonneg_bounds (q : Q) (n : Z) :
  (0 <= q)%Q -> (q < inject_Z n)%Q -> (0 <= int q < n)%Z.
Proof.
  destruct q as [a b]. unfold Qle, Qlt, int. simpl. intros Ha Hlt.
  assert (Hb : (0 < Z.pos b)%Z) by lia.
  split.
  - apply Z.quot_pos; lia.
  - apply Z.quot_lt_upper_bound; lia.
Qed.

Lemma div_dt_bounds (t : Q) :
  (0 <= t)%Q -> (t < T)%Q ->
  (0 <= t / dt)%Q /\ (t / dt < inject_Z (Z.of_nat time_steps))%Q.
Proof.
  destruct t as [a b]. unfold Qle, Qlt, Qdiv, Qmult, Qinv, dt, T. simpl.
  intros H0 HT. split; lia.
Qed.

Lemma blocks_length (name : string) (inf outf : nat) (theta : initializer) :
  length (blocks name inf outf theta) = time_steps.
Proof. unfold blocks. rewrite length_map, length_seq. reflexivity. Qed.

Lemma Sequential_getitem_nat {A : Type} (l : list A) (k : Z) :
  (0 <= k < Z.of_nat (length l))%Z ->
  Sequential_getitem l k = match nth_error l (Z.to_nat k) with
                           | Some a => Ok a
                           | None => Raise IndexError
                           end.
Proof.
  intros Hk. unfold Sequential_getitem.
  replace ((- Z.of_nat (length l) <=? k)%Z) with true
    by (symmetry; apply Z.leb_le; lia).
  replace ((k <? Z.of_nat (length l))%Z) with true
    by (symmetry; apply Z.ltb_lt; lia).
  simpl. rewrite Z.mod_small by lia. reflexivity.
Qed.

Lemma blocks_getitem (name : string) (inf outf : nat) (theta : initializer)
    (k : Z) :
  (0 <= k < Z.of_nat time_steps)%Z ->
  Sequential_getitem (blocks name inf outf theta) k
  = Ok (nn_Linear inf outf (init_weight theta name (Z.to_nat k))
                  (init_bias theta name (Z.to_nat k))).
Proof.
  intros Hk. rewrite Sequential_getitem_nat
    by (rewrite blocks_length; exact Hk).
  unfold blocks.
  rewrite nth_error_map, nth_error_seq.
  replace (Z.to_nat k <? time_steps) with true; [reflexivity|].
  symmetry. apply Nat.ltb_lt. lia.
Qed.

Lemma Dynamics_init_inv (dd hd ad : nat) (name : string)
    (theta : initializer) (d : Dynamics) :
  Dynamics_init dd hd ad name theta = Ok d ->
  exists act,
    dict_get activations name = Ok act /\
    d = mkDynamics ad dd (dd + ad) hd 0 act (-1)%Z None None
          (Some (blocks "fc2_time" hd hd theta)).
Proof.
  unfold Dynamics_init. destruct (dict_get activations name) as [act|e];
    simpl; [|discriminate].
  intros H. injection H as <-. exists act. split; reflexivity.
Qed.

(** C1.  For a time [0 <= t < T] the step index [k = int(t/dt)] computed by
    [Dynamics.forward] satisfies [0 <= k < time_steps], and selecting the
    [k]-th layer of the parameter bank of a constructed [Dynamics]
    succeeds. *)
Theorem step_index_in_bounds (dd hd ad : nat) (name : string)
    (theta : initializer) (d : Dynamics) (t : Q) :
  Dynamics_init dd hd ad name theta = Ok d ->
  (0 <= t)%Q -> (t < T)%Q ->
  let k := int (t / dt) in
  (0 <= k < Z.of_nat time_steps)%Z /\
  (l <- getattr (fc2_time d) ;; Sequential_getitem l k)
  = Ok (nn_Linear hd hd (init_weight theta "fc2_time" (Z.to_nat k))
                  (init_bias theta "fc2_time" (Z.to_nat k))).
Proof.
  intros Hd H0 HT k.
  assert (Hk : (0 <= k < Z.of_nat time_steps)%Z).
  { destruct (div_dt_bounds t H0 HT) as [Hq0 Hq1].
    exact (int_nonneg_bounds _ _ Hq0 Hq1). }
  split; [exact Hk|].
  destruct (Dynamics_init_inv _ _ _ _ _ _ Hd) as [act [_ ->]]. simpl.
  apply blocks_getitem. exact Hk.
Qed.

Lemma step_index_in_bounds_witness :
  let theta := mkInit (fun _ _ _ _ => 0%R) (fun _ _ _ => 0%R) in
  exists d, Dynamics_init 2 2 0 "tanh" theta = Ok d /\
  (0 <= int ((19 # 2) / dt) < Z.of_nat time_steps)%Z /\
  (l <- getattr (fc2_time d) ;; Sequential_getitem l (int ((19 # 2) / dt)))
  = Ok (nn_Linear 2 2 (init_weight theta "fc2_time" 14)
                  (init_bias theta "fc2_time" 14)).
Proof.
  intros theta. eexists. split; [reflexivity|].
  apply (step_index_in_bounds 2 2 0 "tanh" theta _ (19 # 2));
    [reflexivity | unfold Qle; simpl; lia | unfold Qlt, T; simpl; lia].
Defined.

(** At [t = T] itself the index is [time_steps] and the selection raises. *)
Lemma step_index_at_T (dd hd ad : nat) (name : string)
    (theta : initializer) (d : Dynamics) :
  Dynamics_init dd hd ad name theta = Ok d ->
  int (T / dt) = Z.of_nat time_steps /\
  (l <- getattr (fc2_time d) ;; Sequential_getitem l (int (T / dt)))
  = Raise IndexError.
Proof.
  intros Hd. split; [reflexivity|].
  destruct (Dynamics_init_inv _ _ _ _ _ _ Hd) as [act [_ ->]]. reflexivity.
Qed.

(** ** Construction *)

Lemma dict_get_activations (name : string) :
  (In name supported_non_linearities ->
   exists act, dict_get activations name = Ok act) /\
  (~ In name supported_non_linearities ->
   dict_get activations name = Raise (KeyError name)).
Proof.
  unfold supported_non_linearities, activations. split.
  - intros [<-|[<-|[<-|[<-|[]]]]]; simpl; eexists; reflexivity.
  - intros Hn. unfold dict_get. simpl In in Hn.
    destruct (String.eqb_spec "tanh" name) as [E|_]; [tauto|].
    destruct (String.eqb_spec "relu" name) as [E|_]; [tauto|].
    destruct (String.eqb_spec "sigmoid" name) as [E|_]; [tauto|].
    destruct (String.eqb_spec "leakyrelu" name) as [E|_]; [tauto|].
    reflexivity.
Qed.

(** C9.  [Dynamics.__init__] raises (a [KeyError]) for a nonlinearity name
    outside [tanh, relu, sigmoid, leakyrelu], so no object exists that could
    be evaluated, and returns an object for every name of the set. *)
Theorem Dynamics_init_non_linearity (dd hd ad : nat) (name : string)
    (theta : initializer) :
  (~ In name supported_non_linearities ->
   Dynamics_init dd hd ad name theta = Raise (KeyError name)) /\
  (In name supported_non_linearities ->
   exists d, Dynamics_init dd hd ad name theta = Ok d /\ nfe d = 0).
Proof.
  destruct (dict_get_activations name) as [Hin Hout]. split.
  - intros Hn. unfold Dynamics_init. rewrite (Hout Hn). reflexivity.
  - intros Hi. destruct (Hin Hi) as [act Hact].
    unfold Dynamics_init. rewrite Hact. simpl. eexists. split; reflexivity.
Qed.

Lemma Dynamics_init_non_linearity_witness :
  let theta := mkInit (fun _ _ _ _ => 0%R) (fun _ _ _ => 0%R) in
  Dynamics_init 2 2 0 "softplus" theta = Raise (KeyError "softplus") /\
  exists d, Dynamics_init 2 2 0 "sigmoid" theta = Ok d /\ nfe d = 0.
Proof.
  intros theta. split.
  - apply (proj1 (Dynamics_init_non_linearity 2 2 0 "softplus" theta)).
    unfold supported_non_linearities. simpl.
    intros [H|[H|[H|[H|[]]]]]; discriminate H.
  - apply (proj2 (Dynamics_init_non_linearity 2 2 0 "sigmoid" theta)).
    unfold supported_non_linearities. simpl. auto.
Defined.

(** The whole model fails at construction in the same way. *)
Lemma NeuralODE_init_unsupported (dd hd od ad : nat) (name : string)
    (tol : Q) (adj : bool) (theta : initializer) :
  ~ In name supported_non_linearities ->
  NeuralODE_init dd hd od ad name tol adj theta = Raise (KeyError name).
Proof.
  intros Hn. unfold NeuralODE_init, Dynamics_init.
  rewrite (proj2 (dict_get_activations name) Hn). reflexivity.
Qed.

(** ** The derivative and the state *)

Lemma activation_call_not_inplace (a : activation) (x : tensor) :
  is_inplace a = false ->
  activation_call a x = (x, tensor_map (activation_fn a) x).
Proof. intros H. unfold activation_call. rewrite H. reflexivity. Qed.

(** What [Dynamics.forward] leaves in its argument when the bank of a
    constructed [Dynamics] has a layer for the time. *)
Lemma Dynamics_forward_state (dd hd ad : nat) (name : string)
    (theta : initializer) (d : Dynamics) (n : nat) (t : Q) (x : tensor) :
  Dynamics_init dd hd ad name theta = Ok d ->
  (0 <= t)%Q -> (t < T)%Q ->
  snd (fst (Dynamics_forward (set_nfe d n) t x))
  = fst (activation_call (non_linearity d) x).
Proof.
  intros Hd H0 HT.
  destruct (div_dt_bounds t H0 HT) as [Hq0 Hq1].
  pose proof (blocks_getitem "fc2_time" hd hd theta _
                (int_nonneg_bounds _ _ Hq0 Hq1)) as Hsel.
  destruct (Dynamics_init_inv _ _ _ _ _ _ Hd) as [act [_ ->]].
  unfold Dynamics_forward. simpl in *. rewrite Hsel.
  destruct (activation_call act x). reflexivity.
Qed.

(** With [tanh] or [sigmoid] the argument is left as it was. *)
Lemma Dynamics_forward_keeps_state (dd hd ad : nat) (name : string)
    (theta : initializer) (d : Dynamics) (t : Q) (x : tensor) :
  name = "tanh"%string \/ name = "sigmoid"%string ->
  Dynamics_init dd hd ad name theta = Ok d ->
  snd (fst (Dynamics_forward d t x)) = x.
Proof.
  intros Hname Hd.
  destruct (Dynamics_init_inv _ _ _ _ _ _ Hd) as [act [Hact ->]].
  assert (Hin : is_inplace act = false).
  { destruct Hname as [-> | ->]; simpl in Hact; injection Hact as <-;
      reflexivity. }
  unfold Dynamics_forward. simpl.
  destruct (Sequential_getitem _ _); simpl; [|reflexivity].
  rewrite (activation_call_not_inplace _ _ Hin). reflexivity.
Qed.

(** C8.  With the [relu] entry of [activations] (an in-place module),
    [Dynamics.forward] overwrites its argument: the state [[[-1]]] holds
    [[[0]]] after the call. *)
Theorem Dynamics_forward_relu_overwrites_state (theta : initializer) :
  let x := mkTensor [1; 1] [(-1)%R] in
  match Dynamics_init 1 1 0 "relu" theta with
  | Ok d =>
      snd (fst (Dynamics_forward d 0 x)) = mkTensor [1; 1] [0%R] /\
      snd (fst (Dynamics_forward d 0 x)) <> x
  | Raise _ => False
  end.
Proof.
  intros x.
  change (Dynamics_init 1 1 0 "relu" theta)
    with (Ok (mkDynamics 0 1 1 1 0 (ReLU true) (-1)%Z None None
                (Some (blocks "fc2_time" 1 1 theta)))).
  cbv beta iota.
  assert (E : snd (fst (Dynamics_forward
                (mkDynamics 0 1 1 1 0 (ReLU true) (-1)%Z None None
                   (Some (blocks "fc2_time" 1 1 theta))) 0 x))
              = mkTensor [1; 1] [0%R]).
  { unfold Dynamics_forward, x. simpl. unfold tensor_map, relu. simpl.
    rewrite Rmax_left by lra. reflexivity. }
  split; [exact E|]. rewrite E. unfold x. intros H.
  injection H as H. lra.
Qed.

(** The same happens with [leakyrelu]: [[[-4]]] becomes [[[-1]]]. *)
Lemma Dynamics_forward_leakyrelu_overwrites_state (theta : initializer) :
  let x := mkTensor [1; 1] [(-4)%R] in
  match Dynamics_init 1 1 0 "leakyrelu" theta with
  | Ok d => snd (fst (Dynamics_forward d 0 x)) = mkTensor [1; 1] [(-1)%R]
  | Raise _ => False
  end.
Proof.
  intros x. simpl. unfold Dynamics_forward, x. simpl.
  unfold tensor_map, leaky_relu. simpl.
  rewrite Rmax_left by lra. rewrite Rmin_right by lra.
  f_equal. f_equal. lra.
Qed.

(** ** Terminal state and readout *)

(** C2.  [Semiflow.forward(x, eval_times=[0, T])[1]] is
    [Semiflow.forward(x, eval_times=None)]: both calls end in the same
    object and leave the same content in [x], and the second result is the
    slice of index 1 of the first. *)
Theorem Semiflow_forward_terminal_state (self : Semiflow) (x : tensor) :
  let '(s1, x1, out) := Semiflow_forward self x (Some [0%Q; T]) in
  let '(s2, x2, terminal) := Semiflow_forward self x None in
  s2 = s1 /\ x2 = x1 /\ terminal = (o <- out ;; index0 o 1).
Proof.
  unfold Semiflow_forward.
  destruct (augment (set_nfe (dynamics self) 0) x) as [x_aug|e].
  - destruct (if adjoint self
              then odeint_adjoint Dynamics_forward _ x_aug [0%Q; T] dt
              else odeint Dynamics_forward _ x_aug [0%Q; T] dt)
      as [[d1 x'] out].
    repeat split.
  - repeat split.
Qed.

(** C10.  [NeuralODE.forward] is its learnable-readout path with raw
    affine outputs, whatever the file ['text.txt'] holds: the two flags are
    constants of the method, so the file is never read (the result is the
    same for every content of the file, and for a missing file) and the
    final [tanh] is never applied (what is returned and stored is the
    readout applied to the features and to the trajectory). *)
Theorem NeuralODE_forward_learnable_readout (file : option (list tensor))
    (self : NeuralODE) (x : tensor) (return_features : bool) :
  NeuralODE_forward file self x return_features
  = learnable_readout_forward self x return_features /\
  (forall file',
     NeuralODE_forward file' self x return_features
     = NeuralODE_forward file self x return_features) /\
  match NeuralODE_forward file self x return_features with
  | (self', _, Ok out) =>
      exists features pred tr pt,
        out = return_value return_features features pred pt /\
        Linear_forward (linear_layer self) features = Ok pred /\
        Linear_forward (linear_layer self) tr = Ok pt /\
        traj self' = Some tr /\ proj_traj self' = Some pt
  | (_, _, Raise _) => True
  end.
Proof.
  split; [reflexivity|]. split; [intros file'; reflexivity|].
  unfold NeuralODE_forward.
  destruct (Semiflow_forward (flow self) x None) as [[f1 x1] [features|e]];
    [|exact I].
  cbn [flow set_flow].
  destruct (Semiflow_trajectory f1 x1 time_steps) as [[f2 x2] [tr|e]];
    [|exact I].
  cbn [linear_layer set_flow set_traj].
  destruct (Linear_forward (linear_layer self) features) as [pred|e] eqn:Ep;
    [|exact I].
  destruct (Linear_forward (linear_layer self) tr) as [pt|e] eqn:Et;
    [|exact I].
  cbn [negb]. exists features, pred, tr, pt.
  repeat split; assumption.
Qed.

(** ** Shapes *)

Lemma numel_app (a b : list nat) : numel (a ++ b) = numel a * numel b.
Proof.
  induction a as [|n a IH]; simpl; [lia|]. rewrite IH. lia.
Qed.

Lemma well_formed_has_shape (y : tensor) :
  well_formed y -> has_shape (shape y) y.
Proof. intros H. split; [reflexivity | exact H]. Qed.

Lemma tensor_map_has_shape (f : R -> R) (sh : list nat) (y : tensor) :
  has_shape sh y -> has_shape sh (tensor_map f y).
Proof.
  intros [E L]. split; simpl; [exact E|]. rewrite length_map. exact L.
Qed.

Lemma activation_call_has_shape (a : activation) (sh : list nat)
    (y : tensor) :
  has_shape sh y ->
  has_shape sh (fst (activation_call a y)) /\
  has_shape sh (snd (activation_call a y)).
Proof.
  intros H. unfold activation_call.
  destruct (is_inplace a); simpl; auto using tensor_map_has_shape.
Qed.

Lemma flat_map_length_const {A B : Type} (f : A -> list B) (l : list A)
    (p : nat) :
  (forall a, length (f a) = p) -> length (flat_map f l) = length l * p.
Proof.
  intros Hf. induction l as [|a l IH]; simpl; [reflexivity|].
  rewrite length_app, Hf, IH. reflexivity.
Qed.

Lemma broadcast_last_length (f : R -> R -> R) (k i : nat) (u v : list R) :
  length (broadcast_last f k i u v) = length u.
Proof.
  revert i. induction u as [|a u IH]; intros i; simpl; [reflexivity|].
  f_equal. apply IH.
Qed.

Lemma trailing_axes_refl (sh : list nat) : trailing_axes sh sh = true.
Proof.
  unfold trailing_axes. rewrite Nat.sub_diag. simpl.
  destruct (list_eq_dec Nat.eq_dec sh sh); congruence.
Qed.

Lemma trailing_axes_last (lead : list nat) (k : nat) :
  trailing_axes (lead ++ [k]) [k] = true.
Proof.
  unfold trailing_axes. rewrite length_app. simpl.
  replace (length lead + 1 - 1) with (length lead) by lia.
  rewrite skipn_app, skipn_all, Nat.sub_diag.
  change ([] ++ skipn 0 [k]) with [k].
  destruct (list_eq_dec Nat.eq_dec [k] [k]); congruence.
Qed.

Lemma elementwise_shape (f : R -> R -> R) (a b y : tensor) :
  elementwise f a b = Ok y ->
  shape y = shape a /\ length (data y) = length (data a).
Proof.
  unfold elementwise. destruct (trailing_axes (shape a) (shape b));
    [|discriminate].
  intros H. injection H as <-. simpl.
  split; [reflexivity | apply broadcast_last_length].
Qed.

Lemma elementwise_same_shape (f : R -> R -> R) (a b : tensor) :
  shape b = shape a ->
  elementwise f a b
  = Ok (mkTensor (shape a)
          (broadcast_last f (numel (shape a)) 0 (data a) (data b))).
Proof.
  intros E. unfold elementwise. rewrite E, trailing_axes_refl. reflexivity.
Qed.

Lemma elementwise_bias (f : R -> R -> R) (lead : list nat) (k : nat)
    (a b : tensor) :
  shape a = lead ++ [k] -> shape b = [k] ->
  elementwise f a b
  = Ok (mkTensor (shape a) (broadcast_last f k 0 (data a) (data b))).
Proof.
  intros Ea Eb. unfold elementwise.
  rewrite Ea, Eb, trailing_axes_last. simpl. rewrite Nat.mul_1_r.
  reflexivity.
Qed.

(** ** Linear layers *)

Lemma nn_Linear_t (inf outf : nat) (w : nat -> nat -> R) (b : nat -> R) :
  exists wt,
    tensor_t (weight (nn_Linear inf outf w b)) = Ok wt /\
    shape wt = [inf; outf].
Proof. eexists. split; reflexivity. Qed.

Lemma matmul_ok (x m : tensor) (lead : list nat) (n p : nat) :
  shape m = [n; p] -> shape x = lead ++ [n] ->
  matmul x m
  = Ok (mkTensor (lead ++ [p])
          (flat_map (fun i => map (fun j => dot (row n i (data x))
                                                (column m n p j))
                                  (seq 0 p))
                    (seq 0 (numel lead)))).
Proof.
  intros Em Ex. unfold matmul. rewrite Em, Ex, rev_app_distr. simpl.
  rewrite Nat.eqb_refl, rev_involutive. reflexivity.
Qed.

Lemma matmul_has_shape (x m : tensor) (lead : list nat) (n p : nat) :
  shape m = [n; p] -> shape x = lead ++ [n] ->
  exists y, matmul x m = Ok y /\ has_shape (lead ++ [p]) y.
Proof.
  intros Em Ex. rewrite (matmul_ok _ _ _ _ _ Em Ex). eexists.
  split; [reflexivity|]. split; simpl; [reflexivity|].
  rewrite (flat_map_length_const _ _ p)
    by (intros; rewrite length_map, length_seq; reflexivity).
  rewrite length_seq, numel_app. simpl. lia.
Qed.

(** A layer built by [nn.Linear(inf, outf)] maps a tensor whose last axis
    has size [inf] to one whose last axis has size [outf]. *)
Lemma Linear_forward_has_shape (inf outf : nat) (w : nat -> nat -> R)
    (b : nat -> R) (x : tensor) (lead : list nat) :
  shape x = lead ++ [inf] ->
  exists y, Linear_forward (nn_Linear inf outf w b) x = Ok y /\
            has_shape (lead ++ [outf]) y.
Proof.
  intros Ex. unfold Linear_forward.
  destruct (nn_Linear_t inf outf w b) as [wt [-> Ewt]]. simpl bind.
  destruct (matmul_has_shape _ _ _ _ _ Ewt Ex) as [m [-> Hm]]. simpl bind.
  unfold add. rewrite (elementwise_bias Rplus lead outf m)
    by (try apply Hm; reflexivity).
  eexists. split; [reflexivity|].
  destruct Hm as [Em Lm]. split; simpl; [exact Em|].
  rewrite broadcast_last_length. exact Lm.
Qed.

(** A last axis of another size is refused. *)
Lemma Linear_forward_mismatch (inf outf : nat) (w : nat -> nat -> R)
    (b : nat -> R) (x : tensor) (lead : list nat) (k : nat) :
  shape x = lead ++ [k] -> k <> inf ->
  Linear_forward (nn_Linear inf outf w b) x = Raise RuntimeError.
Proof.
  intros Ex Hk. unfold Linear_forward. simpl.
  unfold matmul. simpl. rewrite Ex, rev_app_distr. simpl.
  destruct (Nat.eqb_spec k inf) as [E|_]; [contradiction|]. reflexivity.
Qed.

(** ** The derivative of a constructed [Dynamics] *)

Lemma constructed_init (dd hd ad : nat) (name : string)
    (theta : initializer) (d : Dynamics) :
  Dynamics_init dd hd ad name theta = Ok d -> constructed hd theta d.
Proof.
  intros Hd. destruct (Dynamics_init_inv _ _ _ _ _ _ Hd) as [act [_ ->]].
  split; reflexivity.
Qed.

Lemma constructed_set_nfe (hd : nat) (theta : initializer) (d : Dynamics)
    (n : nat) :
  constructed hd theta d -> constructed hd theta (set_nfe d n).
Proof. intros [H1 H2]. split; assumption. Qed.

Lemma in_time_range_index (t : Q) :
  in_time_range t -> (0 <= int (t / dt) < Z.of_nat time_steps)%Z.
Proof.
  intros [H0 HT]. destruct (div_dt_bounds t H0 HT) as [Hq0 Hq1].
  exact (int_nonneg_bounds _ _ Hq0 Hq1).
Qed.

(** In range, the derivative is the layer of the step applied to the
    activated state; the counter is one higher and the argument holds what
    the activation module left in it. *)
Lemma Dynamics_forward_in_range (hd : nat) (theta : initializer)
    (d : Dynamics) (t : Q) (x : tensor) :
  constructed hd theta d -> in_time_range t ->
  Dynamics_forward d t x
  = (set_nfe d (nfe d + 1),
     fst (activation_call (non_linearity d) x),
     Linear_forward
       (nn_Linear hd hd
          (init_weight theta "fc2_time" (Z.to_nat (int (t / dt))))
          (init_bias theta "fc2_time" (Z.to_nat (int (t / dt)))))
       (snd (activation_call (non_linearity d) x))).
Proof.
  intros [Hs Hb] Ht. unfold Dynamics_forward.
  cbn [species_ fc2_time non_linearity set_nfe].
  rewrite Hs, Hb. cbn [Z.ltb Z.compare getattr bind].
  rewrite (blocks_getitem _ _ _ _ _ (in_time_range_index t Ht)).
  destruct (activation_call (non_linearity d) x) as [x' sx].
  reflexivity.
Qed.

Lemma same_model_set_nfe (d0 d : Dynamics) (n : nat) :
  same_model d0 d -> same_model d0 (set_nfe d n).
Proof. intros [k ->]. exists n. reflexivity. Qed.

Lemma Dynamics_forward_regular (hd : nat) (theta : initializer)
    (lead : list nat) (d0 : Dynamics) :
  regular Dynamics_forward
          (fun d => constructed hd theta d /\ same_model d0 d)
          (lead ++ [hd]) in_time_range.
Proof.
  intros d t y [Hd Hsame] Ht Hy.
  rewrite (Dynamics_forward_in_range hd theta d t y Hd Ht).
  destruct (activation_call_has_shape (non_linearity d) _ _ Hy) as [H1 H2].
  destruct (Linear_forward_has_shape hd hd
              (init_weight theta "fc2_time" (Z.to_nat (int (t / dt))))
              (init_bias theta "fc2_time" (Z.to_nat (int (t / dt))))
              (snd (activation_call (non_linearity d) y)) lead (proj1 H2))
    as [f0 [-> Hf0]].
  exists (set_nfe d (nfe d + 1)), (fst (activation_call (non_linearity d) y)),
    f0.
  split; [reflexivity|]. split; [|split; assumption].
  split; [apply constructed_set_nfe; exact Hd|].
  apply same_model_set_nfe. exact Hsame.
Qed.

Lemma int_compat (q q' : Q) : (q == q')%Q -> int q = int q'.
Proof.
  destruct q as [a b], q' as [c d]. unfold Qeq, int. simpl. intros H.
  rewrite <- (Z.quot_mul_cancel_r a (Z.pos b) (Z.pos d)) by lia.
  rewrite <- (Z.quot_mul_cancel_r c (Z.pos d) (Z.pos b)) by lia.
  rewrite H. f_equal. lia.
Qed.

Lemma Dynamics_forward_time_compatible : time_compatible Dynamics_forward.
Proof.
  intros d t t' y Ht. unfold Dynamics_forward.
  assert (E : int (t / dt) = int (t' / dt)).
  { apply int_compat. rewrite Ht. reflexivity. }
  rewrite E. reflexivity.
Qed.

Lemma Dynamics_forward_counts (d : Dynamics) (t : Q) (x : tensor) :
  nfe (fst (fst (Dynamics_forward d t x))) = nfe d + 1.
Proof.
  unfold Dynamics_forward. cbn [species_ fc2_time fc1_time fc3_time set_nfe].
  destruct (species_ d <? 1)%Z.
  - destruct (l <- getattr (fc2_time d) ;; Sequential_getitem l _);
      [|reflexivity].
    destruct (species_ d <? 0)%Z; [|reflexivity].
    destruct (activation_call _ x). reflexivity.
  - destruct (l <- getattr (fc1_time d) ;; Sequential_getitem l _);
      [|reflexivity].
    destruct (l <- getattr (fc3_time d) ;; Sequential_getitem l _);
      reflexivity.
Qed.

(** ** Ordered time sequences *)

Lemma Qlt_bool_iff (a b : Q) : Qlt_bool a b = true <-> (a < b)%Q.
Proof.
  unfold Qlt_bool. rewrite negb_true_iff. split.
  - intros H. apply Qnot_le_lt. intros Hle.
    apply Qle_bool_iff in Hle. congruence.
  - intros H. destruct (Qle_bool b a) eqn:E; [|reflexivity].
    apply Qle_bool_iff in E. lra.
Qed.

Lemma Qle_bool_false (a b : Q) : Qle_bool a b = false <-> (b < a)%Q.
Proof.
  split.
  - intros H. apply Qnot_le_lt. intros Hle.
    apply Qle_bool_iff in Hle. congruence.
  - intros H. destruct (Qle_bool a b) eqn:E; [|reflexivity].
    apply Qle_bool_iff in E. lra.
Qed.

Lemma Qeq_bool_false (a b : Q) : ~ (a == b)%Q -> Qeq_bool a b = false.
Proof.
  intros H. destruct (Qeq_bool a b) eqn:E; [|reflexivity].
  apply Qeq_bool_iff in E. contradiction.
Qed.

Lemma Qeq_bool_true (a b : Q) : (a == b)%Q -> Qeq_bool a b = true.
Proof. intros H. apply Qeq_bool_iff. exact H. Qed.

Lemma strictly_increasing_cons (a b : Q) (l : list Q) :
  strictly_increasing (a :: b :: l) = true <->
  (a < b)%Q /\ strictly_increasing (b :: l) = true.
Proof.
  cbn [strictly_increasing]. rewrite andb_true_iff, Qlt_bool_iff.
  reflexivity.
Qed.

Lemma strictly_increasing_tail (a : Q) (l : list Q) :
  strictly_increasing (a :: l) = true -> strictly_increasing l = true.
Proof.
  destruct l as [|b l]; [reflexivity|].
  intros H. apply strictly_increasing_cons in H. apply H.
Qed.

Lemma strictly_increasing_app_r (l1 l2 : list Q) :
  strictly_increasing (l1 ++ l2) = true -> strictly_increasing l2 = true.
Proof.
  induction l1 as [|a l1 IH]; [trivial|].
  intros H. apply IH. exact (strictly_increasing_tail _ _ H).
Qed.

Lemma strictly_increasing_last (a d : Q) (l : list Q) :
  strictly_increasing (a :: l) = true -> (a <= last (a :: l) d)%Q.
Proof.
  revert a. induction l as [|b l IH]; intros a H.
  - simpl. lra.
  - apply strictly_increasing_cons in H. destruct H as [Hab H].
    specialize (IH b H). change (last (a :: b :: l) d) with (last (b :: l) d).
    lra.
Qed.

Lemma strictly_increasing_last_lt (a b d : Q) (l : list Q) :
  strictly_increasing (a :: b :: l) = true -> (a < last (b :: l) d)%Q.
Proof.
  intros H. apply strictly_increasing_cons in H. destruct H as [Hab H].
  pose proof (strictly_increasing_last b d l H). lra.
Qed.

Lemma last_nonempty {A : Type} (l : list A) (d d' : A) :
  l <> [] -> last l d = last l d'.
Proof.
  induction l as [|a l IH]; [congruence|]. intros _.
  destruct l as [|b l]; [reflexivity|].
  change (last (b :: l) d = last (b :: l) d'). apply IH. discriminate.
Qed.

Lemma last_app_nonempty {A : Type} (l1 l2 : list A) (d : A) :
  l2 <> [] -> last (l1 ++ l2) d = last l2 d.
Proof.
  intros H. induction l1 as [|a l1 IH]; [reflexivity|].
  simpl app. destruct (l1 ++ l2) eqn:E.
  - destruct l1; [simpl in E; contradiction | discriminate].
  - rewrite <- IH. reflexivity.
Qed.

(** ** The Euler scheme on a regular callable *)

Lemma elementwise_ok (f : R -> R -> R) (sh : list nat) (a b : tensor) :
  has_shape sh a -> has_shape sh b ->
  exists y, elementwise f a b = Ok y /\ has_shape sh y.
Proof.
  intros Ha Hb.
  rewrite elementwise_same_shape
    by (destruct Ha, Hb; congruence).
  eexists. split; [reflexivity|].
  destruct Ha as [Ea La]. split; simpl; [exact Ea|].
  rewrite broadcast_last_length. exact La.
Qed.

Lemma linear_interp_ok (sh : list nat) (t0 t1 t : Q) (y0 y1 : tensor) :
  has_shape sh y0 -> has_shape sh y1 ->
  exists v, linear_interp t0 t1 y0 y1 t = Ok v /\ has_shape sh v.
Proof.
  intros H0 H1. unfold linear_interp.
  destruct (Qeq_bool t t0); [exists y0; auto|].
  destruct (Qeq_bool t t1); [exists y1; auto|].
  destruct (elementwise_ok Rminus sh y1 y0 H1 H0) as [d [Hd Hsd]].
  unfold sub. rewrite Hd. cbn [bind].
  apply elementwise_ok; [exact H0|].
  apply tensor_map_has_shape. exact Hsd.
Qed.

Lemma fill_solution_spec (sh : list nat) (t0 t1 : Q) (y0 y1 : tensor)
    (ts : list Q) :
  has_shape sh y0 -> has_shape sh y1 ->
  exists sols served rest,
    fill_solution t0 t1 y0 y1 ts = (Ok sols, rest) /\
    ts = served ++ rest /\
    length sols = length served /\
    Forall (has_shape sh) sols /\
    Forall (fun t => (t <= t1)%Q) served /\
    (forall r rest', rest = r :: rest' -> (t1 < r)%Q) /\
    (forall d d', rest = [] -> ts <> [] -> (last ts d == t1)%Q ->
                  (t0 < t1)%Q -> last sols d' = y1).
Proof.
  intros H0 H1. induction ts as [|tj ts IH].
  - exists [], [], []. cbn. repeat split; auto; try discriminate.
    intros d d' _ Hne. contradiction.
  - cbn [fill_solution]. destruct (Qle_bool tj t1) eqn:Ele.
    + destruct (linear_interp_ok sh t0 t1 tj y0 y1 H0 H1) as [v [Hv Hsv]].
      rewrite Hv.
      destruct IH as (sols & served & rest & Hf & Hts & Hlen & Hsh & Hle
                      & Hrest & Hlast).
      rewrite Hf. cbn [bind].
      exists (v :: sols), (tj :: served), rest.
      repeat split.
      * simpl. rewrite Hts. reflexivity.
      * simpl. rewrite Hlen. reflexivity.
      * constructor; assumption.
      * constructor; [apply Qle_bool_iff; exact Ele | exact Hle].
      * exact Hrest.
      * intros d d' Er _ Hl Hlt.
        destruct ts as [|tk ts'].
        -- destruct served; [|discriminate].
           destruct sols; [|discriminate]. simpl in Hl. simpl.
           unfold linear_interp in Hv.
           rewrite (Qeq_bool_false tj t0) in Hv by lra.
           rewrite (Qeq_bool_true tj t1) in Hv by exact Hl.
           injection Hv as <-. reflexivity.
        -- assert (Hs : sols <> []).
           { destruct sols; [|discriminate]. destruct served; [|discriminate].
             subst rest. discriminate. }
           destruct sols as [|v' sols']; [contradiction|].
           change (last (v' :: sols') d' = y1).
           apply (Hlast d d' Er); [discriminate | exact Hl | exact Hlt].
    + exists [], [], (tj :: ts). repeat split; auto.
      * intros r rest' E. injection E as <- <-.
        apply Qle_bool_false. exact Ele.
      * discriminate.
Qed.

Section EulerScheme.

Variable S : Type.
Variable func : callable S.
Variable inv : S -> Prop.
Variable sh : list nat.
Variable okt : Q -> Prop.
Hypothesis Hreg : regular func inv sh okt.

(** The steps all succeed; the loop ends in the final state of the
    scheme, serves every requested time, and serves the last requested
    time, the end of the grid, with that final state. *)
Lemma euler_loop_spec (grid : list Q) :
  forall (s : S) (t0 : Q) (y0 : tensor) (ts : list Q),
    inv s -> has_shape sh y0 ->
    Forall okt (removelast (t0 :: grid)) ->
    strictly_increasing (t0 :: grid) = true ->
    strictly_increasing (t0 :: ts) = true ->
    (ts = [] \/ (grid <> [] /\ (last ts 0 == last grid 0)%Q)) ->
    exists s' y0' yN sols,
      euler_final func s t0 y0 grid = (s', y0', Ok yN) /\
      euler_loop func s t0 y0 grid ts = (s', y0', Ok sols) /\
      inv s' /\ has_shape sh yN /\ has_shape sh y0' /\
      Forall (has_shape sh) sols /\
      length sols = length ts /\
      (ts <> [] -> last sols y0 = yN).
Proof.
  induction grid as [|t1 grid' IH]; intros s t0 y0 ts Hs Hy Hok Hg Hts Hl.
  - destruct Hl as [-> | [Hne _]]; [|contradiction].
    exists s, y0, y0, []. cbn.
    repeat split; auto; try apply Hy.
  - assert (Hok0 : okt t0) by (inversion Hok; assumption).
    destruct (Hreg s t0 y0 Hs Hok0 Hy)
      as (s1 & y0' & f0 & Hf & Hs1 & Hy0' & Hf0).
    destruct (elementwise_ok Rplus sh y0' (scale (Q2R (t1 - t0)) f0) Hy0'
                (tensor_map_has_shape _ sh f0 Hf0)) as [y1 [Hadd Hy1]].
    destruct (fill_solution_spec sh t0 t1 y0' y1 ts Hy0' Hy1)
      as (sols1 & served & rest & Hfill & Ets & Hlen1 & Hsh1 & Hle
          & Hrest & Hlast1).
    apply strictly_increasing_cons in Hg. destruct Hg as [Ht01 Hg'].
    assert (Hrest_inc : strictly_increasing (t1 :: rest) = true).
    { destruct rest as [|r rest']; [reflexivity|].
      apply strictly_increasing_cons. split.
      - exact (Hrest r rest' eq_refl).
      - apply (strictly_increasing_app_r (t0 :: served)).
        simpl. rewrite <- Ets. exact Hts. }
    assert (Hl' : rest = [] \/
                  (grid' <> [] /\ (last rest 0 == last grid' 0)%Q)).
    { destruct rest as [|r rest']; [left; reflexivity|]. right.
      assert (Hts_ne : ts <> []) by (rewrite Ets; destruct served; discriminate).
      destruct Hl as [-> | [_ Hl]]; [contradiction|].
      rewrite Ets, last_app_nonempty in Hl by discriminate.
      pose proof (strictly_increasing_last_lt t1 r 0%Q rest' Hrest_inc)
        as Hgt.
      destruct grid' as [|t2 grid''].
      - simpl last in Hl at 2. lra.
      - split; [discriminate|]. exact Hl. }
    assert (Hok' : Forall okt (removelast (t1 :: grid'))).
    { destruct grid'; [constructor|]. inversion Hok; assumption. }
    destruct (IH s1 t1 y1 rest Hs1 Hy1 Hok' Hg' Hrest_inc Hl')
      as (s2 & y1' & yN & more & Hfin & Hloop & Hs2 & HyN & _ & Hshm
          & Hlenm & Hlastm).
    exists s2, y0', yN, (sols1 ++ more).
    cbn [euler_final euler_loop]. rewrite Hf. cbn [bind].
    unfold add in *. rewrite Hadd, Hfin, Hfill, Hloop. cbn [bind].
    split; [reflexivity|]. split; [reflexivity|].
    split; [exact Hs2|]. split; [exact HyN|]. split; [exact Hy0'|].
    split; [|split].
    + apply Forall_app. split; assumption.
    + rewrite length_app, Hlen1, Hlenm, Ets, length_app. reflexivity.
    + intros Hne. destruct rest as [|r rest'].
      * destruct more; [|discriminate]. rewrite app_nil_r.
        rewrite app_nil_r in Ets. subst served.
        destruct Hl as [-> | [_ Hl]]; [contradiction|].
        assert (Hg_nil : grid' = []).
        { destruct grid' as [|t2 grid'']; [reflexivity|]. exfalso.
          pose proof (strictly_increasing_last_lt t1 t2 0%Q grid'' Hg')
            as Hgt.
          change (last (t1 :: t2 :: grid'') 0%Q)
            with (last (t2 :: grid'') 0%Q) in Hl.
          assert (Hin : (last ts 0 <= t1)%Q).
          { destruct (exists_last Hne) as [pre [e ->]].
            rewrite last_last. apply Forall_app in Hle.
            destruct Hle as [_ Hle]. inversion Hle. assumption. }
          lra. }
        subst grid'. cbn in Hfin. injection Hfin as _ _ <-.
        apply (Hlast1 0%Q y0 eq_refl Hne); [exact Hl | exact Ht01].
      * assert (Hm : more <> []) by (destruct more; discriminate).
        rewrite last_app_nonempty by exact Hm.
        rewrite (last_nonempty more y0 y1 Hm).
        apply Hlastm. discriminate.
Qed.

End EulerScheme.

(** ** Slices of a stacked tensor *)

Lemma row_concat (m i : nat) (ds : list (list R)) :
  Forall (fun d => length d = m) ds -> i < length ds ->
  row m i (concat ds) = nth i ds [].
Proof.
  intros Hds. revert i. induction Hds as [|d ds Hd Hds IH]; intros i Hi.
  - simpl in Hi. lia.
  - unfold row in *. destruct i as [|i]; cbn [concat nth].
    + cbn [Nat.mul skipn]. rewrite firstn_app, <- Hd, firstn_all, Nat.sub_diag.
      cbn [firstn]. apply app_nil_r.
    + replace (S i * m) with (m + i * m) by lia.
      rewrite skipn_app, skipn_all2 by lia.
      rewrite Hd. replace (m + i * m - m) with (i * m) by lia.
      cbn [app]. apply IH. simpl in Hi. lia.
Qed.

Lemma index0_stack (sh : list nat) (l : list tensor) (i : nat) (d : tensor) :
  Forall (has_shape sh) l -> i < length l ->
  index0 (stack sh l) i = Ok (nth i l d).
Proof.
  intros Hl Hi. unfold index0, stack. cbn [shape data].
  replace (i <? length l) with true by (symmetry; apply Nat.ltb_lt; exact Hi).
  rewrite row_concat.
  - assert (Hn : has_shape sh (nth i l d)).
    { apply (proj1 (Forall_forall _ l) Hl). apply nth_In. exact Hi. }
    rewrite (nth_indep (map data l) [] (data d))
      by (rewrite length_map; exact Hi).
    rewrite map_nth.
    destruct (nth i l d) as [s dt']. destruct Hn as [Es _].
    simpl in *. subst s. reflexivity.
  - apply Forall_map. revert Hl. apply Forall_impl. intros y [_ L]. exact L.
  - rewrite length_map. exact Hi.
Qed.

(** ** Time sequences that agree as numbers *)

Lemma Forall2_Qeq_refl (l : list Q) : Forall2 Qeq l l.
Proof. induction l; constructor; [reflexivity | assumption]. Qed.

Lemma Forall2_Qeq_last (l l' : list Q) :
  Forall2 Qeq l l' -> (last l 0 == last l' 0)%Q.
Proof.
  induction 1 as [|a b l l' Hab Hl IH]; [reflexivity|].
  destruct Hl as [|a' b' l l' Hab' Hl]; [exact Hab|]. exact IH.
Qed.

Lemma Forall2_Qeq_removelast (l l' : list Q) :
  Forall2 Qeq l l' -> Forall2 Qeq (removelast l) (removelast l').
Proof.
  induction 1 as [|a b l l' Hab Hl IH]; [constructor|].
  destruct Hl as [|a' b' l l' Hab' Hl]; [constructor|].
  cbn [removelast] in *. constructor; assumption.
Qed.

Lemma set_last_Forall2 (l l' : list Q) (e e' : Q) :
  Forall2 Qeq l l' -> (e == e')%Q ->
  Forall2 Qeq (set_last l e) (set_last l' e').
Proof.
  intros Hl He. unfold set_last.
  destruct Hl as [|a b l l' Hab Hl]; [constructor|].
  apply Forall2_app.
  - apply Forall2_Qeq_removelast. constructor; assumption.
  - constructor; [exact He | constructor].
Qed.

Lemma strictly_increasing_ext (l l' : list Q) :
  Forall2 Qeq l l' -> strictly_increasing l = strictly_increasing l'.
Proof.
  induction 1 as [|a b l l' Hab Hl IH]; [reflexivity|].
  destruct Hl as [|a' b' l l' Hab' Hl]; [reflexivity|].
  cbn [strictly_increasing] in *. rewrite IH. f_equal.
  destruct (Qlt_bool a a') eqn:E.
  - symmetry. apply Qlt_bool_iff. apply Qlt_bool_iff in E.
    rewrite <- Hab, <- Hab'. exact E.
  - destruct (Qlt_bool b b') eqn:E'; [|reflexivity].
    apply Qlt_bool_iff in E'. rewrite <- Hab, <- Hab' in E'.
    apply Qlt_bool_iff in E'. congruence.
Qed.

Lemma in_time_range_ext (l l' : list Q) :
  Forall2 Qeq l l' -> Forall in_time_range l -> Forall in_time_range l'.
Proof.
  induction 1 as [|a b l l' Hab Hl IH]; intros H; [constructor|].
  inversion H as [|? ? [H0 H1] Hr]; subst. constructor; [|auto].
  split; rewrite <- Hab; assumption.
Qed.

Lemma grid_constructor_ext (h : Q) (t t' : list Q) :
  (hd 0 t == hd 0 t')%Q -> (last t 0 == last t' 0)%Q ->
  Forall2 Qeq (grid_constructor h t) (grid_constructor h t').
Proof.
  intros Hh Hl. unfold grid_constructor.
  assert (E : Qceiling ((last t 0 - hd 0 t) / h + 1)%Q
              = Qceiling ((last t' 0 - hd 0 t') / h + 1)%Q).
  { apply Qceiling_comp. rewrite Hh, Hl. reflexivity. }
  rewrite E. apply set_last_Forall2; [|exact Hl].
  generalize (seq 0 (Z.to_nat (Qceiling ((last t' 0 - hd 0 t') / h + 1)%Q))).
  intros l. induction l as [|i l IH]; simpl; constructor; [|exact IH].
  rewrite Hh. reflexivity.
Qed.

Lemma euler_final_ext {S : Type} (func : callable S) (grid grid' : list Q) :
  time_compatible func -> Forall2 Qeq grid grid' ->
  forall s t0 t0' y0, (t0 == t0')%Q ->
    euler_final func s t0 y0 grid = euler_final func s t0' y0 grid'.
Proof.
  intros Hc. induction 1 as [|t1 t1' grid grid' H1 Hg IH];
    intros s t0 t0' y0 H0; [reflexivity|].
  cbn [euler_final]. rewrite (Hc s t0 t0' y0 H0).
  destruct (func s t0' y0) as [[s1 y0'] r].
  assert (E : Q2R (t1 - t0) = Q2R (t1' - t0')).
  { apply Qeq_eqR. rewrite H0, H1. reflexivity. }
  rewrite E.
  destruct (f0 <- r ;; add y0' (scale (Q2R (t1' - t0')) f0)) as [y1|e];
    [|reflexivity].
  rewrite (IH s1 t1 t1' y1 H1). reflexivity.
Qed.

(** The grid over [[0, T]]: sixteen points, queried at the first fifteen,
    all of which have a layer in the bank. *)
Lemma time_grid_facts :
  length time_grid = S time_steps /\
  strictly_increasing time_grid = true /\
  Forall in_time_range (removelast time_grid) /\
  (hd 0 time_grid == 0)%Q /\ (last time_grid 0 == T)%Q.
Proof.
  split; [reflexivity|]. split; [reflexivity|]. split.
  - repeat constructor; unfold Qle; simpl; lia.
  - split; reflexivity.
Qed.

Lemma time_grid_queries :
  Forall in_time_range (removelast (0%Q :: tl time_grid)).
Proof. repeat constructor; unfold Qle; simpl; lia. Qed.

Lemma Forall2_Qeq_sym (l l' : list Q) : Forall2 Qeq l l' -> Forall2 Qeq l' l.
Proof.
  induction 1; constructor; [symmetry; assumption | assumption].
Qed.

(** ** The integrator over [[0, T]] *)

(** For requested times that start at [0] and end at [T], the integrator
    runs the Euler scheme over [time_grid]; it returns one state per
    requested time, the first being the initial state and the last the
    final state of the scheme. *)
Lemma odeint_spec {S : Type} (func : callable S) (inv : S -> Prop)
    (sh : list nat) :
  regular func inv sh in_time_range -> time_compatible func ->
  forall (s : S) (y0 : tensor) (t_first : Q) (ts : list Q),
    inv s -> has_shape sh y0 ->
    strictly_increasing (t_first :: ts) = true ->
    (t_first == 0)%Q -> ts <> [] -> (last ts 0 == T)%Q ->
    exists s' y0' yN sols,
      euler_final func s 0%Q y0 (tl time_grid) = (s', y0', Ok yN) /\
      odeint func s y0 (t_first :: ts) dt
      = (s', y0', Ok (stack sh (y0 :: sols))) /\
      inv s' /\ has_shape sh yN /\ has_shape sh y0' /\
      Forall (has_shape sh) sols /\
      length sols = length ts /\ last sols y0 = yN.
Proof.
  intros Hreg Hc s y0 t_first ts Hs Hy Hinc Hfirst Hne Hlast.
  destruct time_grid_facts as (_ & Hginc & Hgok & Hghd & Hglast).
  assert (Elast : last (t_first :: ts) 0%Q = last ts 0%Q).
  { destruct ts; [contradiction | reflexivity]. }
  assert (HG : Forall2 Qeq (grid_constructor dt (t_first :: ts)) time_grid).
  { apply grid_constructor_ext.
    - exact Hfirst.
    - rewrite Elast. exact Hlast. }
  assert (Etg : time_grid = hd 0%Q time_grid :: tl time_grid) by reflexivity.
  assert (Htl : tl time_grid <> []) by discriminate.
  unfold odeint. rewrite Hinc. cbn [negb].
  destruct (grid_constructor dt (t_first :: ts)) as [|g0 grid] eqn:EG.
  { rewrite Etg in HG. inversion HG. }
  assert (Hg0 : (g0 == 0)%Q).
  { rewrite Etg in HG. inversion HG; subst. rewrite <- Hghd. assumption. }
  assert (Hgrid : Forall2 Qeq grid (tl time_grid)).
  { rewrite Etg in HG. inversion HG; subst. assumption. }
  assert (Hgrid_ne : grid <> []).
  { intros ->. inversion Hgrid. }
  assert (Hlastg : (last (g0 :: grid) 0 == T)%Q).
  { rewrite (Forall2_Qeq_last _ _ HG). exact Hglast. }
  rewrite (Qeq_bool_true g0 t_first) by (rewrite Hg0, Hfirst; reflexivity).
  rewrite (Qeq_bool_true (last (g0 :: grid) 0%Q) (last (t_first :: ts) 0%Q))
    by (rewrite Elast, Hlastg, Hlast; reflexivity).
  cbn [andb].
  destruct (euler_loop_spec S func inv sh in_time_range Hreg grid s g0 y0 ts
              Hs Hy) as (s' & y0' & yN & sols & Hfin & Hloop & Hs' & HyN
                         & Hy0' & Hsols & Hlen & Hl).
  - apply (in_time_range_ext (removelast time_grid)); [|exact Hgok].
    apply Forall2_Qeq_removelast, Forall2_Qeq_sym. exact HG.
  - rewrite (strictly_increasing_ext _ _ HG). exact Hginc.
  - rewrite (strictly_increasing_ext (g0 :: ts) (t_first :: ts)); [exact Hinc|].
    constructor; [rewrite Hg0, Hfirst; reflexivity | apply Forall2_Qeq_refl].
  - right. split; [exact Hgrid_ne|].
    rewrite Hlast, <- Hlastg. destruct grid; [contradiction | reflexivity].
  - exists s', y0', yN, sols. rewrite Hloop. cbn [bind].
    rewrite <- (euler_final_ext func grid (tl time_grid) Hc Hgrid s g0 0%Q y0
                  Hg0).
    rewrite (proj1 Hy).
    repeat split; try assumption; try apply HyN; try apply Hy0'.
    apply Hl. exact Hne.
Qed.

(** ** The evaluation grid of [trajectory] *)

Lemma strictly_increasing_map_seq (f : nat -> Q) (a k : nat) :
  (forall i, (f i < f (S i))%Q) ->
  strictly_increasing (map f (seq a k)) = true.
Proof.
  intros Hf. revert a. induction k as [|k IH]; intros a; [reflexivity|].
  destruct k as [|k]; [reflexivity|].
  change (strictly_increasing (f a :: f (S a) :: map f (seq (S (S a)) k))
          = true).
  apply strictly_increasing_cons. split; [apply Hf|]. exact (IH (S a)).
Qed.

Lemma linspace_nth (start stop : Q) (n i : nat) :
  2 <= n -> i < n ->
  nth i (linspace start stop n) 0%Q
  = (start + inject_Z (Z.of_nat i)
             * ((stop - start) / inject_Z (Z.of_nat (n - 1))))%Q.
Proof.
  intros Hn Hi. unfold linspace.
  destruct n as [|[|m]]; try lia.
  set (f := fun i => (start + inject_Z (Z.of_nat i)
                      * ((stop - start)
                         / inject_Z (Z.of_nat (S (S m) - 1))))%Q).
  rewrite (nth_indep _ 0%Q (f 0)) by (rewrite length_map, length_seq; exact Hi).
  rewrite map_nth, seq_nth by exact Hi. reflexivity.
Qed.

Lemma linspace_length (start stop : Q) (n : nat) :
  length (linspace start stop n) = n.
Proof.
  unfold linspace. destruct n as [|[|m]]; try reflexivity.
  rewrite length_map, length_seq. reflexivity.
Qed.

(** For [n >= 2] the grid has [n] points [i * T / (n - 1)]: it starts at
    [0], ends at [T], is equally spaced and strictly increasing. *)
Lemma linspace_0_T (n : nat) :
  2 <= n ->
  exists t_first ts,
    linspace 0 T n = t_first :: ts /\ ts <> [] /\
    length (linspace 0 T n) = n /\
    strictly_increasing (linspace 0 T n) = true /\
    (t_first == 0)%Q /\ (last ts 0 == T)%Q /\
    (forall i, i < n ->
       (nth i (linspace 0 T n) 0
        == inject_Z (Z.of_nat i) * (T / inject_Z (Z.of_nat (n - 1))))%Q).
Proof.
  intros Hn.
  assert (Hnth : forall i, i < n ->
             (nth i (linspace 0 T n) 0
              == inject_Z (Z.of_nat i)
                 * (T / inject_Z (Z.of_nat (n - 1))))%Q).
  { intros i Hi. rewrite linspace_nth by assumption.
    unfold Qminus. rewrite Qplus_0_l.
    setoid_replace (T + - 0)%Q with T by ring. reflexivity. }
  assert (Hpos : (0 < inject_Z (Z.of_nat (n - 1)))%Q).
  { change 0%Q with (inject_Z 0). rewrite <- Zlt_Qlt. lia. }
  assert (Hstep : (0 < T / inject_Z (Z.of_nat (n - 1)))%Q).
  { apply Qlt_shift_div_l; [exact Hpos|]. unfold T. lra. }
  pose proof (linspace_length 0 T n) as Hlen.
  destruct (linspace 0 T n) as [|t_first [|t2 ts]] eqn:E;
    try (simpl in Hlen; lia).
  exists t_first, (t2 :: ts).
  split; [reflexivity|]. split; [discriminate|]. split; [exact Hlen|].
  split; [|split; [|split; [|exact Hnth]]].
  - rewrite <- E. unfold linspace. destruct n as [|[|m]]; try lia.
    apply strictly_increasing_map_seq. intros i.
    change (S (S m) - 1) with (S m) in *.
    assert (Hst : ((T - 0) / inject_Z (Z.of_nat (S m))
                   == T / inject_Z (Z.of_nat (S m)))%Q).
    { unfold Qminus. setoid_replace (T + - 0)%Q with T by ring. reflexivity. }
    rewrite Hst. set (st := (T / inject_Z (Z.of_nat (S m)))%Q) in *.
    assert (Hi : (inject_Z (Z.of_nat (S i)) == inject_Z (Z.of_nat i) + 1)%Q).
    { rewrite Nat2Z.inj_succ, <- Z.add_1_r, inject_Z_plus. reflexivity. }
    rewrite Hi. generalize (inject_Z (Z.of_nat i)). intros a.
    setoid_replace ((a + 1) * st)%Q with (a * st + st)%Q by ring.
    lra.
  - rewrite (Hnth 0) by lia. simpl. ring.
  - replace (last (t2 :: ts) 0%Q) with (nth (n - 1) (t_first :: t2 :: ts) 0%Q).
    + rewrite Hnth by lia. field. lra.
    + simpl in Hlen. subst n.
      replace (S (S (length ts)) - 1) with (S (length ts)) by lia.
      change (nth (S (length ts)) (t_first :: t2 :: ts) 0%Q)
        with (nth (length ts) (t2 :: ts) 0%Q).
      clear. revert t2. induction ts as [|a ts IH]; intros t2; [reflexivity|].
      change (nth (length (a :: ts)) (t2 :: a :: ts) 0%Q)
        with (nth (length ts) (a :: ts) 0%Q).
      rewrite IH. reflexivity.
Qed.

(** ** Integration by [Semiflow] *)

(** With a constructed [Dynamics] and an initial state whose last axis has
    the size of the hidden layers, both forms of [Semiflow.forward]
    succeed for requested times from [0] to [T]: the full result stacks
    the initial state and one state per further requested time, the
    terminal result is the final state of the Euler scheme, and the last
    requested state is that final state too. *)
Lemma Semiflow_forward_runs (hd : nat) (theta : initializer)
    (lead : list nat) (self : Semiflow) (x x_aug : tensor) (t_first : Q)
    (ts : list Q) :
  constructed hd theta (dynamics self) ->
  augment (set_nfe (dynamics self) 0) x = Ok x_aug ->
  has_shape (lead ++ [hd]) x_aug ->
  strictly_increasing (t_first :: ts) = true ->
  (t_first == 0)%Q -> ts <> [] -> (last ts 0 == T)%Q ->
  exists d' y0' yN sols,
    euler_final Dynamics_forward (set_nfe (dynamics self) 0) 0%Q x_aug
                (tl time_grid) = (d', y0', Ok yN) /\
    Semiflow_forward self x (Some (t_first :: ts))
    = (set_dynamics self d',
       (if 0 <? augment_dim (dynamics self) then x else y0'),
       Ok (stack (lead ++ [hd]) (x_aug :: sols))) /\
    Semiflow_forward self x None
    = (set_dynamics self d',
       (if 0 <? augment_dim (dynamics self) then x else y0'),
       Ok yN) /\
    constructed hd theta d' /\ same_model (dynamics self) d' /\
    has_shape (lead ++ [hd]) y0' /\
    has_shape (lead ++ [hd]) yN /\
    Forall (has_shape (lead ++ [hd])) sols /\
    length sols = length ts /\ last sols x_aug = yN.
Proof.
  intros Hd Haug Hx Hinc Hfirst Hne Hlast.
  assert (Hd0 : constructed hd theta (set_nfe (dynamics self) 0) /\
                same_model (dynamics self) (set_nfe (dynamics self) 0)).
  { split; [apply constructed_set_nfe; exact Hd | exists 0; reflexivity]. }
  pose proof (Dynamics_forward_regular hd theta lead (dynamics self)) as Hreg.
  pose proof Dynamics_forward_time_compatible as Hc.
  destruct (odeint_spec Dynamics_forward _ _ Hreg Hc _ x_aug t_first ts
              Hd0 Hx Hinc Hfirst Hne Hlast)
    as (d' & y0' & yN & sols & Hfin & Hode & Hd' & HyN & Hy0' & Hsols
        & Hlen & Hl).
  destruct (odeint_spec Dynamics_forward _ _ Hreg Hc _ x_aug 0%Q [T]
              Hd0 Hx eq_refl (Qeq_refl 0) ltac:(discriminate) (Qeq_refl T))
    as (d2 & y02 & yN2 & sols2 & Hfin2 & Hode2 & _ & _ & _ & Hsols2
        & Hlen2 & Hl2).
  rewrite Hfin in Hfin2. injection Hfin2 as <- <- <-.
  assert (Es2 : sols2 = [yN]).
  { destruct sols2 as [|v [|? ?]]; try discriminate. simpl in Hl2.
    subst v. reflexivity. }
  subst sols2.
  exists d', y0', yN, sols.
  split; [exact Hfin|]. unfold Semiflow_forward. rewrite Haug.
  cbn [augment_dim set_nfe].
  split; [|split].
  - destruct (adjoint self); unfold odeint_adjoint; rewrite Hode; reflexivity.
  - destruct (adjoint self); unfold odeint_adjoint; rewrite Hode2;
      cbn [bind];
      rewrite (index0_stack (lead ++ [hd]) [x_aug; yN] 1 x_aug)
        by (auto; repeat constructor; try apply Hx; apply HyN);
      reflexivity.
  - split; [apply Hd'|]. split; [apply Hd'|].
    split; [exact Hy0'|]. split; [exact HyN|].
    split; [exact Hsols|]. split; [exact Hlen | exact Hl].
Qed.

(** ** Trajectories *)

(** C6 (for [n >= 2]).  [Semiflow.trajectory(x, n)] evaluates on the grid
    of the [n] points [i * T / (n - 1)], strictly increasing from [0] to
    [T], and returns a tensor of [n] states in that order; the first is
    the (augmented) input and the last is what
    [Semiflow.forward(x, eval_times=None)] returns.  Both calls leave the
    same object and the same content in [x]. *)
Theorem Semiflow_trajectory_states (hd : nat) (theta : initializer)
    (lead : list nat) (self : Semiflow) (x x_aug : tensor) (n : nat) :
  constructed hd theta (dynamics self) ->
  augment (set_nfe (dynamics self) 0) x = Ok x_aug ->
  has_shape (lead ++ [hd]) x_aug ->
  2 <= n ->
  exists self' x' traj terminal,
    Semiflow_trajectory self x n = (self', x', Ok traj) /\
    Semiflow_forward self x None = (self', x', Ok terminal) /\
    length (linspace 0 T n) = n /\
    strictly_increasing (linspace 0 T n) = true /\
    (forall i, i < n ->
       (nth i (linspace 0 T n) 0
        == inject_Z (Z.of_nat i) * (T / inject_Z (Z.of_nat (n - 1))))%Q) /\
    has_shape (n :: lead ++ [hd]) traj /\
    index0 traj 0 = Ok x_aug /\
    index0 traj (n - 1) = Ok terminal.
Proof.
  intros Hd Haug Hx Hn.
  destruct (linspace_0_T n Hn)
    as (t_first & ts & Elin & Hne & Hlen & Hinc & Hfirst & Hlast & Hnth).
  rewrite Elin in Hinc.
  destruct (Semiflow_forward_runs hd theta lead self x x_aug t_first ts
              Hd Haug Hx Hinc Hfirst Hne Hlast)
    as (d' & y0' & yN & sols & _ & Htraj & Hterm & _ & _ & _ & HyN & Hsols
        & Hlens & Hl).
  exists (set_dynamics self d'),
    (if 0 <? augment_dim (dynamics self) then x else y0'),
    (stack (lead ++ [hd]) (x_aug :: sols)), yN.
  assert (Hall : Forall (has_shape (lead ++ [hd])) (x_aug :: sols))
    by (constructor; assumption).
  assert (Hcount : length (x_aug :: sols) = n).
  { simpl. rewrite Hlens. rewrite Elin in Hlen. simpl in Hlen. exact Hlen. }
  unfold Semiflow_trajectory. rewrite Elin, Htraj, Hterm, <- Elin.
  repeat split; try assumption.
  - rewrite Elin. exact Hinc.
  - unfold stack. cbn [shape]. rewrite Hcount. reflexivity.
  - unfold stack. cbn [data shape].
    rewrite length_concat.
    assert (E : map (@length R) (map data (x_aug :: sols))
                = repeat (numel (lead ++ [hd])) (length (x_aug :: sols))).
    { clear - Hall. induction Hall as [|y l [_ Hy] _ IH]; [reflexivity|].
      simpl. rewrite Hy. f_equal. exact IH. }
    rewrite E, Hcount.
    change (numel (n :: lead ++ [hd])) with (n * numel (lead ++ [hd])).
    generalize (numel (lead ++ [hd])). intros m. clear.
    induction n; simpl; [reflexivity|]. rewrite IHn. reflexivity.
  - rewrite (index0_stack _ _ 0 x_aug Hall) by (rewrite Hcount; lia).
    reflexivity.
  - rewrite (index0_stack _ _ (n - 1) x_aug Hall) by (rewrite Hcount; lia).
    f_equal. rewrite <- Hl.
    assert (Hs : sols <> []).
    { destruct sols; [|discriminate]. destruct ts; [contradiction|].
      discriminate. }
    replace (n - 1) with (length sols) by (simpl in Hcount; lia).
    clear - Hs. revert x_aug. induction sols as [|a sols IH]; intros x_aug;
      [contradiction|].
    destruct sols as [|b sols]; [reflexivity|].
    change (nth (length (b :: sols)) (a :: b :: sols) x_aug
            = last (b :: sols) x_aug).
    rewrite (last_nonempty (b :: sols) x_aug a) by discriminate.
    rewrite <- IH by discriminate.
    apply nth_indep. simpl. lia.
Qed.

(** ** Layers with zero weights *)

Lemma nth_all_zero (l : list R) (i : nat) :
  Forall (eq 0%R) l -> nth i l 0%R = 0%R.
Proof.
  intros H. destruct (nth_in_or_default i l 0%R) as [Hin|E]; [|exact E].
  symmetry. exact (proj1 (Forall_forall _ l) H _ Hin).
Qed.

Lemma dot_zero_r (u v : list R) : Forall (eq 0%R) v -> dot u v = 0%R.
Proof.
  intros Hv. revert u. induction Hv as [|b v <- Hv IH]; intros [|a u];
    simpl; try reflexivity.
  rewrite IH. lra.
Qed.

Lemma skipn_nth_cons (l : list R) (i : nat) :
  i < length l -> skipn i l = nth i l 0%R :: skipn (S i) l.
Proof.
  revert i. induction l as [|a l IH]; intros i Hi; [simpl in Hi; lia|].
  destruct i as [|i]; [reflexivity|].
  change (skipn i l = nth i l 0%R :: skipn (S i) l).
  apply IH. simpl in Hi. lia.
Qed.

Lemma broadcast_last_app (f : R -> R -> R) (k i : nat) (u u' v : list R) :
  broadcast_last f k i (u ++ u') v
  = broadcast_last f k i u v ++ broadcast_last f k (i + length u) u' v.
Proof.
  revert i. induction u as [|a u IH]; intros i; simpl.
  - rewrite Nat.add_0_r. reflexivity.
  - rewrite IH. replace (S i + length u) with (i + S (length u)) by lia.
    reflexivity.
Qed.

Lemma broadcast_last_shift (f : R -> R -> R) (k i q : nat) (u v : list R) :
  broadcast_last f k (i + q * k) u v = broadcast_last f k i u v.
Proof.
  revert i. induction u as [|a u IH]; intros i; simpl; [reflexivity|].
  rewrite Nat.Div0.mod_add. f_equal.
  change (S (i + q * k)) with (S i + q * k). apply IH.
Qed.

Lemma broadcast_last_zero_r (k i : nat) (u v : list R) :
  Forall (eq 0%R) v -> broadcast_last Rplus k i u v = u.
Proof.
  intros Hv. revert i. induction u as [|a u IH]; intros i; simpl;
    [reflexivity|].
  rewrite (nth_all_zero v _ Hv), IH. f_equal. lra.
Qed.

Lemma broadcast_last_zero_l (k i m : nat) (v : list R) :
  length v = k -> i + m <= k ->
  broadcast_last Rplus k i (repeat 0%R m) v = firstn m (skipn i v).
Proof.
  intros Hv. revert i. induction m as [|m IH]; intros i Hi; simpl;
    [reflexivity|].
  rewrite Nat.mod_small by lia.
  rewrite (skipn_nth_cons v i) by lia. cbn [firstn].
  rewrite IH by lia. f_equal. lra.
Qed.

(** A bias vector added to a tensor of zeros: the bias, once per row. *)
Lemma broadcast_last_bias (c : nat) (v : list R) :
  broadcast_last Rplus (length v) 0 (repeat 0%R (c * length v)) v
  = concat (repeat v c).
Proof.
  induction c as [|c IH]; [reflexivity|].
  cbn [Nat.mul repeat concat]. rewrite repeat_app, broadcast_last_app.
  rewrite broadcast_last_zero_l by lia.
  cbn [skipn]. rewrite firstn_all. f_equal.
  rewrite repeat_length.
  rewrite <- (broadcast_last_shift Rplus (length v) 0 1) in IH.
  cbn [Nat.mul Nat.add] in IH. rewrite Nat.add_0_r in IH. exact IH.
Qed.

Lemma matmul_zero (x m : tensor) (lead : list nat) (n p : nat) :
  shape m = [n; p] -> Forall (eq 0%R) (data m) -> shape x = lead ++ [n] ->
  matmul x m = Ok (zeros (lead ++ [p])).
Proof.
  intros Em Hz Ex. rewrite (matmul_ok _ _ _ _ _ Em Ex). unfold zeros.
  f_equal. f_equal.
  set (D := flat_map _ _).
  assert (Hall : Forall (eq 0%R) D).
  { apply Forall_flat_map, Forall_forall. intros i _.
    apply Forall_map, Forall_forall. intros j _. symmetry.
    apply dot_zero_r. unfold column.
    apply Forall_map, Forall_forall. intros i' _. symmetry.
    apply nth_all_zero. exact Hz. }
  transitivity (repeat 0%R (length D)); [exact (Forall_eq_repeat Hall)|].
  f_equal. unfold D.
  rewrite (flat_map_length_const _ _ p)
    by (intros; rewrite length_map, length_seq; reflexivity).
  rewrite length_seq, numel_app. simpl. lia.
Qed.

Lemma nn_Linear_zero_weight_t (inf outf : nat) (w : nat -> nat -> R)
    (b : nat -> R) :
  (forall i j, w i j = 0%R) ->
  exists wt,
    tensor_t (weight (nn_Linear inf outf w b)) = Ok wt /\
    shape wt = [inf; outf] /\ Forall (eq 0%R) (data wt).
Proof.
  intros Hw. eexists. split; [reflexivity|]. split; [reflexivity|].
  cbn [data shape weight nn_Linear].
  apply Forall_flat_map, Forall_forall. intros j _.
  apply Forall_map, Forall_forall. intros i _. symmetry.
  apply nth_all_zero.
  apply Forall_flat_map, Forall_forall. intros i' _.
  apply Forall_map, Forall_forall. intros j' _. symmetry. apply Hw.
Qed.

(** With zero weights a layer returns its bias, once per row. *)
Lemma Linear_forward_zero_weight (inf outf : nat) (w : nat -> nat -> R)
    (b : nat -> R) (x : tensor) (lead : list nat) :
  (forall i j, w i j = 0%R) -> shape x = lead ++ [inf] ->
  Linear_forward (nn_Linear inf outf w b) x
  = Ok (mkTensor (lead ++ [outf])
          (concat (repeat (map b (seq 0 outf)) (numel lead)))).
Proof.
  intros Hw Ex. unfold Linear_forward.
  destruct (nn_Linear_zero_weight_t inf outf w b Hw) as [wt [-> [Ewt Hz]]].
  cbn [bind]. rewrite (matmul_zero x wt lead inf outf Ewt Hz Ex).
  cbn [bind]. unfold add.
  rewrite (elementwise_bias Rplus lead outf) by reflexivity.
  cbn [shape data zeros bias nn_Linear]. f_equal. f_equal.
  rewrite numel_app. cbn [numel fold_right]. rewrite Nat.mul_1_r.
  pose proof (broadcast_last_bias (numel lead) (map b (seq 0 outf))) as H.
  rewrite length_map, length_seq in H. exact H.
Qed.

(** With zero weights and zero bias it returns zeros. *)
Lemma Linear_forward_zero (inf outf : nat) (w : nat -> nat -> R)
    (b : nat -> R) (x : tensor) (lead : list nat) :
  (forall i j, w i j = 0%R) -> (forall i, b i = 0%R) ->
  shape x = lead ++ [inf] ->
  Linear_forward (nn_Linear inf outf w b) x = Ok (zeros (lead ++ [outf])).
Proof.
  intros Hw Hb Ex. rewrite (Linear_forward_zero_weight _ _ _ _ _ lead Hw Ex).
  unfold zeros. f_equal. f_equal.
  set (D := concat _).
  assert (Hall : Forall (eq 0%R) D).
  { apply Forall_concat, Forall_forall. intros v Hv.
    apply repeat_spec in Hv. subst v.
    apply Forall_map, Forall_forall. intros i _. symmetry. apply Hb. }
  transitivity (repeat 0%R (length D)); [exact (Forall_eq_repeat Hall)|].
  f_equal. unfold D. rewrite length_concat, map_repeat, length_map, length_seq.
  rewrite numel_app. cbn [numel fold_right]. rewrite Nat.mul_1_r.
  generalize (numel lead). intros c.
  induction c; simpl; [reflexivity|]. rewrite IHc. reflexivity.
Qed.

(** ** The zero vector field *)

Lemma add_scaled_zeros (sh : list nat) (c : R) (y : tensor) :
  has_shape sh y -> add y (scale c (zeros sh)) = Ok y.
Proof.
  intros [E L]. unfold add.
  rewrite elementwise_same_shape by (simpl; congruence).
  rewrite broadcast_last_zero_r.
  - destruct y. reflexivity.
  - unfold scale, zeros, tensor_map. cbn [data].
    apply Forall_map, Forall_forall. intros v Hv.
    apply repeat_spec in Hv. subst v. lra.
Qed.

Lemma euler_final_zero_field {S : Type} (func : callable S)
    (inv : S -> Prop) (sh : list nat) (okt : Q -> Prop) (grid : list Q) :
  zero_field func inv sh okt ->
  forall s t0 y0,
    inv s -> has_shape sh y0 -> Forall okt (removelast (t0 :: grid)) ->
    exists s', euler_final func s t0 y0 grid = (s', y0, Ok y0) /\ inv s'.
Proof.
  intros Hz. induction grid as [|t1 grid IH]; intros s t0 y0 Hs Hy Hok.
  - exists s. split; [reflexivity | exact Hs].
  - assert (Hok0 : okt t0) by (inversion Hok; assumption).
    assert (Hok' : Forall okt (removelast (t1 :: grid))).
    { destruct grid; [constructor|]. inversion Hok; assumption. }
    destruct (Hz s t0 y0 Hs Hok0 Hy) as [s1 [Hf Hs1]].
    destruct (IH s1 t1 y0 Hs1 Hy Hok') as [s2 [Hfin Hs2]].
    exists s2. cbn [euler_final]. rewrite Hf. cbn [bind].
    rewrite (add_scaled_zeros sh _ y0 Hy), Hfin.
    split; [reflexivity | exact Hs2].
Qed.

Lemma Dynamics_forward_zero_bank (hd : nat) (theta : initializer)
    (lead : list nat) (d : Dynamics) (t : Q) (x : tensor) :
  constructed hd theta d -> zero_bank theta -> in_time_range t ->
  shape x = lead ++ [hd] ->
  Dynamics_forward d t x
  = (set_nfe d (nfe d + 1), fst (activation_call (non_linearity d) x),
     Ok (zeros (lead ++ [hd]))).
Proof.
  intros Hd [Hw Hb] Ht Ex.
  rewrite (Dynamics_forward_in_range hd theta d t x Hd Ht).
  rewrite (Linear_forward_zero hd hd _ _ _ lead); auto.
  unfold activation_call. destruct (is_inplace _); exact Ex.
Qed.

Lemma Dynamics_forward_zero_field (hd : nat) (theta : initializer)
    (lead : list nat) :
  zero_bank theta ->
  zero_field Dynamics_forward
    (fun d => constructed hd theta d /\ is_inplace (non_linearity d) = false)
    (lead ++ [hd]) in_time_range.
Proof.
  intros Hz d t y [Hd Hin] Ht Hy.
  exists (set_nfe d (nfe d + 1)).
  rewrite (Dynamics_forward_zero_bank hd theta lead d t y Hd Hz Ht (proj1 Hy)).
  rewrite (activation_call_not_inplace _ _ Hin).
  split; [reflexivity|]. split; [apply Hd | exact Hin].
Qed.

(** With a zero bank and an activation that is not in place, integration
    returns the initial state and leaves the input as it was. *)
Lemma Semiflow_forward_zero_bank (hd : nat) (theta : initializer)
    (lead : list nat) (self : Semiflow) (x x_aug : tensor) :
  constructed hd theta (dynamics self) -> zero_bank theta ->
  is_inplace (non_linearity (dynamics self)) = false ->
  augment (set_nfe (dynamics self) 0) x = Ok x_aug ->
  has_shape (lead ++ [hd]) x_aug ->
  exists d',
    Semiflow_forward self x None = (set_dynamics self d', x, Ok x_aug) /\
    constructed hd theta d' /\ same_model (dynamics self) d'.
Proof.
  intros Hd Hz Hin Haug Hx.
  destruct (Semiflow_forward_runs hd theta lead self x x_aug 0%Q [T]
              Hd Haug Hx eq_refl (Qeq_refl 0) ltac:(discriminate) (Qeq_refl T))
    as (d' & y0' & yN & sols & Hfin & _ & Hterm & Hd' & Hsame & _).
  destruct (euler_final_zero_field Dynamics_forward _ _ _ (tl time_grid)
              (Dynamics_forward_zero_field hd theta lead Hz)
              (set_nfe (dynamics self) 0) 0%Q x_aug
              (conj (constructed_set_nfe hd theta _ 0 Hd) Hin) Hx
              time_grid_queries)
    as [d2 [Hfin2 _]].
  rewrite Hfin in Hfin2. injection Hfin2 as -> -> ->.
  exists d2. rewrite Hterm.
  split; [|split; assumption].
  destruct (0 <? augment_dim (dynamics self)) eqn:Ea; [reflexivity|].
  unfold augment in Haug. cbn [augment_dim set_nfe] in Haug.
  rewrite Ea in Haug. injection Haug as ->. reflexivity.
Qed.

(** ** Layers on stacked tensors *)

Lemma row_app_l (n i : nat) (d rest : list R) :
  i * n + n <= length d -> row n i (d ++ rest) = row n i d.
Proof.
  intros H. unfold row.
  rewrite skipn_app, firstn_app, length_skipn.
  replace (i * n - length d) with 0 by lia.
  replace (n - (length d - i * n)) with 0 by lia.
  cbn [skipn firstn]. apply app_nil_r.
Qed.

Lemma row_app_r (n c i : nat) (d rest : list R) :
  length d = c * n -> row n (c + i) (d ++ rest) = row n i rest.
Proof.
  intros H. unfold row.
  rewrite skipn_app, skipn_all2 by nia.
  replace ((c + i) * n - length d) with (i * n) by nia.
  reflexivity.
Qed.

Lemma seq_add_map (c a m : nat) : seq (c + a) m = map (Nat.add c) (seq a m).
Proof.
  revert a. induction m as [|m IH]; intros a; [reflexivity|].
  cbn [seq map]. f_equal. rewrite <- IH. f_equal. lia.
Qed.

Lemma flat_map_rows_concat {B : Type} (h : list R -> list B) (n c : nat)
    (ds : list (list R)) :
  Forall (fun d => length d = c * n) ds ->
  flat_map (fun i => h (row n i (concat ds))) (seq 0 (length ds * c))
  = concat (map (fun d => flat_map (fun i => h (row n i d)) (seq 0 c)) ds).
Proof.
  induction 1 as [|d ds Hd Hds IH]; [reflexivity|].
  cbn [length Nat.mul concat map]. rewrite seq_app, flat_map_app.
  f_equal.
  - rewrite !flat_map_concat_map. f_equal. apply map_ext_in.
    intros i Hi. apply in_seq in Hi. rewrite row_app_l by nia. reflexivity.
  - rewrite <- IH. cbn [Nat.add].
    replace c with (c + 0) at 1 by lia.
    rewrite seq_add_map, !flat_map_concat_map, map_map. f_equal.
    apply map_ext. intros i. rewrite (row_app_r n c i d _ Hd). reflexivity.
Qed.

Lemma matmul_stack (m : tensor) (lead : list nat) (n p : nat)
    (ys : list tensor) :
  shape m = [n; p] -> Forall (has_shape (lead ++ [n])) ys ->
  exists zs,
    Forall2 (fun y z => matmul y m = Ok z) ys zs /\
    Forall (has_shape (lead ++ [p])) zs /\
    matmul (stack (lead ++ [n]) ys) m = Ok (stack (lead ++ [p]) zs).
Proof.
  intros Em Hys.
  set (h := fun r : list R => map (fun j => dot r (column m n p j)) (seq 0 p)).
  exists (map (fun y => mkTensor (lead ++ [p])
                         (flat_map (fun i => h (row n i (data y)))
                                   (seq 0 (numel lead)))) ys).
  split; [|split].
  - induction Hys as [|y ys [Ey _] _ IH]; constructor; [|exact IH].
    rewrite (matmul_ok y m lead n p Em Ey). reflexivity.
  - apply Forall_map. revert Hys. apply Forall_impl. intros y _.
    split; [reflexivity|]. cbn [data].
    rewrite (flat_map_length_const _ _ p)
      by (intros; unfold h; rewrite length_map, length_seq; reflexivity).
    rewrite length_seq, numel_app. simpl. lia.
  - rewrite (matmul_ok _ m (length ys :: lead) n p Em) by reflexivity.
    unfold stack. rewrite length_map. f_equal. f_equal.
    cbn [data numel fold_right]. fold (numel lead).
    rewrite <- (length_map data ys).
    change (flat_map (fun i => h (row n i (concat (map data ys))))
                     (seq 0 (length (map data ys) * numel lead))
            = concat (map data
                (map (fun y => mkTensor (lead ++ [p])
                        (flat_map (fun i => h (row n i (data y)))
                                  (seq 0 (numel lead)))) ys))).
    rewrite (flat_map_rows_concat h n (numel lead)).
    + rewrite !map_map. reflexivity.
    + apply Forall_map. revert Hys. apply Forall_impl. intros y [_ L].
      rewrite L, numel_app. simpl. lia.
Qed.

Lemma broadcast_last_concat (f : R -> R -> R) (p c : nat)
    (ds : list (list R)) (v : list R) :
  Forall (fun d => length d = c * p) ds ->
  broadcast_last f p 0 (concat ds) v
  = concat (map (fun d => broadcast_last f p 0 d v) ds).
Proof.
  induction 1 as [|d ds Hd Hds IH]; [reflexivity|].
  cbn [concat map]. rewrite broadcast_last_app. f_equal.
  rewrite Hd, broadcast_last_shift. exact IH.
Qed.

Lemma add_bias_stack (b : tensor) (lead : list nat) (p : nat)
    (zs : list tensor) :
  shape b = [p] -> Forall (has_shape (lead ++ [p])) zs ->
  exists ws,
    Forall2 (fun z w => add z b = Ok w) zs ws /\
    Forall (has_shape (lead ++ [p])) ws /\
    add (stack (lead ++ [p]) zs) b = Ok (stack (lead ++ [p]) ws).
Proof.
  intros Eb Hzs.
  exists (map (fun z => mkTensor (lead ++ [p])
                         (broadcast_last Rplus p 0 (data z) (data b))) zs).
  split; [|split].
  - induction Hzs as [|z zs [Ez _] _ IH]; constructor; [|exact IH].
    unfold add. rewrite (elementwise_bias Rplus lead p z b Ez Eb), Ez.
    reflexivity.
  - apply Forall_map. revert Hzs. apply Forall_impl. intros z [_ L].
    split; [reflexivity|]. cbn [data]. rewrite broadcast_last_length.
    exact L.
  - unfold add.
    rewrite (elementwise_bias Rplus (length zs :: lead) p _ b) by
      (try reflexivity; exact Eb).
    unfold stack. rewrite length_map. cbn [shape data]. f_equal. f_equal.
    rewrite (broadcast_last_concat Rplus p (numel lead)).
    + rewrite !map_map. reflexivity.
    + apply Forall_map. revert Hzs. apply Forall_impl. intros z [_ L].
      rewrite L, numel_app. simpl. lia.
Qed.

(** A layer applied to a stack of tensors is the stack of the layer
    applied to each of them. *)
Lemma Linear_forward_stack (inf outf : nat) (w : nat -> nat -> R)
    (b : nat -> R) (lead : list nat) (ys : list tensor) :
  Forall (has_shape (lead ++ [inf])) ys ->
  exists ws,
    Forall2 (fun y v => Linear_forward (nn_Linear inf outf w b) y = Ok v)
            ys ws /\
    Forall (has_shape (lead ++ [outf])) ws /\
    Linear_forward (nn_Linear inf outf w b) (stack (lead ++ [inf]) ys)
    = Ok (stack (lead ++ [outf]) ws).
Proof.
  intros Hys. unfold Linear_forward.
  destruct (nn_Linear_t inf outf w b) as [wt [-> Ewt]]. cbn [bind].
  destruct (matmul_stack wt lead inf outf ys Ewt Hys)
    as (zs & Hzs & Hshz & ->).
  destruct (add_bias_stack (bias (nn_Linear inf outf w b)) lead outf zs
              eq_refl Hshz) as (ws & Hws & Hshw & Hadd).
  exists ws. cbn [bind]. split; [|split; [exact Hshw | exact Hadd]].
  clear - Hzs Hws. revert ws Hws.
  induction Hzs as [|y z ys zs Hy _ IH]; intros ws Hws;
    inversion Hws as [|? v ? ws' Hv Hws']; subst; constructor.
  - rewrite Hy. cbn [bind]. exact Hv.
  - apply IH. exact Hws'.
Qed.

(** ** The readout *)

Lemma augment_again (d : Dynamics) (sh : list nat) (x x_aug y0' : tensor) :
  augment d x = Ok x_aug -> has_shape sh x_aug -> has_shape sh y0' ->
  exists x_aug1,
    augment d (if 0 <? augment_dim d then x else y0') = Ok x_aug1 /\
    has_shape sh x_aug1.
Proof.
  intros Haug Hx Hy. unfold augment in *.
  destruct (0 <? augment_dim d) eqn:Ea.
  - exists x_aug. split; assumption.
  - exists y0'. split; [reflexivity | exact Hy].
Qed.

Lemma Forall2_nth_Linear (l : Linear) (ys ws : list tensor) (i : nat)
    (d : tensor) :
  Forall2 (fun y v => Linear_forward l y = Ok v) ys ws ->
  i < length ys ->
  Linear_forward l (nth i ys d) = Ok (nth i ws d).
Proof.
  intros H. revert i. induction H as [|y v ys ws Hy _ IH]; intros i Hi.
  - simpl in Hi. lia.
  - destruct i as [|i]; [exact Hy|]. apply IH. simpl in Hi. lia.
Qed.

(** On a constructed model whose readout reads the hidden size, and an
    input whose (augmented) last axis has that size, [NeuralODE.forward]
    succeeds: the two integrations succeed, the readout is applied to the
    features and to the trajectory, and on the trajectory it acts slice by
    slice. *)
Lemma NeuralODE_forward_runs (hd od : nat) (theta : initializer)
    (w : nat -> nat -> R) (b : nat -> R) (lead : list nat)
    (file : option (list tensor)) (m : NeuralODE) (x x_aug : tensor) :
  constructed hd theta (dynamics (flow m)) ->
  linear_layer m = nn_Linear hd od w b ->
  augment (set_nfe (dynamics (flow m)) 0) x = Ok x_aug ->
  has_shape (lead ++ [hd]) x_aug ->
  exists flow1 x1 features flow2 x2 tr terminal pred pt,
    Semiflow_forward (flow m) x None = (flow1, x1, Ok features) /\
    Semiflow_trajectory flow1 x1 time_steps = (flow2, x2, Ok tr) /\
    Semiflow_forward flow1 x1 None = (flow2, x2, Ok terminal) /\
    (forall rf,
       NeuralODE_forward file m x rf
       = (set_proj_traj (set_traj (set_flow (set_flow m flow1) flow2) tr) pt,
          x2, Ok (return_value rf features pred pt))) /\
    Linear_forward (linear_layer m) features = Ok pred /\
    Linear_forward (linear_layer m) tr = Ok pt /\
    has_shape (lead ++ [hd]) features /\
    forall i, i < time_steps ->
      exists state,
        index0 tr i = Ok state /\
        index0 pt i = Linear_forward (linear_layer m) state.
Proof.
  intros Hd Hll Haug Hx.
  destruct (Semiflow_forward_runs hd theta lead (flow m) x x_aug 0%Q [T]
              Hd Haug Hx eq_refl (Qeq_refl 0) ltac:(discriminate) (Qeq_refl T))
    as (d1 & y01 & features & _ & _ & _ & Hfeat & Hd1 & [k1 Hsame] & Hy01
        & Hfeatures & _).
  set (x1 := if 0 <? augment_dim (dynamics (flow m)) then x else y01) in *.
  set (flow1 := set_dynamics (flow m) d1) in *.
  assert (Haug1 : exists x_aug1,
             augment (set_nfe (dynamics flow1) 0) x1 = Ok x_aug1 /\
             has_shape (lead ++ [hd]) x_aug1).
  { unfold flow1. cbn [dynamics set_dynamics]. rewrite Hsame.
    exact (augment_again (set_nfe (dynamics (flow m)) 0) (lead ++ [hd])
             x x_aug y01 Haug Hx Hy01). }
  destruct Haug1 as (x_aug1 & Haug1 & Hx1).
  destruct (linspace_0_T time_steps ltac:(unfold time_steps; lia))
    as (t_first & ts & Elin & Hne & Hlen & Hinc & Hfirst & Hlast & _).
  rewrite Elin in Hinc.
  destruct (Semiflow_forward_runs hd theta lead flow1 x1 x_aug1 t_first ts
              Hd1 Haug1 Hx1 Hinc Hfirst Hne Hlast)
    as (d2 & y02 & yN & sols & _ & Htraj & Hterm & _ & _ & _ & _ & Hsols
        & Hlens & _).
  set (x2 := if 0 <? augment_dim (dynamics flow1) then x1 else y02) in *.
  assert (Hall : Forall (has_shape (lead ++ [hd])) (x_aug1 :: sols))
    by (constructor; assumption).
  assert (Hcount : length (x_aug1 :: sols) = time_steps).
  { simpl. rewrite Hlens. rewrite Elin in Hlen. simpl in Hlen. exact Hlen. }
  destruct (Linear_forward_has_shape hd od w b features lead
              (proj1 Hfeatures)) as [pred [Hpred _]].
  destruct (Linear_forward_stack hd od w b lead (x_aug1 :: sols) Hall)
    as (ws & Hws & Hshw & Hpt).
  set (tr := stack (lead ++ [hd]) (x_aug1 :: sols)) in *.
  set (pt := stack (lead ++ [od]) ws) in *.
  exists flow1, x1, features, (set_dynamics flow1 d2), x2, tr, yN, pred, pt.
  split; [exact Hfeat|].
  split; [unfold Semiflow_trajectory; rewrite Elin; exact Htraj|].
  split; [exact Hterm|].
  split.
  { intros rf. unfold NeuralODE_forward. rewrite Hfeat.
    cbn [flow set_flow]. unfold Semiflow_trajectory.
    fold flow1. fold x1. rewrite Elin, Htraj.
    cbn [linear_layer set_flow set_traj]. rewrite Hll, Hpred.
    fold tr. rewrite Hpt. reflexivity. }
  rewrite Hll. split; [exact Hpred|]. split; [exact Hpt|].
  split; [exact Hfeatures|].
  intros i Hi. exists (nth i (x_aug1 :: sols) x_aug1).
  assert (Hlenw : length ws = length (x_aug1 :: sols))
    by (symmetry; exact (Forall2_length Hws)).
  unfold tr, pt.
  rewrite (index0_stack _ _ i x_aug1 Hall) by (rewrite Hcount; exact Hi).
  rewrite (index0_stack _ _ i x_aug1 Hshw)
    by (rewrite Hlenw, Hcount; exact Hi).
  split; [reflexivity|]. symmetry.
  apply Forall2_nth_Linear; [exact Hws|]. rewrite Hcount. exact Hi.
Qed.

(** C4.  On a constructed model whose readout reads the hidden size, and
    an input whose (augmented) last axis has that size,
    [NeuralODE.forward] succeeds for both values of [return_features];
    the prediction it returns is the readout [linear_layer] applied to the
    features it returns, the projected trajectory is the same readout
    applied to the trajectory, and slice by slice this is the readout
    applied to each of the [time_steps] states. *)
Theorem NeuralODE_forward_readout (hd od : nat) (theta : initializer)
    (w : nat -> nat -> R) (b : nat -> R) (lead : list nat)
    (file : option (list tensor)) (m : NeuralODE) (x x_aug : tensor) :
  constructed hd theta (dynamics (flow m)) ->
  linear_layer m = nn_Linear hd od w b ->
  augment (set_nfe (dynamics (flow m)) 0) x = Ok x_aug ->
  has_shape (lead ++ [hd]) x_aug ->
  exists m' x' features pred tr pt,
    NeuralODE_forward file m x true = (m', x', Ok (features, pred)) /\
    NeuralODE_forward file m x false = (m', x', Ok (pred, pt)) /\
    Linear_forward (linear_layer m) features = Ok pred /\
    traj m' = Some tr /\ proj_traj m' = Some pt /\
    Linear_forward (linear_layer m) tr = Ok pt /\
    forall i, i < time_steps ->
      exists state,
        index0 tr i = Ok state /\
        index0 pt i = Linear_forward (linear_layer m) state.
Proof.
  intros Hd Hll Haug Hx.
  destruct (NeuralODE_forward_runs hd od theta w b lead file m x x_aug
              Hd Hll Haug Hx)
    as (flow1 & x1 & features & flow2 & x2 & tr & terminal & pred & pt
        & _ & _ & _ & Hrun & Hpred & Hpt & _ & Hslices).
  exists (set_proj_traj (set_traj (set_flow (set_flow m flow1) flow2) tr) pt),
    x2, features, pred, tr, pt.
  split; [exact (Hrun true)|]. split; [exact (Hrun false)|].
  split; [exact Hpred|]. split; [reflexivity|]. split; [reflexivity|].
  split; [exact Hpt | exact Hslices].
Qed.

(** ** The zero-bank scenario *)

Lemma NeuralODE_init_inv (dd hd od ad : nat) (name : string) (tol : Q)
    (adj : bool) (theta : initializer) (m : NeuralODE) :
  NeuralODE_init dd hd od ad name tol adj theta = Ok m ->
  exists d,
    Dynamics_init dd hd ad name theta = Ok d /\
    flow m = Semiflow_init d tol adj /\
    linear_layer m = nn_Linear (dd + ad) od
                       (init_weight theta "linear_layer" 0)
                       (init_bias theta "linear_layer" 0).
Proof.
  unfold NeuralODE_init.
  destruct (Dynamics_init dd hd ad name theta) as [d|e] eqn:Ed;
    [|discriminate].
  cbn [bind]. intros H. injection H as <-. exists d.
  destruct (Dynamics_init_inv _ _ _ _ _ _ Ed) as [act [_ ->]].
  repeat split.
Qed.

Lemma not_inplace_names (dd hd ad : nat) (name : string)
    (theta : initializer) (d : Dynamics) :
  name = "tanh"%string \/ name = "sigmoid"%string ->
  Dynamics_init dd hd ad name theta = Ok d ->
  is_inplace (non_linearity d) = false.
Proof.
  intros Hname Hd.
  destruct (Dynamics_init_inv _ _ _ _ _ _ Hd) as [act [Hact ->]].
  destruct Hname as [-> | ->]; simpl in Hact; injection Hact as <-;
    reflexivity.
Qed.

(** C3 (with [hidden_dim = 2]).  With [data_dim = 2], [augment_dim = 0],
    [hidden_dim = 2], the [tanh] (or [sigmoid]) nonlinearity and a zero
    parameter bank, for every time in [[0, T)] and every input whose last
    axis has size 2 the derivative is the zero tensor and the input is left
    as it was; [Semiflow.forward] returns the input; and the prediction of
    [NeuralODE.forward] is the readout applied to the input, which is the
    readout bias repeated over the batch when the readout weight is zero
    too. *)
Theorem zero_bank_scenario (name : string) (od : nat) (tol : Q) (adj : bool)
    (theta : initializer) (file : option (list tensor)) (lead : list nat)
    (m : NeuralODE) (x : tensor) :
  name = "tanh"%string \/ name = "sigmoid"%string ->
  zero_bank theta ->
  NeuralODE_init 2 2 od 0 name tol adj theta = Ok m ->
  has_shape (lead ++ [2]) x ->
  (forall t, in_time_range t ->
     snd (Dynamics_forward (dynamics (flow m)) t x) = Ok (zeros (lead ++ [2]))
     /\ snd (fst (Dynamics_forward (dynamics (flow m)) t x)) = x) /\
  (exists flow', Semiflow_forward (flow m) x None = (flow', x, Ok x)) /\
  (exists m' pred pt,
     NeuralODE_forward file m x false = (m', x, Ok (pred, pt)) /\
     Linear_forward (linear_layer m) x = Ok pred /\
     ((forall i j, init_weight theta "linear_layer" 0 i j = 0%R) ->
      pred = mkTensor (lead ++ [od])
               (concat (repeat (map (init_bias theta "linear_layer" 0)
                                    (seq 0 od))
                               (numel lead))))).
Proof.
  intros Hname Hz Hm Hx.
  destruct (NeuralODE_init_inv _ _ _ _ _ _ _ _ _ Hm) as (d & Hd & Hflow & Hll).
  pose proof (constructed_init _ _ _ _ _ _ Hd) as Hc.
  pose proof (not_inplace_names _ _ _ _ _ _ Hname Hd) as Hin.
  assert (Hdyn : dynamics (flow m) = d) by (rewrite Hflow; reflexivity).
  assert (Haug : augment (set_nfe (dynamics (flow m)) 0) x = Ok x).
  { rewrite Hdyn.
    destruct (Dynamics_init_inv _ _ _ _ _ _ Hd) as [act [_ ->]]. reflexivity. }
  rewrite <- Hdyn in Hc, Hin.
  split; [|split].
  - intros t Ht.
    rewrite (Dynamics_forward_zero_bank 2 theta lead _ t x Hc Hz Ht (proj1 Hx)).
    rewrite (activation_call_not_inplace _ _ Hin). split; reflexivity.
  - destruct (Semiflow_forward_zero_bank 2 theta lead (flow m) x x Hc Hz Hin
                Haug Hx) as (d' & Hrun & _).
    eexists. exact Hrun.
  - destruct (Semiflow_forward_zero_bank 2 theta lead (flow m) x x Hc Hz Hin
                Haug Hx) as (d1 & Hrun1 & Hc1 & [k1 Hsame1]).
    destruct (NeuralODE_forward_runs 2 od theta _ _ lead file m x x Hc Hll
                Haug Hx)
      as (flow1 & x1 & features & flow2 & x2 & tr & terminal & pred & pt
          & Hfeat & _ & Hterm & Hrun & Hpred & _).
    rewrite Hrun1 in Hfeat. injection Hfeat as <- <- <-.
    assert (Hin1 : is_inplace (non_linearity
                     (dynamics (set_dynamics (flow m) d1))) = false).
    { cbn [dynamics set_dynamics]. rewrite Hsame1. exact Hin. }
    assert (Haug1 : augment (set_nfe (dynamics (set_dynamics (flow m) d1)) 0)
                            x = Ok x).
    { cbn [dynamics set_dynamics]. rewrite Hsame1. exact Haug. }
    destruct (Semiflow_forward_zero_bank 2 theta lead
                (set_dynamics (flow m) d1) x x Hc1 Hz Hin1 Haug1 Hx)
      as (d2 & Hrun2 & _).
    rewrite Hrun2 in Hterm. injection Hterm as <- <- <-.
    eexists. exists pred, pt.
    split; [exact (Hrun false)|]. split; [exact Hpred|].
    intros Hw. rewrite Hll in Hpred.
    rewrite (Linear_forward_zero_weight 2 od _ _ x lead Hw (proj1 Hx))
      in Hpred.
    injection Hpred as <-. reflexivity.
Qed.

(** ** Augmentation *)

Lemma skipn_repeat (v : R) (k n : nat) :
  skipn k (repeat v n) = repeat v (n - k).
Proof.
  revert k. induction n as [|n IH]; intros [|k]; try reflexivity.
  simpl. apply IH.
Qed.

Lemma firstn_repeat (v : R) (k n : nat) :
  k <= n -> firstn k (repeat v n) = repeat v k.
Proof.
  revert k. induction n as [|n IH]; intros [|k] H; try reflexivity;
    [lia|]. simpl. f_equal. apply IH. lia.
Qed.

Lemma row_length (m i : nat) (d : list R) :
  i * m + m <= length d -> length (row m i d) = m.
Proof.
  intros H. unfold row. rewrite length_firstn, length_skipn. lia.
Qed.

Lemma augment_none (d : Dynamics) (x : tensor) :
  augment_dim d = 0 -> augment d x = Ok x.
Proof. intros H. unfold augment. rewrite H. reflexivity. Qed.

(** With augmentation the initial state has one row per batch entry: the
    flattened entry followed by [augment_dim] zeros. *)
Lemma augment_pad (d : Dynamics) (x : tensor) (b : nat) (rest : list nat) :
  0 < augment_dim d -> well_formed x -> shape x = b :: rest ->
  numel (shape x) <> 0 ->
  exists x_aug,
    augment d x = Ok x_aug /\
    has_shape [b; numel rest + augment_dim d] x_aug /\
    forall i, i < b ->
      row (numel rest + augment_dim d) i (data x_aug)
      = row (numel rest) i (data x) ++ repeat 0%R (augment_dim d).
Proof.
  intros Ha Hwf Ex Hne. unfold augment, view_flat.
  replace (0 <? augment_dim d) with true
    by (symmetry; apply Nat.ltb_lt; exact Ha).
  rewrite Ex. rewrite Ex in Hne.
  replace (numel (b :: rest) =? 0) with false
    by (symmetry; apply Nat.eqb_neq; exact Hne).
  cbn [bind shape hd]. unfold cat1. cbn [shape zeros data].
  rewrite Nat.eqb_refl.
  set (m := numel rest) in *. set (a := augment_dim d) in *.
  set (g := fun i => row m i (data x) ++ row a i (repeat 0%R (numel [b; a]))).
  assert (Hlen : length (data x) = b * m).
  { unfold well_formed in Hwf. rewrite Ex in Hwf. exact Hwf. }
  assert (Hg : forall i, i < b -> g i = row m i (data x) ++ repeat 0%R a).
  { intros i Hi. unfold g. f_equal. unfold row.
    rewrite skipn_repeat, firstn_repeat; [reflexivity|].
    cbn [numel fold_right]. nia. }
  assert (Hgl : forall i, i < b -> length (g i) = m + a).
  { intros i Hi. rewrite (Hg i Hi), length_app, repeat_length.
    rewrite row_length by nia. reflexivity. }
  eexists. split; [reflexivity|]. cbn [data].
  fold g. rewrite flat_map_concat_map.
  assert (Hall : Forall (fun r => length r = m + a) (map g (seq 0 b))).
  { apply Forall_map, Forall_forall. intros i Hi. apply in_seq in Hi.
    apply Hgl. lia. }
  split; [split; [reflexivity|]|].
  - cbn [data numel fold_right]. rewrite length_concat.
    rewrite (Forall_eq_repeat
               (proj2 (Forall_map (@length R) (eq (m + a)) _)
                  (Forall_impl _ (fun r H => eq_sym H) Hall))).
    rewrite !length_map, length_seq, Nat.mul_1_r.
    generalize (m + a). intros k. clear. induction b; simpl; [reflexivity|].
    rewrite IHb. reflexivity.
  - intros i Hi. rewrite row_concat by
      (try exact Hall; rewrite length_map, length_seq; exact Hi).
    rewrite (nth_indep _ [] (g 0)) by (rewrite length_map, length_seq; exact Hi).
    rewrite map_nth, seq_nth by exact Hi. apply Hg. exact Hi.
Qed.

(** C5.  For a [Dynamics] built with [hidden_dim = data_dim + augment_dim]
    and an input of [data_dim] features per batch entry: without
    augmentation the initial state of the integration is the input itself
    and the result has last axis [data_dim]; with [augment_dim = a > 0] the
    input is flattened to [[b; data_dim]], each row is followed by [a]
    zeros, and the result has shape [[b; data_dim + a]]. *)
Theorem Semiflow_forward_augmentation (dd hd ad : nat) (name : string)
    (theta : initializer) (d : Dynamics) (tol : Q) (adj : bool)
    (x : tensor) :
  Dynamics_init dd hd ad name theta = Ok d ->
  hd = dd + ad ->
  well_formed x ->
  (ad = 0 -> forall lead, shape x = lead ++ [dd] ->
     augment (set_nfe d 0) x = Ok x /\
     exists self' x' out,
       Semiflow_forward (Semiflow_init d tol adj) x None
       = (self', x', Ok out) /\
       has_shape (lead ++ [dd]) out) /\
  (0 < ad -> forall b rest,
     shape x = b :: rest -> 0 < b -> numel rest = dd -> 0 < dd ->
     exists x_aug,
       augment (set_nfe d 0) x = Ok x_aug /\
       has_shape [b; dd + ad] x_aug /\
       (forall i, i < b ->
          row (dd + ad) i (data x_aug)
          = row dd i (data x) ++ repeat 0%R ad) /\
       exists self' out,
         Semiflow_forward (Semiflow_init d tol adj) x None
         = (self', x, Ok out) /\
         has_shape [b; dd + ad] out).
Proof.
  intros Hd Hhd Hwf.
  pose proof (constructed_init _ _ _ _ _ _ Hd) as Hc.
  assert (Ead : augment_dim d = ad).
  { destruct (Dynamics_init_inv _ _ _ _ _ _ Hd) as [act [_ ->]]. reflexivity. }
  split.
  - intros Ha lead Ex.
    assert (Ehd : hd = dd) by lia.
    assert (Haug : augment (set_nfe d 0) x = Ok x).
    { apply augment_none. cbn [augment_dim set_nfe]. congruence. }
    split; [exact Haug|].
    assert (Hx : has_shape (lead ++ [hd]) x).
    { rewrite Ehd, <- Ex. apply well_formed_has_shape. exact Hwf. }
    destruct (Semiflow_forward_runs hd theta lead (Semiflow_init d tol adj)
                x x 0%Q [T] Hc Haug Hx eq_refl (Qeq_refl 0)
                ltac:(discriminate) (Qeq_refl T))
      as (d' & y0' & yN & sols & _ & _ & Hterm & _ & _ & _ & HyN & _).
    eexists. eexists. exists yN. split; [exact Hterm|].
    rewrite <- Ehd. exact HyN.
  - intros Ha b rest Ex Hb Hrest Hdd.
    assert (Hne : numel (shape x) <> 0).
    { rewrite Ex. cbn [numel fold_right]. fold (numel rest). nia. }
    destruct (augment_pad (set_nfe d 0) x b rest
                ltac:(cbn [augment_dim set_nfe]; lia) Hwf Ex Hne)
      as (x_aug & Haug & Hx & Hrows).
    cbn [augment_dim set_nfe] in Hx, Hrows. rewrite Ead, Hrest in Hx, Hrows.
    exists x_aug. split; [exact Haug|]. split; [exact Hx|].
    split; [exact Hrows|].
    rewrite <- Hhd in Hx.
    destruct (Semiflow_forward_runs hd theta [b] (Semiflow_init d tol adj)
                x x_aug 0%Q [T] Hc Haug Hx eq_refl (Qeq_refl 0)
                ltac:(discriminate) (Qeq_refl T))
      as (d' & y0' & yN & sols & _ & _ & Hterm & _ & _ & _ & HyN & _).
    cbn [dynamics Semiflow_init] in Hterm. rewrite Ead in Hterm.
    replace (0 <? ad) with true in Hterm
      by (symmetry; apply Nat.ltb_lt; exact Ha).
    eexists. exists yN. split; [exact Hterm|].
    rewrite <- Hhd. exact HyN.
Qed.

(** ** The evaluation counter *)

Lemma euler_loop_recording {S : Type} (func : callable S) (count : S -> nat) :
  (forall s t y, count (fst (fst (func s t y))) = count s + 1) ->
  forall (grid : list Q) (s : S) (log : list Q) (t0 : Q) (y0 : tensor)
         (ts : list Q),
  exists queried rest,
    euler_loop (recording func) (s, log) t0 y0 grid ts
    = (fst (fst (euler_loop func s t0 y0 grid ts)), log ++ queried,
       snd (fst (euler_loop func s t0 y0 grid ts)),
       snd (euler_loop func s t0 y0 grid ts)) /\
    count (fst (fst (euler_loop func s t0 y0 grid ts)))
    = count s + length queried /\
    removelast (t0 :: grid) = queried ++ rest /\
    (forall sols, snd (euler_loop func s t0 y0 grid ts) = Ok sols ->
                  rest = []).
Proof.
  intros Hcount. induction grid as [|t1 grid IH]; intros s log t0 y0 ts.
  - exists [], []. cbn. rewrite app_nil_r. repeat split. lia.
  - cbn [euler_loop]. unfold recording at 1. cbn [fst snd].
    pose proof (Hcount s t0 y0) as Hc.
    destruct (func s t0 y0) as [[s1 y0'] r]. cbn [fst] in Hc.
    assert (Erl : removelast (t0 :: t1 :: grid)
                  = t0 :: removelast (t1 :: grid)) by reflexivity.
    destruct (f0 <- r ;; add y0' (scale (Q2R (t1 - t0)) f0)) as [y1|e].
    + destruct (fill_solution t0 t1 y0' y1 ts) as [[sols|e] ts'].
      * destruct (IH s1 (log ++ [t0]) t1 y1 ts')
          as (queried & rest & Hrun & Hq & Hpre & Hall).
        rewrite Hrun.
        destruct (euler_loop func s1 t1 y1 grid ts') as [[s2 yy] r2].
        cbn [fst snd] in *.
        exists (t0 :: queried), rest. rewrite <- app_assoc.
        split; [reflexivity|]. split; [simpl; lia|].
        split; [rewrite Erl, Hpre; reflexivity|].
        intros sols' Hs. destruct r2 as [more|e]; [|discriminate].
        exact (Hall more eq_refl).
      * exists [t0], (removelast (t1 :: grid)). cbn [fst snd].
        split; [reflexivity|]. split; [simpl; lia|].
        split; [exact Erl | discriminate].
    + exists [t0], (removelast (t1 :: grid)). cbn [fst snd].
      split; [reflexivity|]. split; [simpl; lia|].
      split; [exact Erl | discriminate].
Qed.

Lemma odeint_recording {S : Type} (func : callable S) (count : S -> nat)
    (s : S) (y0 : tensor) (t : list Q) (h : Q) :
  (forall s t y, count (fst (fst (func s t y))) = count s + 1) ->
  exists queried rest,
    odeint (recording func) (s, []) y0 t h
    = (fst (fst (odeint func s y0 t h)), queried,
       snd (fst (odeint func s y0 t h)), snd (odeint func s y0 t h)) /\
    count (fst (fst (odeint func s y0 t h))) = count s + length queried /\
    removelast (grid_constructor h t) = queried ++ rest /\
    (forall out, snd (odeint func s y0 t h) = Ok out -> rest = []).
Proof.
  intros Hcount. unfold odeint.
  destruct (negb (strictly_increasing t)).
  { exists [], (removelast (grid_constructor h t)). cbn.
    repeat split; try discriminate; simpl; lia. }
  destruct t as [|t_first ts].
  { exists [], (removelast (grid_constructor h [])). cbn [fst snd].
    repeat split; try discriminate; simpl; lia. }
  destruct (grid_constructor h (t_first :: ts)) as [|g0 grid].
  { exists [], []. cbn [fst snd].
    repeat split; try discriminate; simpl; lia. }
  destruct (Qeq_bool g0 t_first
            && Qeq_bool (last (g0 :: grid) 0%Q) (last (t_first :: ts) 0%Q)).
  - destruct (euler_loop_recording func count Hcount grid s [] g0 y0 ts)
      as (queried & rest & Hrun & Hq & Hpre & Hall).
    rewrite Hrun.
    destruct (euler_loop func s g0 y0 grid ts) as [[s' y0'] r].
    cbn [fst snd] in *. exists queried, rest.
    split; [reflexivity|]. split; [exact Hq|]. split; [exact Hpre|].
    intros out Ho. destruct r as [sols|e]; [|discriminate].
    exact (Hall sols eq_refl).
  - exists [], (removelast (g0 :: grid)). cbn [fst snd].
    repeat split; try discriminate; simpl; lia.
Qed.

Lemma removelast_map_seq (f : nat -> Q) (a n : nat) :
  removelast (map f (seq a n)) = map f (seq a (n - 1)).
Proof.
  revert a. induction n as [|n IH]; intros a; [reflexivity|].
  destruct n as [|n]; [reflexivity|].
  specialize (IH (S a)).
  replace (S n - 1) with n in IH by lia.
  replace (S (S n) - 1) with (S n) by lia.
  change (f a :: removelast (map f (seq (S a) (S n)))
          = f a :: map f (seq (S a) n)).
  rewrite IH. reflexivity.
Qed.

Lemma removelast_set_last (l : list Q) (e : Q) :
  removelast (set_last l e) = removelast l.
Proof.
  unfold set_last. destruct l as [|a l]; [reflexivity|].
  apply removelast_last.
Qed.

(** The query points of a grid with a positive step increase strictly. *)
Lemma grid_queries_increasing (h : Q) (t : list Q) :
  (0 < h)%Q ->
  strictly_increasing (removelast (grid_constructor h t)) = true.
Proof.
  intros Hh. unfold grid_constructor.
  rewrite removelast_set_last, removelast_map_seq.
  apply strictly_increasing_map_seq. intros i.
  rewrite Nat2Z.inj_succ, <- Z.add_1_r, inject_Z_plus.
  generalize (inject_Z (Z.of_nat i)). intros a.
  setoid_replace ((a + inject_Z 1) * h)%Q with (a * h + h)%Q by ring.
  lra.
Qed.

Lemma strictly_increasing_app_l (l1 l2 : list Q) :
  strictly_increasing (l1 ++ l2) = true -> strictly_increasing l1 = true.
Proof.
  induction l1 as [|a l1 IH]; [reflexivity|].
  destruct l1 as [|b l1]; [reflexivity|].
  intros H. change ((a :: b :: l1) ++ l2) with (a :: b :: (l1 ++ l2)) in H.
  apply strictly_increasing_cons in H. destruct H as [Hab H].
  apply strictly_increasing_cons. split; [exact Hab|]. apply IH. exact H.
Qed.

Lemma strictly_increasing_above (a : Q) (l : list Q) :
  strictly_increasing (a :: l) = true -> Forall (fun b => (a < b)%Q) l.
Proof.
  revert a. induction l as [|b l IH]; intros a H; [constructor|].
  apply strictly_increasing_cons in H. destruct H as [Hab H].
  constructor; [exact Hab|].
  apply (Forall_impl (fun c => (a < c)%Q)) with (2 := IH b H).
  intros c Hc. lra.
Qed.

(** Strictly increasing times are pairwise distinct as numbers. *)
Lemma strictly_increasing_NoDupA (l : list Q) :
  strictly_increasing l = true -> NoDupA Qeq l.
Proof.
  induction l as [|a l IH]; intros H; [constructor|].
  constructor.
  - pose proof (strictly_increasing_above a l H) as Habove.
    intros Hin. apply InA_alt in Hin. destruct Hin as [b [Hab Hb]].
    pose proof (proj1 (Forall_forall _ l) Habove b Hb) as Hlt.
    simpl in Hlt. lra.
  - apply IH. exact (strictly_increasing_tail a l H).
Qed.

Lemma dt_positive : (0 < dt)%Q.
Proof. reflexivity. Qed.

(** C7.  [Semiflow.forward] starts from a counter set to 0 (the value the
    counter had before has no influence); every call of
    [Dynamics.forward] adds exactly 1 to the counter; the integrator run on
    the recording callable is the run of [Semiflow.forward] together with
    the log of its query times; and after [Semiflow.forward] the counter is
    the number of these query times, which are pairwise distinct. *)
Theorem Semiflow_forward_nfe (self : Semiflow) (x : tensor)
    (eval_times : option (list Q)) :
  (forall k,
     Semiflow_forward (set_dynamics self (set_nfe (dynamics self) k))
                      x eval_times
     = Semiflow_forward self x eval_times) /\
  (forall d t y, nfe (fst (fst (Dynamics_forward d t y))) = nfe d + 1) /\
  match augment (set_nfe (dynamics self) 0) x with
  | Ok x_aug =>
      let times := match eval_times with
                   | None => [0%Q; T]
                   | Some t => t
                   end in
      let '(dl, y', r) :=
        odeint (recording Dynamics_forward)
               (set_nfe (dynamics self) 0, []) x_aug times dt in
      (fst dl, y', r)
      = odeint Dynamics_forward (set_nfe (dynamics self) 0) x_aug times dt /\
      snd dl = solver_queries self x eval_times
  | Raise _ => solver_queries self x eval_times = []
  end /\
  nfe (dynamics (fst (fst (Semiflow_forward self x eval_times))))
  = length (solver_queries self x eval_times) /\
  NoDupA Qeq (solver_queries self x eval_times).
Proof.
  split; [intros k; reflexivity|].
  split; [exact Dynamics_forward_counts|].
  unfold Semiflow_forward, solver_queries.
  set (d0 := set_nfe (dynamics self) 0).
  set (times := match eval_times with None => [0%Q; T] | Some t => t end).
  destruct (augment d0 x) as [x_aug|e];
    [|split; [reflexivity | split; [reflexivity | constructor]]].
  destruct (odeint_recording Dynamics_forward nfe d0 x_aug times dt
              Dynamics_forward_counts)
    as (queried & rest & Hrun & Hq & Hpre & _).
  rewrite Hrun. cbn [fst snd].
  assert (Hn : nfe (dynamics (fst (fst
             (let '(d1, x_aug', out) :=
                if adjoint self
                then odeint_adjoint Dynamics_forward d0 x_aug times dt
                else odeint Dynamics_forward d0 x_aug times dt in
              (set_dynamics self d1,
               if 0 <? augment_dim d0 then x else x_aug',
               match eval_times with
               | None => o <- out ;; index0 o 1
               | Some _ => out
               end)))))
           = nfe (fst (fst (odeint Dynamics_forward d0 x_aug times dt)))).
  { destruct (adjoint self); unfold odeint_adjoint;
      destruct (odeint Dynamics_forward d0 x_aug times dt) as [[d1 x'] out];
      reflexivity. }
  split; [|split].
  - destruct (odeint Dynamics_forward d0 x_aug times dt) as [[d1 x'] out].
    split; reflexivity.
  - rewrite Hn, Hq. reflexivity.
  - apply strictly_increasing_NoDupA.
    apply (strictly_increasing_app_l queried rest).
    rewrite <- Hpre. apply grid_queries_increasing. exact dt_positive.
Qed.

(** After a successful integration from [0] to [T] the counter is
    [time_steps]: one query per step of the grid. *)
Lemma nfe_after_full_integration (hd : nat) (theta : initializer)
    (lead : list nat) (self : Semiflow) (x x_aug : tensor) (t_first : Q)
    (ts : list Q) :
  constructed hd theta (dynamics self) ->
  augment (set_nfe (dynamics self) 0) x = Ok x_aug ->
  has_shape (lead ++ [hd]) x_aug ->
  strictly_increasing (t_first :: ts) = true ->
  (t_first == 0)%Q -> ts <> [] -> (last ts 0 == T)%Q ->
  nfe (dynamics (fst (fst (Semiflow_forward self x (Some (t_first :: ts))))))
  = time_steps.
Proof.
  intros Hd Haug Hx Hinc Hfirst Hne Hlast.
  set (d0 := set_nfe (dynamics self) 0) in *.
  assert (Hd0 : constructed hd theta d0 /\ same_model (dynamics self) d0).
  { split; [apply constructed_set_nfe; exact Hd | exists 0; reflexivity]. }
  destruct (odeint_spec Dynamics_forward _ _
              (Dynamics_forward_regular hd theta lead (dynamics self))
              Dynamics_forward_time_compatible d0 x_aug t_first ts
              Hd0 Hx Hinc Hfirst Hne Hlast)
    as (d' & y0' & yN & sols & _ & Hode & _).
  destruct (odeint_recording Dynamics_forward nfe d0 x_aug (t_first :: ts) dt
              Dynamics_forward_counts)
    as (queried & rest & _ & Hq & Hpre & Hall).
  rewrite Hode in Hq, Hall. cbn [fst snd] in Hq, Hall.
  rewrite (Hall _ eq_refl), app_nil_r in Hpre.
  assert (HG : Forall2 Qeq (grid_constructor dt (t_first :: ts)) time_grid).
  { apply grid_constructor_ext; [exact Hfirst|].
    destruct ts; [contradiction | exact Hlast]. }
  assert (Hlenq : length queried = time_steps).
  { rewrite <- Hpre.
    rewrite (Forall2_length (Forall2_Qeq_removelast _ _ HG)). reflexivity. }
  unfold Semiflow_forward. fold d0. rewrite Haug.
  destruct (adjoint self); unfold odeint_adjoint; rewrite Hode;
    cbn [fst snd dynamics set_dynamics]; rewrite Hq, Hlenq; reflexivity.
Qed.

(** ** The constant field, and a trajectory of one point *)

Lemma Dynamics_forward_unit_bias (d : Dynamics) (t : Q) (v : R) :
  constructed 1 unit_bias_init d ->
  is_inplace (non_linearity d) = false ->
  in_time_range t ->
  Dynamics_forward d t (mkTensor [1; 1] [v])
  = (set_nfe d (nfe d + 1), mkTensor [1; 1] [v],
     Ok (mkTensor [1; 1] [1%R])).
Proof.
  intros Hd Hin Ht.
  rewrite (Dynamics_forward_in_range 1 unit_bias_init d t _ Hd Ht).
  rewrite (activation_call_not_inplace _ _ Hin). cbn [fst snd].
  rewrite (Linear_forward_zero_weight 1 1 _ _ _ [1]) by reflexivity.
  reflexivity.
Qed.

Lemma last_cons_default {A : Type} (a d : A) (l : list A) :
  last (a :: l) d = last l a.
Proof.
  destruct l as [|b l]; [reflexivity|].
  change (last (b :: l) d = last (b :: l) a).
  apply last_nonempty. discriminate.
Qed.

(** With the constant field [1] the Euler steps add the elapsed time. *)
Lemma euler_final_unit_bias (grid : list Q) :
  forall (d : Dynamics) (t0 : Q) (v : R),
    constructed 1 unit_bias_init d ->
    is_inplace (non_linearity d) = false ->
    Forall in_time_range (removelast (t0 :: grid)) ->
    exists d',
      euler_final Dynamics_forward d t0 (mkTensor [1; 1] [v]) grid
      = (d', mkTensor [1; 1] [v],
         Ok (mkTensor [1; 1] [(v + Q2R (last grid t0 - t0))%R])).
Proof.
  induction grid as [|t1 grid IH]; intros d t0 v Hd Hin Hok.
  - exists d. cbn [euler_final last]. repeat f_equal.
    unfold Qminus. rewrite Qplus_opp_r. unfold Q2R. simpl. lra.
  - assert (Hok0 : in_time_range t0) by (inversion Hok; assumption).
    assert (Hok' : Forall in_time_range (removelast (t1 :: grid))).
    { destruct grid; [constructor|]. inversion Hok; assumption. }
    cbn [euler_final].
    rewrite (Dynamics_forward_unit_bias d t0 v Hd Hin Hok0). cbn [bind].
    change (add (mkTensor [1; 1] [v])
                (scale (Q2R (t1 - t0)) (mkTensor [1; 1] [1%R])))
      with (Ok (mkTensor [1; 1] [(v + Q2R (t1 - t0) * 1)%R])).
    destruct (IH (set_nfe d (nfe d + 1)) t1 (v + Q2R (t1 - t0) * 1)%R
                 (constructed_set_nfe _ _ _ _ Hd) Hin Hok') as [d' Hfin].
    rewrite Hfin. exists d'. rewrite last_cons_default.
    replace (v + Q2R (t1 - t0) * 1 + Q2R (last grid t1 - t1))%R
      with (v + Q2R (last grid t1 - t0))%R; [reflexivity|].
    rewrite !Q2R_minus. lra.
Qed.

(** C6 at [n = 1].  The evaluation grid is the single point [0], the one
    state returned is the input, and it differs from the terminal state:
    with the constant field [1] the input [[[0]]] ends in [[[10]]]. *)
Lemma Semiflow_trajectory_one_point :
  exists d, Dynamics_init 1 1 0 "tanh" unit_bias_init = Ok d /\
  let self := Semiflow_init d (1 # 1000) false in
  let x := mkTensor [1; 1] [0%R] in
  exists traj terminal,
    linspace 0 T 1 = [0%Q] /\
    snd (Semiflow_trajectory self x 1) = Ok traj /\
    shape traj = [1; 1; 1] /\
    snd (Semiflow_forward self x None) = Ok terminal /\
    terminal = mkTensor [1; 1] [10%R] /\
    index0 traj (1 - 1) = Ok x /\
    index0 traj (1 - 1) <> Ok terminal.
Proof.
  eexists. split; [reflexivity|]. intros self x.
  exists (mkTensor [1; 1; 1] [0%R]), (mkTensor [1; 1] [10%R]).
  split; [reflexivity|]. split; [reflexivity|]. split; [reflexivity|].
  split; [|split; [reflexivity|split; [reflexivity|]]].
  - assert (Hc : constructed 1 unit_bias_init (dynamics self))
      by (split; reflexivity).
    assert (Hx : has_shape ([1] ++ [1]) x) by (split; reflexivity).
    destruct (Semiflow_forward_runs 1 unit_bias_init [1] self x x 0%Q [T]
                Hc eq_refl Hx eq_refl (Qeq_refl 0) ltac:(discriminate)
                (Qeq_refl T))
      as (d' & y0' & yN & sols & Hfin & _ & Hterm & _).
    destruct (euler_final_unit_bias (tl time_grid)
                (set_nfe (dynamics self) 0) 0%Q 0%R
                (constructed_set_nfe _ _ _ 0 Hc) eq_refl time_grid_queries)
      as [d2 Hfin2].
    fold x in Hfin2. rewrite Hfin in Hfin2. injection Hfin2 as _ _ ->.
    rewrite Hterm. cbn [snd]. do 3 f_equal.
    change (last (tl time_grid) 0%Q) with T.
    unfold T, Q2R. simpl. lra.
  - cbn [index0 shape data Nat.sub Nat.ltb Nat.leb row numel fold_right
         Nat.mul firstn skipn].
    intros H. injection H as H. lra.
Qed.

(** ** The scenario with [hidden_dim = 4], and instances *)

(** C3 as stated, with [hidden_dim = 4]: the bank holds 4 by 4 layers,
    an input of [data_dim = 2] features cannot be multiplied by them, and
    every call raises instead of returning zeros. *)
Lemma zero_bank_scenario_hidden_4 :
  zero_bank zero_init /\
  exists m, NeuralODE_init 2 4 2 0 "tanh" (1 # 1000) false zero_init = Ok m /\
  let x := mkTensor [1; 2] [1%R; 2%R] in
  has_shape [1; 2] x /\
  in_time_range 0 /\
  snd (Dynamics_forward (dynamics (flow m)) 0 x) = Raise RuntimeError /\
  snd (Dynamics_forward (dynamics (flow m)) 0 x) <> Ok (zeros [1; 2]) /\
  snd (Semiflow_forward (flow m) x None) = Raise RuntimeError /\
  snd (NeuralODE_forward None m x false) = Raise RuntimeError.
Proof.
  split; [split; reflexivity|].
  eexists. split; [reflexivity|]. intros x.
  split; [split; reflexivity|].
  split; [split; [unfold Qle; simpl; lia | reflexivity]|].
  split; [reflexivity|]. split; [discriminate|].
  split; reflexivity.
Qed.

(** An input of four features passes through the bank but not through the
    readout, which reads [data_dim + augment_dim = 2] features. *)
Lemma hidden_4_wide_input_readout_fails (m : NeuralODE) :
  NeuralODE_init 2 4 2 0 "tanh" (1 # 1000) false zero_init = Ok m ->
  let x := mkTensor [1; 4] [1%R; 2%R; 3%R; 4%R] in
  snd (Dynamics_forward (dynamics (flow m)) 0 x) = Ok (zeros [1; 4]) /\
  snd (NeuralODE_forward None m x false) = Raise RuntimeError.
Proof.
  intros Hm x.
  destruct (NeuralODE_init_inv _ _ _ _ _ _ _ _ _ Hm) as (d & Hd & Hflow & Hll).
  pose proof (constructed_init _ _ _ _ _ _ Hd) as Hc.
  pose proof (not_inplace_names _ _ _ _ _ _ (or_introl eq_refl) Hd) as Hin.
  assert (Hdyn : dynamics (flow m) = d) by (rewrite Hflow; reflexivity).
  assert (Haug : augment (set_nfe (dynamics (flow m)) 0) x = Ok x).
  { rewrite Hdyn.
    destruct (Dynamics_init_inv _ _ _ _ _ _ Hd) as [act [_ ->]]. reflexivity. }
  rewrite <- Hdyn in Hc, Hin.
  assert (Hz : zero_bank zero_init) by (split; reflexivity).
  assert (Hx : has_shape ([1] ++ [4]) x) by (split; reflexivity).
  split.
  - rewrite (Dynamics_forward_zero_bank 4 zero_init [1] _ 0 x Hc Hz
               ltac:(split; [unfold Qle; simpl; lia | reflexivity])
               eq_refl).
    reflexivity.
  - destruct (Semiflow_forward_zero_bank 4 zero_init [1] (flow m) x x
                Hc Hz Hin Haug Hx)
      as (d1 & Hrun1 & Hc1 & [k1 Hs1]).
    destruct (linspace_0_T time_steps ltac:(unfold time_steps; lia))
      as (t_first & ts & Elin & Hne & _ & Hinc & Hfirst & Hlast & _).
    rewrite Elin in Hinc.
    assert (Haug1 : augment (set_nfe (dynamics (set_dynamics (flow m) d1)) 0)
                            x = Ok x).
    { cbn [dynamics set_dynamics]. rewrite Hs1. exact Haug. }
    destruct (Semiflow_forward_runs 4 zero_init [1]
                (set_dynamics (flow m) d1) x x t_first ts
                Hc1 Haug1 Hx Hinc Hfirst Hne Hlast)
      as (d2 & y02 & yN & sols & _ & Htraj & _).
    unfold NeuralODE_forward.
    rewrite Hrun1. cbn [flow set_flow]. unfold Semiflow_trajectory.
    rewrite Elin, Htraj. cbn [linear_layer set_traj set_flow].
    rewrite Hll.
    rewrite (Linear_forward_mismatch (2 + 0) 2 _ _ x [1] 4 eq_refl
               ltac:(discriminate)).
    reflexivity.
Qed.

Lemma zero_bank_scenario_witness :
  exists m, NeuralODE_init 2 2 2 0 "tanh" (1 # 1000) false zero_init = Ok m /\
  let x := mkTensor [1; 2] [1%R; 2%R] in
  (forall t, in_time_range t ->
     snd (Dynamics_forward (dynamics (flow m)) t x) = Ok (zeros [1; 2])
     /\ snd (fst (Dynamics_forward (dynamics (flow m)) t x)) = x) /\
  (exists flow', Semiflow_forward (flow m) x None = (flow', x, Ok x)) /\
  (exists m' pred pt,
     NeuralODE_forward None m x false = (m', x, Ok (pred, pt)) /\
     Linear_forward (linear_layer m) x = Ok pred /\
     pred = mkTensor [1; 2] [0%R; 0%R]).
Proof.
  eexists. split; [reflexivity|]. intros x.
  destruct (zero_bank_scenario "tanh" 2 (1 # 1000) false zero_init None [1]
              _ x (or_introl eq_refl) (conj (fun _ _ _ => eq_refl)
                                            (fun _ _ => eq_refl))
              eq_refl (conj eq_refl eq_refl))
    as (H1 & H2 & (m' & pred & pt & Hrun & Hpred & Hbias)).
  split; [exact H1|]. split; [exact H2|].
  exists m', pred, pt. split; [exact Hrun|]. split; [exact Hpred|].
  rewrite (Hbias (fun _ _ => eq_refl)). reflexivity.
Defined.

Lemma NeuralODE_forward_readout_witness :
  exists m, NeuralODE_init 1 1 2 0 "relu" (1 # 1000) false unit_bias_init
            = Ok m /\
  let x := mkTensor [3; 1] [(-1)%R; 0%R; 1%R] in
  exists m' x' features pred tr pt,
    NeuralODE_forward None m x true = (m', x', Ok (features, pred)) /\
    NeuralODE_forward None m x false = (m', x', Ok (pred, pt)) /\
    Linear_forward (linear_layer m) features = Ok pred /\
    traj m' = Some tr /\ proj_traj m' = Some pt /\
    Linear_forward (linear_layer m) tr = Ok pt /\
    forall i, i < time_steps ->
      exists state,
        index0 tr i = Ok state /\
        index0 pt i = Linear_forward (linear_layer m) state.
Proof.
  eexists. split; [reflexivity|]. intros x.
  apply (NeuralODE_forward_readout 1 2 unit_bias_init
           (init_weight unit_bias_init "linear_layer" 0)
           (init_bias unit_bias_init "linear_layer" 0) [3] None _ x x).
  - split; reflexivity.
  - reflexivity.
  - reflexivity.
  - split; reflexivity.
Defined.

Lemma Semiflow_forward_augmentation_witness :
  (exists d, Dynamics_init 2 2 0 "tanh" zero_init = Ok d /\
     let x := mkTensor [1; 2] [1%R; 2%R] in
     augment (set_nfe d 0) x = Ok x /\
     exists self' x' out,
       Semiflow_forward (Semiflow_init d (1 # 1000) false) x None
       = (self', x', Ok out) /\
       has_shape [1; 2] out) /\
  (exists d, Dynamics_init 2 3 1 "tanh" zero_init = Ok d /\
     let x := mkTensor [1; 2; 1] [1%R; 2%R] in
     exists x_aug,
       augment (set_nfe d 0) x = Ok x_aug /\
       has_shape [1; 3] x_aug /\
       (forall i, i < 1 ->
          row 3 i (data x_aug) = row 2 i (data x) ++ repeat 0%R 1) /\
       exists self' out,
         Semiflow_forward (Semiflow_init d (1 # 1000) false) x None
         = (self', x, Ok out) /\
         has_shape [1; 3] out).
Proof.
  split.
  - eexists. split; [reflexivity|]. intros x.
    apply (proj1 (Semiflow_forward_augmentation 2 2 0 "tanh" zero_init _
                    (1 # 1000) false x eq_refl eq_refl eq_refl)
                 eq_refl [1] eq_refl).
  - eexists. split; [reflexivity|]. intros x.
    apply (proj2 (Semiflow_forward_augmentation 2 3 1 "tanh" zero_init _
                    (1 # 1000) false x eq_refl eq_refl eq_refl)
                 ltac:(lia) 1 [2; 1] eq_refl ltac:(lia) eq_refl ltac:(lia)).
Defined.

Lemma Semiflow_trajectory_states_witness :
  exists d, Dynamics_init 1 1 0 "leakyrelu" unit_bias_init = Ok d /\
  let self := Semiflow_init d (1 # 1000) true in
  let x := mkTensor [2; 1] [(-4)%R; 1%R] in
  exists self' x' traj terminal,
    Semiflow_trajectory self x 3 = (self', x', Ok traj) /\
    Semiflow_forward self x None = (self', x', Ok terminal) /\
    length (linspace 0 T 3) = 3 /\
    strictly_increasing (linspace 0 T 3) = true /\
    (forall i, i < 3 ->
       (nth i (linspace 0 T 3) 0
        == inject_Z (Z.of_nat i) * (T / inject_Z (Z.of_nat (3 - 1))))%Q) /\
    has_shape [3; 2; 1] traj /\
    index0 traj 0 = Ok x /\
    index0 traj (3 - 1) = Ok terminal.
Proof.
  eexists. split; [reflexivity|]. intros self x.
  apply (Semiflow_trajectory_states 1 unit_bias_init [2] self x x 3).
  - split; reflexivity.
  - reflexivity.
  - split; reflexivity.
  - lia.
Defined.

(** ** What the in-place activation does to the integration *)

Lemma relu_idempotent (y : tensor) :
  tensor_map relu (tensor_map relu y) = tensor_map relu y.
Proof.
  unfold tensor_map. cbn [shape data]. f_equal. rewrite map_map.
  apply map_ext. intros v. unfold relu.
  apply Rmax_right. apply Rmax_l.
Qed.

(** With [relu] and a zero bank the field is zero, yet the Euler steps do
    not keep the state: the first query overwrites it with its positive
    part. *)
Lemma euler_final_relu_zero_bank (hd : nat) (theta : initializer)
    (lead : list nat) (grid : list Q) :
  zero_bank theta ->
  forall (d : Dynamics) (t0 t1 : Q) (y0 : tensor),
    constructed hd theta d -> non_linearity d = ReLU true ->
    has_shape (lead ++ [hd]) y0 ->
    Forall in_time_range (removelast (t0 :: t1 :: grid)) ->
    exists d',
      euler_final Dynamics_forward d t0 y0 (t1 :: grid)
      = (d', tensor_map relu y0, Ok (tensor_map relu y0)).
Proof.
  intros Hz. induction grid as [|t2 grid IH]; intros d t0 t1 y0 Hd Hn Hy Hok.
  - assert (Hok0 : in_time_range t0) by (inversion Hok; assumption).
    cbn [euler_final].
    rewrite (Dynamics_forward_zero_bank hd theta lead d t0 y0 Hd Hz Hok0
               (proj1 Hy)).
    rewrite Hn. cbn [activation_call is_inplace activation_fn fst bind].
    rewrite (add_scaled_zeros _ _ _ (tensor_map_has_shape relu _ _ Hy)).
    eexists. reflexivity.
  - assert (Hok0 : in_time_range t0) by (inversion Hok; assumption).
    assert (Hok' : Forall in_time_range (removelast (t1 :: t2 :: grid)))
      by (inversion Hok; assumption).
    pose proof (tensor_map_has_shape relu _ _ Hy) as Hy'.
    destruct (IH (set_nfe d (nfe d + 1)) t1 t2 (tensor_map relu y0)
                 (constructed_set_nfe _ _ _ _ Hd) Hn Hy' Hok') as [d' Hfin].
    change (euler_final Dynamics_forward d t0 y0 (t1 :: t2 :: grid))
      with (let '(s1, y0', r) := Dynamics_forward d t0 y0 in
            match (f0 <- r ;; add y0' (scale (Q2R (t1 - t0)) f0)) with
            | Raise e => (s1, y0', Raise e)
            | Ok y1 =>
                let '(s2, _, r2) :=
                  euler_final Dynamics_forward s1 t1 y1 (t2 :: grid) in
                (s2, y0', r2)
            end).
    rewrite (Dynamics_forward_zero_bank hd theta lead d t0 y0 Hd Hz Hok0
               (proj1 Hy)).
    rewrite Hn. cbn [activation_call is_inplace activation_fn fst bind].
    rewrite (add_scaled_zeros _ _ _ Hy'), Hfin, relu_idempotent.
    eexists. reflexivity.
Qed.

(** [Semiflow.forward] on the zero field with [relu]: the input [[[-1]]]
    comes back as [[[0]]], and holds [[[0]]] after the call. *)
Lemma Semiflow_forward_relu_zero_bank :
  exists d, Dynamics_init 1 1 0 "relu" zero_init = Ok d /\
  let x := mkTensor [1; 1] [(-1)%R] in
  exists self',
    Semiflow_forward (Semiflow_init d (1 # 1000) false) x None
    = (self', mkTensor [1; 1] [0%R], Ok (mkTensor [1; 1] [0%R])).
Proof.
  eexists. split; [reflexivity|]. intros x.
  set (self := Semiflow_init _ _ _).
  assert (Hc : constructed 1 zero_init (dynamics self)) by (split; reflexivity).
  assert (Hx : has_shape ([1] ++ [1]) x) by (split; reflexivity).
  destruct (Semiflow_forward_runs 1 zero_init [1] self x x 0%Q [T]
              Hc eq_refl Hx eq_refl (Qeq_refl 0) ltac:(discriminate)
              (Qeq_refl T))
    as (d' & y0' & yN & sols & Hfin & _ & Hterm & _).
  assert (Etl : tl time_grid
                = hd 0%Q (tl time_grid) :: tl (tl time_grid)) by reflexivity.
  rewrite Etl in Hfin.
  destruct (euler_final_relu_zero_bank 1 zero_init [1] (tl (tl time_grid))
              (conj (fun _ _ _ => eq_refl) (fun _ _ => eq_refl))
              (set_nfe (dynamics self) 0) 0%Q (hd 0%Q (tl time_grid)) x
              (constructed_set_nfe _ _ _ 0 Hc) eq_refl Hx)
    as [d2 Hfin2].
  { rewrite <- Etl. exact time_grid_queries. }
  rewrite Hfin in Hfin2. injection Hfin2 as -> -> ->.
  exists (set_dynamics self d2). rewrite Hterm.
  assert (E : tensor_map relu x = mkTensor [1; 1] [0%R]).
  { unfold tensor_map, x, relu. cbn [shape data map].
    rewrite Rmax_left by lra. reflexivity. }
  cbn [dynamics self Semiflow_init augment_dim Nat.ltb Nat.leb].
  rewrite E. reflexivity.
Qed.

(** * Further properties of the module *)

(** ** The step index outside [[0, T)] *)

Lemma step_index_cases (t : Q) :
  ((T <= t)%Q -> (15 <= int (t / dt))%Z) /\
  ((t <= - (T + dt))%Q -> (int (t / dt) <= -16)%Z) /\
  ((- (T + dt) < t)%Q -> (t <= - dt)%Q -> (-15 <= int (t / dt) <= -1)%Z) /\
  ((- dt < t)%Q -> (t < 0)%Q -> int (t / dt) = 0%Z).
Proof.
  destruct t as [a b].
  unfold Qle, Qlt, Qdiv, Qmult, Qinv, Qopp, Qplus, dt, T, int. simpl.
  assert (Hb : (0 < Z.pos b)%Z) by lia.
  assert (Hd : (Z.pos (b * 10) = Z.pos b * 10)%Z) by lia.
  rewrite Hd. repeat split.
  - intros H. apply Z.quot_le_lower_bound; lia.
  - intros H. apply Z.quot_le_upper_bound; lia.
  - assert (E : (a * 15 = - (- a * 15))%Z) by lia.
    rewrite E, Z.quot_opp_l by lia.
    assert ((- a * 15) ÷ (Z.pos b * 10) < 16)%Z; [|lia].
    apply Z.quot_lt_upper_bound; lia.
  - apply Z.quot_le_upper_bound; lia.
  - intros H1 H2.
    assert (E : (a * 15 = - (- a * 15))%Z) by lia.
    rewrite E, Z.quot_opp_l by lia.
    rewrite Z.quot_small by lia. reflexivity.
Qed.

Lemma blocks_getitem_negative (name : string) (inf outf : nat)
    (theta : initializer) (k : Z) :
  (- Z.of_nat time_steps <= k < 0)%Z ->
  Sequential_getitem (blocks name inf outf theta) k
  = Ok (nn_Linear inf outf
          (init_weight theta name (Z.to_nat (Z.of_nat time_steps + k)))
          (init_bias theta name (Z.to_nat (Z.of_nat time_steps + k)))).
Proof.
  intros Hk. unfold Sequential_getitem. rewrite blocks_length.
  replace ((- Z.of_nat time_steps <=? k)%Z) with true
    by (symmetry; apply Z.leb_le; lia).
  replace ((k <? Z.of_nat time_steps)%Z) with true
    by (symmetry; apply Z.ltb_lt; unfold time_steps in *; lia).
  cbn [andb].
  replace (k mod Z.of_nat time_steps)%Z with (Z.of_nat time_steps + k)%Z.
  - unfold blocks. rewrite nth_error_map, nth_error_seq.
    replace (Z.to_nat (Z.of_nat time_steps + k) <? time_steps) with true;
      [reflexivity|].
    symmetry. apply Nat.ltb_lt. lia.
  - apply (Z.mod_unique _ _ (-1)); unfold time_steps in *; lia.
Qed.

Lemma blocks_getitem_out_of_range (name : string) (inf outf : nat)
    (theta : initializer) (k : Z) :
  (Z.of_nat time_steps <= k \/ k < - Z.of_nat time_steps)%Z ->
  Sequential_getitem (blocks name inf outf theta) k = Raise IndexError.
Proof.
  intros Hk. unfold Sequential_getitem. rewrite blocks_length.
  destruct Hk as [Hk | Hk].
  - replace ((k <? Z.of_nat time_steps)%Z) with false
      by (symmetry; apply Z.ltb_ge; exact Hk).
    rewrite andb_false_r. reflexivity.
  - replace ((- Z.of_nat time_steps <=? k)%Z) with false
      by (symmetry; apply Z.leb_gt; exact Hk).
    reflexivity.
Qed.

(** X1.  Outside the time range the bank has no layer: for [t >= T] and
    for [t <= -(T + dt)], [Dynamics.forward] raises an [IndexError]; the
    counter has been incremented and the argument is untouched. *)
Theorem Dynamics_forward_out_of_range (hd : nat) (theta : initializer)
    (d : Dynamics) (t : Q) (x : tensor) :
  constructed hd theta d ->
  (T <= t)%Q \/ (t <= - (T + dt))%Q ->
  Dynamics_forward d t x = (set_nfe d (nfe d + 1), x, Raise IndexError).
Proof.
  intros [Hs Hb] Ht. unfold Dynamics_forward.
  cbn [species_ fc2_time set_nfe]. rewrite Hs, Hb.
  cbn [Z.ltb Z.compare getattr bind].
  rewrite blocks_getitem_out_of_range; [reflexivity|].
  destruct (step_index_cases t) as (H1 & H2 & _).
  destruct Ht as [Ht | Ht]; [left | right]; unfold time_steps.
  - specialize (H1 Ht). lia.
  - specialize (H2 Ht). lia.
Qed.

Lemma Dynamics_forward_out_of_range_witness :
  exists d, Dynamics_init 2 2 0 "relu" zero_init = Ok d /\
  let x := mkTensor [1; 2] [(-1)%R; 1%R] in
  Dynamics_forward d (21 # 2) x = (set_nfe d (nfe d + 1), x, Raise IndexError).
Proof.
  eexists. split; [reflexivity|]. intros x.
  apply (Dynamics_forward_out_of_range 2 zero_init _ (21 # 2) x).
  - split; reflexivity.
  - left. unfold Qle, T. simpl. lia.
Defined.

(** X2.  A negative time does not raise as long as [t > -(T + dt)]: the
    index [k = int(t/dt)] is truncated towards zero and a negative [k]
    counts from the end of the bank.  For [-dt < t < 0] the layer is that
    of the first step; for [-(T + dt) < t <= -dt] it is layer
    [time_steps + k]. *)
Theorem Dynamics_forward_negative_time (hd : nat) (theta : initializer)
    (d : Dynamics) (t : Q) (x : tensor) :
  constructed hd theta d ->
  (- (T + dt) < t)%Q -> (t < 0)%Q ->
  exists j,
    j < time_steps /\
    Z.of_nat j = (if Qle_bool t (- dt)
                  then Z.of_nat time_steps + int (t / dt)
                  else 0)%Z /\
    Dynamics_forward d t x
    = (set_nfe d (nfe d + 1),
       fst (activation_call (non_linearity d) x),
       Linear_forward
         (nn_Linear hd hd (init_weight theta "fc2_time" j)
                    (init_bias theta "fc2_time" j))
         (snd (activation_call (non_linearity d) x))).
Proof.
  intros [Hs Hb] Hlo Hhi.
  destruct (step_index_cases t) as (_ & _ & H3 & H4).
  unfold Dynamics_forward. cbn [species_ fc2_time non_linearity set_nfe].
  rewrite Hs, Hb. cbn [Z.ltb Z.compare getattr bind].
  destruct (Qle_bool t (- dt)) eqn:E.
  - apply Qle_bool_iff in E. specialize (H3 Hlo E).
    exists (Z.to_nat (Z.of_nat time_steps + int (t / dt))).
    split; [unfold time_steps in *; lia|].
    split; [unfold time_steps in *; lia|].
    rewrite blocks_getitem_negative by (unfold time_steps in *; lia).
    destruct (activation_call (non_linearity d) x). reflexivity.
  - apply Qle_bool_false in E. rewrite (H4 E Hhi).
    exists 0. split; [unfold time_steps; lia|]. split; [reflexivity|].
    rewrite (blocks_getitem "fc2_time" hd hd theta 0)
      by (unfold time_steps; lia).
    destruct (activation_call (non_linearity d) x). reflexivity.
Qed.

Lemma Dynamics_forward_negative_time_witness :
  exists d, Dynamics_init 2 2 0 "tanh" unit_bias_init = Ok d /\
  let x := mkTensor [1; 2] [1%R; 2%R] in
  exists j,
    j < time_steps /\
    Z.of_nat j = (if Qle_bool (-1) (- dt)
                  then Z.of_nat time_steps + int (-1 / dt)
                  else 0)%Z /\
    Dynamics_forward d (-1) x
    = (set_nfe d (nfe d + 1),
       fst (activation_call (non_linearity d) x),
       Linear_forward
         (nn_Linear 2 2 (init_weight unit_bias_init "fc2_time" j)
                    (init_bias unit_bias_init "fc2_time" j))
         (snd (activation_call (non_linearity d) x))).
Proof.
  eexists. split; [reflexivity|]. intros x.
  apply (Dynamics_forward_negative_time 2 unit_bias_init _ (-1) x).
  - split; reflexivity.
  - reflexivity.
  - reflexivity.
Defined.

(** ** Shape errors of the derivative *)

Lemma Linear_forward_rank_0 (inf outf : nat) (w : nat -> nat -> R)
    (b : nat -> R) (x : tensor) :
  shape x = [] ->
  Linear_forward (nn_Linear inf outf w b) x = Raise RuntimeError.
Proof.
  intros Ex. unfold Linear_forward. simpl. unfold matmul. simpl.
  rewrite Ex. reflexivity.
Qed.

Lemma activation_call_shape (a : activation) (x : tensor) :
  shape (fst (activation_call a x)) = shape x /\
  shape (snd (activation_call a x)) = shape x.
Proof.
  unfold activation_call. destruct (is_inplace a); split; reflexivity.
Qed.

(** X3.  In range, a state of rank 0 or with a last axis other than
    [hidden_dim] makes [Dynamics.forward] raise a [RuntimeError].  The
    call has been counted, and the activation module has already been
    applied: with an in-place activation the argument is overwritten
    although the call fails. *)
Theorem Dynamics_forward_shape_error (hd : nat) (theta : initializer)
    (d : Dynamics) (t : Q) (x : tensor) :
  constructed hd theta d -> in_time_range t ->
  shape x = [] \/ (exists lead k, shape x = lead ++ [k] /\ k <> hd) ->
  Dynamics_forward d t x
  = (set_nfe d (nfe d + 1),
     (if is_inplace (non_linearity d)
      then tensor_map (activation_fn (non_linearity d)) x else x),
     Raise RuntimeError).
Proof.
  intros Hd Ht Hx.
  rewrite (Dynamics_forward_in_range hd theta d t x Hd Ht).
  destruct (activation_call_shape (non_linearity d) x) as [_ Es].
  assert (E : Linear_forward
                (nn_Linear hd hd
                   (init_weight theta "fc2_time" (Z.to_nat (int (t / dt))))
                   (init_bias theta "fc2_time" (Z.to_nat (int (t / dt)))))
                (snd (activation_call (non_linearity d) x))
              = Raise RuntimeError).
  { destruct Hx as [Ex | (lead & k & Ex & Hk)].
    - apply Linear_forward_rank_0. congruence.
    - apply (Linear_forward_mismatch hd hd _ _ _ lead k); congruence. }
  rewrite E. unfold activation_call.
  destruct (is_inplace (non_linearity d)); reflexivity.
Qed.

Lemma Dynamics_forward_shape_error_witness :
  exists d, Dynamics_init 2 4 0 "relu" zero_init = Ok d /\
  let x := mkTensor [1; 2] [(-1)%R; 1%R] in
  Dynamics_forward d 0 x
  = (set_nfe d (nfe d + 1),
     (if is_inplace (non_linearity d)
      then tensor_map (activation_fn (non_linearity d)) x else x),
     Raise RuntimeError).
Proof.
  eexists. split; [reflexivity|]. intros x.
  apply (Dynamics_forward_shape_error 4 zero_init _ 0 x).
  - split; reflexivity.
  - split; [unfold Qle; simpl; lia | reflexivity].
  - right. exists [1], 2. split; [reflexivity | discriminate].
Defined.

(** ** What the calls leave in the object and in the argument *)

Lemma Dynamics_forward_object (d : Dynamics) (t : Q) (x : tensor) :
  fst (fst (Dynamics_forward d t x)) = set_nfe d (nfe d + 1).
Proof.
  unfold Dynamics_forward. cbn [species_ fc2_time fc1_time fc3_time set_nfe].
  destruct (species_ d <? 1)%Z.
  - destruct (l <- getattr (fc2_time d) ;; Sequential_getitem l _);
      [|reflexivity].
    destruct (species_ d <? 0)%Z; [|reflexivity].
    destruct (activation_call _ x). reflexivity.
  - destruct (l <- getattr (fc1_time d) ;; Sequential_getitem l _);
      [|reflexivity].
    destruct (l <- getattr (fc3_time d) ;; Sequential_getitem l _);
      reflexivity.
Qed.

Lemma Dynamics_forward_keeps_argument (d : Dynamics) (t : Q) (x : tensor) :
  is_inplace (non_linearity d) = false \/ (0 <= species_ d)%Z ->
  snd (fst (Dynamics_forward d t x)) = x.
Proof.
  intros H. unfold Dynamics_forward.
  cbn [species_ fc2_time fc1_time fc3_time set_nfe non_linearity].
  destruct (species_ d <? 1)%Z.
  - destruct (l <- getattr (fc2_time d) ;; Sequential_getitem l _);
      [|reflexivity].
    destruct (species_ d <? 0)%Z eqn:E0; [|reflexivity].
    destruct H as [Hin | Hs].
    + rewrite (activation_call_not_inplace _ _ Hin). reflexivity.
    + apply Z.ltb_lt in E0. lia.
  - destruct (l <- getattr (fc1_time d) ;; Sequential_getitem l _);
      [|reflexivity].
    destruct (l <- getattr (fc3_time d) ;; Sequential_getitem l _);
      reflexivity.
Qed.

(** X4.  [Dynamics.forward] leaves its argument as it was whenever the
    activation is not in place, and also whenever the mode is not the
    [w sigma(x) + b] one ([species >= 0]): there the activation is applied
    to a temporary.  This holds for every object, time and argument, also
    when the call raises. *)
Theorem Dynamics_forward_argument_kept (d : Dynamics) (t : Q) (x : tensor) :
  is_inplace (non_linearity d) = false \/ (0 <= species_ d)%Z ->
  snd (fst (Dynamics_forward d t x)) = x.
Proof. exact (Dynamics_forward_keeps_argument d t x). Qed.

Lemma Dynamics_forward_argument_kept_witness :
  let d := mkDynamics 0 1 1 1 0 (ReLU true) 0%Z None None
             (Some (blocks "fc2_time" 1 1 unit_bias_init)) in
  let x := mkTensor [1; 1] [(-1)%R] in
  snd (fst (Dynamics_forward d 0 x)) = x.
Proof.
  intros d x. apply (Dynamics_forward_argument_kept d 0 x).
  right. simpl. lia.
Defined.

Lemma euler_loop_object {S : Type} (func : callable S) (P : S -> Prop) :
  (forall s t y, P s -> P (fst (fst (func s t y)))) ->
  forall grid s t0 y0 ts,
    P s -> P (fst (fst (euler_loop func s t0 y0 grid ts))).
Proof.
  intros HP. induction grid as [|t1 grid IH]; intros s t0 y0 ts Hs;
    [exact Hs|].
  cbn [euler_loop]. specialize (HP s t0 y0 Hs).
  destruct (func s t0 y0) as [[s1 y0'] r]. cbn [fst] in HP.
  destruct (f0 <- r ;; add y0' (scale (Q2R (t1 - t0)) f0)) as [y1|e];
    [|exact HP].
  destruct (fill_solution t0 t1 y0' y1 ts) as [[sols|e] ts']; [|exact HP].
  specialize (IH s1 t1 y1 ts' HP).
  destruct (euler_loop func s1 t1 y1 grid ts') as [[s2 yy] r2]. exact IH.
Qed.

Lemma euler_loop_argument {S : Type} (func : callable S) :
  forall grid s t0 y0 ts,
    snd (fst (euler_loop func s t0 y0 grid ts))
    = match grid with
      | [] => y0
      | _ :: _ => snd (fst (func s t0 y0))
      end.
Proof.
  intros [|t1 grid] s t0 y0 ts; [reflexivity|].
  cbn [euler_loop].
  destruct (func s t0 y0) as [[s1 y0'] r].
  destruct (f0 <- r ;; add y0' (scale (Q2R (t1 - t0)) f0)) as [y1|e];
    [|reflexivity].
  destruct (fill_solution t0 t1 y0' y1 ts) as [[sols|e] ts']; [|reflexivity].
  destruct (euler_loop func s1 t1 y1 grid ts') as [[s2 yy] r2]. reflexivity.
Qed.

Lemma odeint_object {S : Type} (func : callable S) (P : S -> Prop) :
  (forall s t y, P s -> P (fst (fst (func s t y)))) ->
  forall s y0 t h, P s -> P (fst (fst (odeint func s y0 t h))).
Proof.
  intros HP s y0 t h Hs. unfold odeint.
  destruct (negb (strictly_increasing t)); [exact Hs|].
  destruct t as [|t_first ts]; [exact Hs|].
  destruct (grid_constructor h (t_first :: ts)) as [|g0 grid]; [exact Hs|].
  destruct (Qeq_bool g0 t_first && _); [|exact Hs].
  pose proof (euler_loop_object func P HP grid s g0 y0 ts Hs) as H.
  destruct (euler_loop func s g0 y0 grid ts) as [[s' y0'] r]. exact H.
Qed.

Lemma odeint_argument {S : Type} (func : callable S) (s : S) :
  (forall t y, snd (fst (func s t y)) = y) ->
  forall y0 t h, snd (fst (odeint func s y0 t h)) = y0.
Proof.
  intros HK y0 t h. unfold odeint.
  destruct (negb (strictly_increasing t)); [reflexivity|].
  destruct t as [|t_first ts]; [reflexivity|].
  destruct (grid_constructor h (t_first :: ts)) as [|g0 grid]; [reflexivity|].
  destruct (Qeq_bool g0 t_first && _); [|reflexivity].
  pose proof (euler_loop_argument func grid s g0 y0 ts) as H.
  destruct (euler_loop func s g0 y0 grid ts) as [[s' y0'] r].
  cbn [fst snd] in *. rewrite H. destruct grid; [reflexivity | apply HK].
Qed.

Lemma Semiflow_forward_counter_only (self : Semiflow) (x : tensor)
    (eval_times : option (list Q)) :
  exists k,
    fst (fst (Semiflow_forward self x eval_times))
    = set_dynamics self (set_nfe (dynamics self) k).
Proof.
  unfold Semiflow_forward.
  set (d0 := set_nfe (dynamics self) 0).
  set (times := match eval_times with None => [0%Q; T] | Some t => t end).
  destruct (augment d0 x) as [x_aug|e]; [|exists 0; reflexivity].
  assert (H : exists k, fst (fst (odeint Dynamics_forward d0 x_aug times dt))
                        = set_nfe (dynamics self) k).
  { apply (odeint_object Dynamics_forward
             (fun d => exists k, d = set_nfe (dynamics self) k)).
    - intros d t y [k ->]. rewrite Dynamics_forward_object.
      eexists. reflexivity.
    - exists 0. reflexivity. }
  destruct H as [k Hk]. exists k.
  destruct (adjoint self); unfold odeint_adjoint;
    destruct (odeint Dynamics_forward d0 x_aug times dt) as [[d1 x'] out];
    cbn [fst snd] in *; rewrite Hk; reflexivity.
Qed.

(** X5.  [Semiflow.forward] changes nothing in the object but the
    counter of its [Dynamics]: whatever the input and the requested
    times, and also when the call raises, the object after the call is the
    object before the call with some counter value. *)
Theorem Semiflow_forward_object (self : Semiflow) (x : tensor)
    (eval_times : option (list Q)) :
  exists k,
    fst (fst (Semiflow_forward self x eval_times))
    = set_dynamics self (set_nfe (dynamics self) k).
Proof. exact (Semiflow_forward_counter_only self x eval_times). Qed.

Lemma Semiflow_forward_keeps_input (self : Semiflow) (x : tensor)
    (eval_times : option (list Q)) :
  0 < augment_dim (dynamics self)
  \/ is_inplace (non_linearity (dynamics self)) = false
  \/ (0 <= species_ (dynamics self))%Z ->
  snd (fst (Semiflow_forward self x eval_times)) = x.
Proof.
  intros H. unfold Semiflow_forward.
  set (d0 := set_nfe (dynamics self) 0).
  set (times := match eval_times with None => [0%Q; T] | Some t => t end).
  destruct (augment d0 x) as [x_aug|e] eqn:Ea; [|reflexivity].
  assert (Hpost : forall r : Dynamics * tensor * result tensor,
             snd (fst (let '(d1, x_aug', out) := r in
                       (set_dynamics self d1,
                        if 0 <? augment_dim d0 then x else x_aug',
                        match eval_times with
                        | None => o <- out ;; index0 o 1
                        | Some _ => out
                        end)))
             = if 0 <? augment_dim d0 then x else snd (fst r)).
  { intros [[d1 x'] out]. reflexivity. }
  assert (E : (if 0 <? augment_dim d0 then x
               else snd (fst (odeint Dynamics_forward d0 x_aug times dt)))
              = x).
  { destruct (0 <? augment_dim d0) eqn:Ead; [reflexivity|].
    unfold augment in Ea. rewrite Ead in Ea. injection Ea as <-.
    apply odeint_argument. intros t y.
    apply Dynamics_forward_keeps_argument.
    apply Nat.ltb_ge in Ead. cbn [augment_dim d0 set_nfe] in Ead.
    destruct H as [H | [H | H]]; [lia | left; exact H | right; exact H]. }
  destruct (adjoint self); unfold odeint_adjoint; rewrite Hpost; exact E.
Qed.

(** X6.  [Semiflow.forward] leaves its input as it was whenever the input
    is augmented, or the activation is not in place, or the mode is not
    the [w sigma(x) + b] one; for every object, input and requested times,
    also when the call raises. *)
Theorem Semiflow_forward_input_kept (self : Semiflow) (x : tensor)
    (eval_times : option (list Q)) :
  0 < augment_dim (dynamics self)
  \/ is_inplace (non_linearity (dynamics self)) = false
  \/ (0 <= species_ (dynamics self))%Z ->
  snd (fst (Semiflow_forward self x eval_times)) = x.
Proof. exact (Semiflow_forward_keeps_input self x eval_times). Qed.

Lemma Semiflow_forward_input_kept_witness :
  exists d, Dynamics_init 1 2 1 "leakyrelu" unit_bias_init = Ok d /\
  let x := mkTensor [1; 1] [(-4)%R] in
  snd (fst (Semiflow_forward (Semiflow_init d (1 # 1000) false) x None)) = x.
Proof.
  eexists. split; [reflexivity|]. intros x.
  apply (Semiflow_forward_input_kept _ x None).
  left. simpl. lia.
Defined.



(** ** The derivative, entry by entry *)

Lemma nth_row (c i j : nat) (l : list R) :
  j < c -> nth j (row c i l) 0%R = nth (i * c + j) l 0%R.
Proof.
  intros Hj. unfold row. rewrite nth_firstn.
  replace (j <? c) with true by (symmetry; apply Nat.ltb_lt; exact Hj).
  apply nth_skipn.
Qed.

Lemma nth_flat_map_map (g : nat -> nat -> R) (r c i j : nat) :
  i < r -> j < c ->
  nth (i * c + j) (flat_map (fun i => map (g i) (seq 0 c)) (seq 0 r)) 0%R
  = g i j.
Proof.
  intros Hi Hj. rewrite <- nth_row by exact Hj.
  rewrite flat_map_concat_map, row_concat.
  - rewrite (nth_indep _ [] (map (g 0) (seq 0 c)))
      by (rewrite length_map, length_seq; exact Hi).
    rewrite (map_nth (fun i => map (g i) (seq 0 c))), seq_nth by exact Hi.
    rewrite (nth_indep _ 0%R (g i 0))
      by (rewrite length_map, length_seq; exact Hj).
    rewrite map_nth, seq_nth by exact Hj. reflexivity.
  - apply Forall_map, Forall_forall. intros k _.
    rewrite length_map, length_seq. reflexivity.
  - rewrite length_map, length_seq. exact Hi.
Qed.

(** Column [j] of the transposed weight is row [j] of the weight. *)
Lemma column_t_weight (inf outf : nat) (w : nat -> nat -> R) (j : nat) :
  j < outf ->
  column (mkTensor [inf; outf]
            (flat_map
               (fun j' => map (fun i' =>
                  nth (i' * inf + j')
                      (flat_map (fun i => map (fun j => w i j) (seq 0 inf))
                                (seq 0 outf)) 0%R)
                  (seq 0 outf))
               (seq 0 inf)))
         inf outf j
  = map (w j) (seq 0 inf).
Proof.
  intros Hj. unfold column. cbn [data]. apply map_ext_in.
  intros i Hi. apply in_seq in Hi.
  rewrite (nth_flat_map_map
             (fun j' i' => nth (i' * inf + j')
                (flat_map (fun i => map (fun j => w i j) (seq 0 inf))
                          (seq 0 outf)) 0%R) inf outf i j)
    by lia.
  apply (nth_flat_map_map w outf inf j i); lia.
Qed.

Lemma broadcast_last_map_seq (h b : nat -> R) (k i m : nat) :
  i + m <= k ->
  broadcast_last Rplus k i (map h (seq i m)) (map b (seq 0 k))
  = map (fun j => (h j + b j)%R) (seq i m).
Proof.
  revert i. induction m as [|m IH]; intros i Hi; [reflexivity|].
  cbn [seq map broadcast_last]. rewrite Nat.mod_small by lia.
  rewrite (nth_indep _ 0%R (b 0)) by (rewrite length_map, length_seq; lia).
  rewrite map_nth, seq_nth by lia. cbn [Nat.add].
  rewrite IH by lia. reflexivity.
Qed.

(** A layer built by [nn.Linear], row by row: entry [j] of row [r] of the
    result is the product of row [r] of the input with row [j] of the
    weight, plus entry [j] of the bias. *)
Lemma Linear_forward_rows (inf outf : nat) (w : nat -> nat -> R)
    (b : nat -> R) (x : tensor) (lead : list nat) :
  shape x = lead ++ [inf] ->
  Linear_forward (nn_Linear inf outf w b) x
  = Ok (mkTensor (lead ++ [outf])
          (flat_map
             (fun r => map (fun j => (dot (row inf r (data x))
                                          (map (w j) (seq 0 inf)) + b j)%R)
                           (seq 0 outf))
             (seq 0 (numel lead)))).
Proof.
  intros Ex. unfold Linear_forward.
  cbn [weight nn_Linear tensor_t shape data bind].
  erewrite (matmul_ok x _ lead inf outf); [|reflexivity|exact Ex].
  cbn [bind].
  unfold add. rewrite (elementwise_bias Rplus lead outf) by reflexivity.
  cbn [shape data bias nn_Linear]. f_equal. f_equal.
  rewrite !flat_map_concat_map.
  rewrite (broadcast_last_concat Rplus outf 1).
  - rewrite map_map. f_equal. apply map_ext. intros r.
    rewrite (map_ext_in _
               (fun j => dot (row inf r (data x)) (map (w j) (seq 0 inf)))).
    + apply (broadcast_last_map_seq _ b outf 0 outf). lia.
    + intros j Hj. apply in_seq in Hj.
      rewrite <- !flat_map_concat_map.
      rewrite column_t_weight by lia. reflexivity.
  - apply Forall_map, Forall_forall. intros r _.
    rewrite length_map, length_seq. lia.
Qed.

Lemma row_map (f : R -> R) (c i : nat) (l : list R) :
  row c i (map f l) = map f (row c i l).
Proof. unfold row. rewrite skipn_map, firstn_map. reflexivity. Qed.

Lemma row_flat_map_map (g : nat -> nat -> R) (r c i : nat) :
  i < r ->
  row c i (flat_map (fun i => map (g i) (seq 0 c)) (seq 0 r))
  = map (g i) (seq 0 c).
Proof.
  intros Hi. rewrite flat_map_concat_map, row_concat.
  - rewrite (nth_indep _ [] (map (g 0) (seq 0 c)))
      by (rewrite length_map, length_seq; exact Hi).
    rewrite (map_nth (fun i => map (g i) (seq 0 c))), seq_nth by exact Hi.
    reflexivity.
  - apply Forall_map, Forall_forall. intros k _.
    rewrite length_map, length_seq. reflexivity.
  - rewrite length_map, length_seq. exact Hi.
Qed.

(** X8.  In range and on a state whose last axis has size [hidden_dim],
    [Dynamics.forward] returns a tensor of the shape of the state whose
    row [r] is [W sigma(x_r) + b], with [W] and [b] the weight and bias of
    the layer of the step: entry [j] is the sum over [i] of
    [sigma(x_r[i]) * W[j][i]], plus [b[j]]. *)
Theorem Dynamics_forward_rows (hd : nat) (theta : initializer)
    (lead : list nat) (d : Dynamics) (t : Q) (x : tensor) :
  constructed hd theta d -> in_time_range t ->
  has_shape (lead ++ [hd]) x ->
  exists out,
    snd (Dynamics_forward d t x) = Ok out /\
    has_shape (lead ++ [hd]) out /\
    forall r, r < numel lead ->
      row hd r (data out)
      = map (fun j =>
               (dot (map (activation_fn (non_linearity d))
                         (row hd r (data x)))
                    (map (init_weight theta "fc2_time"
                            (Z.to_nat (int (t / dt))) j)
                         (seq 0 hd))
                + init_bias theta "fc2_time" (Z.to_nat (int (t / dt))) j)%R)
            (seq 0 hd).
Proof.
  intros Hd Ht [Ex Lx].
  rewrite (Dynamics_forward_in_range hd theta d t x Hd Ht). cbn [snd].
  assert (Es : snd (activation_call (non_linearity d) x)
               = tensor_map (activation_fn (non_linearity d)) x).
  { unfold activation_call. destruct (is_inplace _); reflexivity. }
  rewrite Es.
  rewrite (Linear_forward_rows hd hd _ _ _ lead) by exact Ex.
  eexists. split; [reflexivity|]. split.
  - split; [reflexivity|]. cbn [data].
    rewrite (flat_map_length_const _ _ hd)
      by (intros; rewrite length_map, length_seq; reflexivity).
    rewrite length_seq, numel_app. simpl. lia.
  - intros r Hr. cbn [data tensor_map].
    rewrite (row_flat_map_map
               (fun r j =>
                  (dot (row hd r (map (activation_fn (non_linearity d))
                                      (data x)))
                       (map (init_weight theta "fc2_time"
                               (Z.to_nat (int (t / dt))) j) (seq 0 hd))
                   + init_bias theta "fc2_time"
                       (Z.to_nat (int (t / dt))) j)%R)
               (numel lead) hd r Hr).
    apply map_ext. intros j. rewrite row_map. reflexivity.
Qed.

Lemma Dynamics_forward_rows_witness :
  exists d, Dynamics_init 2 2 0 "relu" unit_bias_init = Ok d /\
  let x := mkTensor [1; 2] [(-1)%R; 1%R] in
  exists out,
    snd (Dynamics_forward d (1 # 2) x) = Ok out /\
    has_shape [1; 2] out /\
    forall r, r < 1 ->
      row 2 r (data out)
      = map (fun j =>
               (dot (map (activation_fn (non_linearity d))
                         (row 2 r (data x)))
                    (map (init_weight unit_bias_init "fc2_time"
                            (Z.to_nat (int ((1 # 2) / dt))) j)
                         (seq 0 2))
                + init_bias unit_bias_init "fc2_time"
                    (Z.to_nat (int ((1 # 2) / dt))) j)%R)
            (seq 0 2).
Proof.
  eexists. split; [reflexivity|]. intros x.
  apply (Dynamics_forward_rows 2 unit_bias_init [1] _ (1 # 2) x).
  - split; reflexivity.
  - split; [unfold Qle; simpl; lia | reflexivity].
  - split; reflexivity.
Defined.

(** ** The first query of an integration over [[0, T]] *)

(** The integrator's first query is made at time [0] on the initial state
    itself: what it leaves in its argument is what the integrator leaves
    in the initial state, and an exception it raises ends the
    integration. *)
Lemma odeint_first_query {S : Type} (func : callable S) (s : S)
    (y0 : tensor) (t_first : Q) (ts : list Q) :
  time_compatible func ->
  strictly_increasing (t_first :: ts) = true ->
  (t_first == 0)%Q -> ts <> [] -> (last ts 0 == T)%Q ->
  snd (fst (odeint func s y0 (t_first :: ts) dt))
  = snd (fst (func s 0%Q y0)) /\
  (forall e, snd (func s 0%Q y0) = Raise e ->
     odeint func s y0 (t_first :: ts) dt
     = (fst (fst (func s 0%Q y0)), snd (fst (func s 0%Q y0)), Raise e)).
Proof.
  intros Hc Hinc Hfirst Hne Hlast.
  destruct time_grid_facts as (_ & _ & _ & Hghd & Hglast).
  assert (Elast : last (t_first :: ts) 0%Q = last ts 0%Q).
  { destruct ts; [contradiction | reflexivity]. }
  assert (HG : Forall2 Qeq (grid_constructor dt (t_first :: ts)) time_grid).
  { apply grid_constructor_ext; [exact Hfirst|].
    rewrite Elast. exact Hlast. }
  assert (Etg : time_grid = hd 0%Q time_grid :: tl time_grid) by reflexivity.
  unfold odeint. rewrite Hinc. cbn [negb].
  destruct (grid_constructor dt (t_first :: ts)) as [|g0 grid] eqn:EG.
  { rewrite Etg in HG. inversion HG. }
  assert (Hg0 : (g0 == 0)%Q).
  { rewrite Etg in HG. inversion HG; subst. rewrite <- Hghd. assumption. }
  assert (Hgrid : Forall2 Qeq grid (tl time_grid)).
  { rewrite Etg in HG. inversion HG; subst. assumption. }
  assert (Hlastg : (last (g0 :: grid) 0 == T)%Q).
  { rewrite (Forall2_Qeq_last _ _ HG). exact Hglast. }
  rewrite (Qeq_bool_true g0 t_first) by (rewrite Hg0, Hfirst; reflexivity).
  rewrite (Qeq_bool_true (last (g0 :: grid) 0%Q) (last (t_first :: ts) 0%Q))
    by (rewrite Elast, Hlastg, Hlast; reflexivity).
  cbn [andb].
  destruct grid as [|t1 grid]; [inversion Hgrid|].
  cbn [euler_loop]. rewrite (Hc s g0 0%Q y0 Hg0).
  destruct (func s 0%Q y0) as [[s1 y0'] r]. cbn [fst snd].
  destruct r as [f0|e]; cbn [bind].
  - split; [|discriminate].
    destruct (add y0' (scale (Q2R (t1 - g0)) f0)) as [y1|e]; [|reflexivity].
    destruct (fill_solution g0 t1 y0' y1 ts) as [[sols|e] ts'];
      [|reflexivity].
    destruct (euler_loop func s1 t1 y1 grid ts') as [[s2 yy] r2].
    reflexivity.
  - split; [reflexivity|]. intros e' He. injection He as <-. reflexivity.
Qed.

(** The first query of [Semiflow.forward] on a constructed [Dynamics]. *)
Lemma Semiflow_forward_first_query (hd : nat) (theta : initializer)
    (self : Semiflow) (x x_aug : tensor) (t_first : Q) (ts : list Q) :
  constructed hd theta (dynamics self) ->
  augment (set_nfe (dynamics self) 0) x = Ok x_aug ->
  strictly_increasing (t_first :: ts) = true ->
  (t_first == 0)%Q -> ts <> [] -> (last ts 0 == T)%Q ->
  let after :=
    if 0 <? augment_dim (dynamics self) then x
    else fst (activation_call (non_linearity (dynamics self)) x_aug) in
  snd (fst (Semiflow_forward self x (Some (t_first :: ts)))) = after /\
  snd (fst (Semiflow_forward self x None)) = after /\
  (shape x_aug = [] \/ (exists lead k, shape x_aug = lead ++ [k] /\ k <> hd) ->
   Semiflow_forward self x (Some (t_first :: ts))
   = (set_dynamics self (set_nfe (dynamics self) 1), after,
      Raise RuntimeError) /\
   Semiflow_forward self x None
   = (set_dynamics self (set_nfe (dynamics self) 1), after,
      Raise RuntimeError)).
Proof.
  intros Hd Haug Hinc Hfirst Hne Hlast after.
  set (d0 := set_nfe (dynamics self) 0) in *.
  assert (Hd0 : constructed hd theta d0)
    by (apply constructed_set_nfe; exact Hd).
  assert (H0 : in_time_range 0%Q)
    by (split; [unfold Qle; simpl; lia | reflexivity]).
  pose proof (Dynamics_forward_in_range hd theta d0 0%Q x_aug Hd0 H0) as Hq.
  destruct (odeint_first_query Dynamics_forward d0 x_aug t_first ts
              Dynamics_forward_time_compatible Hinc Hfirst Hne Hlast)
    as [Ha Hr].
  destruct (odeint_first_query Dynamics_forward d0 x_aug 0%Q [T]
              Dynamics_forward_time_compatible eq_refl (Qeq_refl 0)
              ltac:(discriminate) (Qeq_refl T))
    as [Ha' Hr'].
  rewrite Hq in Ha, Hr, Ha', Hr'. cbn [fst snd] in Ha, Hr, Ha', Hr'.
  unfold Semiflow_forward. fold d0. rewrite Haug.
  change (augment_dim d0) with (augment_dim (dynamics self)).
  split; [|split].
  - destruct (adjoint self); unfold odeint_adjoint;
      destruct (odeint Dynamics_forward d0 x_aug (t_first :: ts) dt)
        as [[d1 x'] out]; cbn [fst snd] in *; subst x'; reflexivity.
  - destruct (adjoint self); unfold odeint_adjoint;
      destruct (odeint Dynamics_forward d0 x_aug [0%Q; T] dt)
        as [[d1 x'] out]; cbn [fst snd] in *; subst x'; reflexivity.
  - intros Hx.
    assert (E : Linear_forward
                  (nn_Linear hd hd
                     (init_weight theta "fc2_time" (Z.to_nat (int (0 / dt))))
                     (init_bias theta "fc2_time" (Z.to_nat (int (0 / dt)))))
                  (snd (activation_call (non_linearity d0) x_aug))
                = Raise RuntimeError).
    { destruct (activation_call_shape (non_linearity d0) x_aug) as [_ Es].
      destruct Hx as [Ex | (lead & k & Ex & Hk)].
      - apply Linear_forward_rank_0. congruence.
      - apply (Linear_forward_mismatch hd hd _ _ _ lead k); congruence. }
    unfold odeint_adjoint.
    rewrite (Hr RuntimeError E), (Hr' RuntimeError E).
    destruct (adjoint self); split; reflexivity.
Qed.

(** ** The width a model needs *)

(** X9.  A model built by [NeuralODE.__init__] works on inputs of shape
    [[b; data_dim]] exactly when [hidden_dim = data_dim + augment_dim]:
    then [NeuralODE.forward] returns, otherwise it raises a
    [RuntimeError], the layers of the parameter bank being
    [hidden_dim] wide whatever the width of the state. *)
Theorem NeuralODE_forward_width (dd hd od ad : nat) (name : string)
    (tol : Q) (adj : bool) (theta : initializer)
    (file : option (list tensor)) (m : NeuralODE) (x : tensor) (b : nat)
    (rf : bool) :
  NeuralODE_init dd hd od ad name tol adj theta = Ok m ->
  well_formed x -> shape x = [b; dd] -> numel (shape x) <> 0 ->
  (hd = dd + ad ->
   exists out, snd (NeuralODE_forward file m x rf) = Ok out) /\
  (hd <> dd + ad ->
   snd (NeuralODE_forward file m x rf) = Raise RuntimeError).
Proof.
  intros Hm Hwf Ex Hne.
  destruct (NeuralODE_init_inv _ _ _ _ _ _ _ _ _ Hm) as (d & Hd & Hflow & Hll).
  pose proof (constructed_init _ _ _ _ _ _ Hd) as Hc.
  destruct (Dynamics_init_inv _ _ _ _ _ _ Hd) as [act [_ Ed]].
  assert (Edyn : dynamics (flow m) = d) by (rewrite Hflow; reflexivity).
  assert (Ead : augment_dim d = ad) by (rewrite Ed; reflexivity).
  assert (Haug : exists x_aug,
             augment (set_nfe (dynamics (flow m)) 0) x = Ok x_aug /\
             has_shape ([b] ++ [dd + ad]) x_aug).
  { rewrite Edyn. destruct ad as [|ad'].
    - exists x. split; [apply augment_none; rewrite Ed; reflexivity|].
      rewrite Nat.add_0_r. split; [exact Ex|].
      unfold well_formed in Hwf. rewrite Hwf, Ex. reflexivity.
    - destruct (augment_pad (set_nfe d 0) x b [dd]) as (x_aug & Ha & Hs & _);
        try assumption.
      + cbn [augment_dim set_nfe]. rewrite Ead. lia.
      + exists x_aug. split; [exact Ha|].
        cbn [augment_dim set_nfe] in Hs. rewrite Ead in Hs.
        replace (numel [dd]) with dd in Hs by (simpl; lia). exact Hs. }
  destruct Haug as (x_aug & Haug & Hx).
  rewrite <- Edyn in Hc.
  split.
  - intros Ehd. rewrite <- Ehd in Hx, Hll.
    destruct (NeuralODE_forward_runs hd od theta _ _ [b] file m x x_aug
                Hc Hll Haug Hx)
      as (flow1 & x1 & features & flow2 & x2 & tr & terminal & pred & pt
          & _ & _ & _ & Hfw & _).
    rewrite (Hfw rf). eexists. reflexivity.
  - intros Hhd.
    destruct (Semiflow_forward_first_query hd theta (flow m) x x_aug 0%Q [T]
                Hc Haug eq_refl (Qeq_refl 0) ltac:(discriminate)
                (Qeq_refl T))
      as (_ & _ & Hfail).
    destruct Hfail as [_ Hnone].
    { right. exists [b], (dd + ad). split; [apply Hx | lia]. }
    unfold NeuralODE_forward. rewrite Hnone. reflexivity.
Qed.

Lemma NeuralODE_forward_width_witness :
  (exists m,
     NeuralODE_init 1 2 1 1 "tanh" (1 # 1000) false zero_init = Ok m /\
     exists out,
       snd (NeuralODE_forward None m (mkTensor [1; 1] [1%R]) false) = Ok out)
  /\
  (exists m,
     NeuralODE_init 1 4 1 1 "tanh" (1 # 1000) false zero_init = Ok m /\
     snd (NeuralODE_forward None m (mkTensor [1; 1] [1%R]) false)
     = Raise RuntimeError).
Proof.
  split.
  - eexists. split; [reflexivity|].
    apply (proj1 (NeuralODE_forward_width 1 2 1 1 "tanh" (1 # 1000) false
                    zero_init None _ (mkTensor [1; 1] [1%R]) 1 false
                    eq_refl eq_refl eq_refl ltac:(simpl; lia))).
    reflexivity.
  - eexists. split; [reflexivity|].
    apply (proj2 (NeuralODE_forward_width 1 4 1 1 "tanh" (1 # 1000) false
                    zero_init None _ (mkTensor [1; 1] [1%R]) 1 false
                    eq_refl eq_refl eq_refl ltac:(simpl; lia))).
    lia.
Defined.

(** ** In-place activations, seen from the caller *)

(** X10.  Without augmentation and with an in-place activation ([relu],
    [leakyrelu]), [Semiflow.forward] overwrites its input: after an
    integration from [0] to [T] the caller's tensor holds the activated
    input, whether or not the call succeeds. *)
Theorem Semiflow_forward_overwrites_input (hd : nat) (theta : initializer)
    (self : Semiflow) (x : tensor) (t_first : Q) (ts : list Q) :
  constructed hd theta (dynamics self) ->
  augment_dim (dynamics self) = 0 ->
  is_inplace (non_linearity (dynamics self)) = true ->
  strictly_increasing (t_first :: ts) = true ->
  (t_first == 0)%Q -> ts <> [] -> (last ts 0 == T)%Q ->
  snd (fst (Semiflow_forward self x (Some (t_first :: ts))))
  = tensor_map (activation_fn (non_linearity (dynamics self))) x /\
  snd (fst (Semiflow_forward self x None))
  = tensor_map (activation_fn (non_linearity (dynamics self))) x.
Proof.
  intros Hd Ha Hin Hinc Hfirst Hne Hlast.
  destruct (Semiflow_forward_first_query hd theta self x x t_first ts Hd
              (augment_none _ x Ha) Hinc Hfirst Hne Hlast)
    as (H1 & H2 & _).
  rewrite Ha in H1, H2. cbn [Nat.ltb Nat.leb] in H1, H2.
  unfold activation_call in H1, H2. rewrite Hin in H1, H2.
  split; assumption.
Qed.

Lemma Semiflow_forward_overwrites_input_witness :
  exists d, Dynamics_init 1 1 0 "leakyrelu" unit_bias_init = Ok d /\
  let self := Semiflow_init d (1 # 1000) false in
  let x := mkTensor [1; 1] [(-4)%R] in
  snd (fst (Semiflow_forward self x (Some [0%Q; T])))
  = tensor_map (activation_fn (non_linearity (dynamics self))) x /\
  snd (fst (Semiflow_forward self x None))
  = tensor_map (activation_fn (non_linearity (dynamics self))) x.
Proof.
  eexists. split; [reflexivity|]. intros self x.
  apply (Semiflow_forward_overwrites_input 1 unit_bias_init self x 0%Q [T]).
  - split; reflexivity.
  - reflexivity.
  - reflexivity.
  - reflexivity.
  - reflexivity.
  - discriminate.
  - reflexivity.
Defined.

(** X11.  [NeuralODE.forward] integrates twice from the same tensor.
    Without augmentation and with an in-place activation, the caller's
    input holds the twice activated input after a successful call, and the
    stored trajectory starts from the activated input, not from the
    input. *)
Theorem NeuralODE_forward_overwrites_input (hd od : nat)
    (theta : initializer) (w : nat -> nat -> R) (b : nat -> R)
    (lead : list nat) (file : option (list tensor)) (m : NeuralODE)
    (x : tensor) (rf : bool) :
  constructed hd theta (dynamics (flow m)) ->
  linear_layer m = nn_Linear hd od w b ->
  augment_dim (dynamics (flow m)) = 0 ->
  is_inplace (non_linearity (dynamics (flow m))) = true ->
  has_shape (lead ++ [hd]) x ->
  let sigma := activation_fn (non_linearity (dynamics (flow m))) in
  snd (fst (NeuralODE_forward file m x rf))
  = tensor_map sigma (tensor_map sigma x) /\
  exists tr,
    traj (fst (fst (NeuralODE_forward file m x rf))) = Some tr /\
    index0 tr 0 = Ok (tensor_map sigma x).
Proof.
  intros Hd Hll Ha Hin Hx sigma.
  destruct (NeuralODE_forward_runs hd od theta w b lead file m x x
              Hd Hll (augment_none _ x Ha) Hx)
    as (flow1 & x1 & features & flow2 & x2 & tr & terminal & pred & pt
        & H1 & H2 & _ & Hfw & _).
  destruct (Semiflow_forward_first_query hd theta (flow m) x x 0%Q [T] Hd
              (augment_none _ x Ha) eq_refl (Qeq_refl 0)
              ltac:(discriminate) (Qeq_refl T))
    as (_ & Hx1 & _).
  rewrite H1, Ha in Hx1. cbn [fst snd Nat.ltb Nat.leb] in Hx1.
  unfold activation_call in Hx1. rewrite Hin in Hx1. cbn [fst] in Hx1.
  fold sigma in Hx1.
  destruct (Semiflow_forward_counter_only (flow m) x None) as [k Hk].
  rewrite H1 in Hk. cbn [fst] in Hk.
  assert (Hd1 : constructed hd theta (dynamics flow1)).
  { rewrite Hk. apply constructed_set_nfe. exact Hd. }
  assert (Ha1 : augment_dim (dynamics flow1) = 0) by (rewrite Hk; exact Ha).
  assert (Hs1 : non_linearity (dynamics flow1)
                = non_linearity (dynamics (flow m)))
    by (rewrite Hk; reflexivity).
  assert (Hsh1 : has_shape (lead ++ [hd]) x1).
  { rewrite Hx1. apply tensor_map_has_shape. exact Hx. }
  destruct (linspace_0_T time_steps ltac:(unfold time_steps; lia))
    as (t_first & ts & Elin & Hne & _ & Hinc & Hfirst & Hlast & _).
  rewrite Elin in Hinc.
  unfold Semiflow_trajectory in H2. rewrite Elin in H2.
  destruct (Semiflow_forward_first_query hd theta flow1 x1 x1 t_first ts Hd1
              (augment_none _ x1 Ha1) Hinc Hfirst Hne Hlast)
    as (Hx2 & _ & _).
  rewrite H2, Ha1, Hs1 in Hx2. cbn [fst snd Nat.ltb Nat.leb] in Hx2.
  unfold activation_call in Hx2. rewrite Hin in Hx2. cbn [fst] in Hx2.
  fold sigma in Hx2.
  destruct (Semiflow_forward_runs hd theta lead flow1 x1 x1 t_first ts
              Hd1 (augment_none _ x1 Ha1) Hsh1 Hinc Hfirst Hne Hlast)
    as (d' & y0' & yN & sols & _ & Hfull & _ & _ & _ & _ & _ & Hsols & _).
  rewrite H2 in Hfull. injection Hfull as _ _ Etr.
  rewrite (Hfw rf). cbn [fst snd]. split.
  - rewrite Hx2, Hx1. reflexivity.
  - exists tr. split; [reflexivity|].
    rewrite Etr, (index0_stack (lead ++ [hd]) (x1 :: sols) 0 x1).
    + cbn [nth]. rewrite Hx1. reflexivity.
    + constructor; assumption.
    + simpl. lia.
Qed.

Lemma NeuralODE_forward_overwrites_input_witness :
  exists m,
    NeuralODE_init 1 1 1 0 "leakyrelu" (1 # 1000) false unit_bias_init = Ok m /\
  let x := mkTensor [1; 1] [(-4)%R] in
  let sigma := activation_fn (non_linearity (dynamics (flow m))) in
  snd (fst (NeuralODE_forward None m x false))
  = tensor_map sigma (tensor_map sigma x) /\
  exists tr,
    traj (fst (fst (NeuralODE_forward None m x false))) = Some tr /\
    index0 tr 0 = Ok (tensor_map sigma x).
Proof.
  eexists. split; [reflexivity|]. intros x.
  apply (NeuralODE_forward_overwrites_input 1 1 unit_bias_init
           (init_weight unit_bias_init "linear_layer" 0)
           (init_bias unit_bias_init "linear_layer" 0) [1] None _ x false).
  - split; reflexivity.
  - reflexivity.
  - reflexivity.
  - reflexivity.
  - split; reflexivity.
Defined.

(** ** Shapes of the results, and the counter after a call *)

Lemma stack_has_shape (sh : list nat) (l : list tensor) :
  Forall (has_shape sh) l -> has_shape (length l :: sh) (stack sh l).
Proof.
  intros Hl. split; [reflexivity|]. unfold stack. cbn [data numel fold_right].
  induction Hl as [|y l Hy Hl IH]; [reflexivity|].
  cbn [map concat length]. rewrite length_app, IH, (proj2 Hy).
  fold (numel sh). lia.
Qed.

Lemma Semiflow_forward_first_and_last (hd : nat) (theta : initializer)
    (lead : list nat) (self : Semiflow) (x x_aug : tensor) (t_first : Q)
    (ts : list Q) :
  constructed hd theta (dynamics self) ->
  augment (set_nfe (dynamics self) 0) x = Ok x_aug ->
  has_shape (lead ++ [hd]) x_aug ->
  strictly_increasing (t_first :: ts) = true ->
  (t_first == 0)%Q -> ts <> [] -> (last ts 0 == T)%Q ->
  exists self' x' out terminal,
    Semiflow_forward self x (Some (t_first :: ts)) = (self', x', Ok out) /\
    Semiflow_forward self x None = (self', x', Ok terminal) /\
    has_shape (length (t_first :: ts) :: lead ++ [hd]) out /\
    index0 out 0 = Ok x_aug /\
    index0 out (length ts) = Ok terminal /\
    nfe (dynamics self') = time_steps.
Proof.
  intros Hd Haug Hx Hinc Hfirst Hne Hlast.
  destruct (Semiflow_forward_runs hd theta lead self x x_aug t_first ts
              Hd Haug Hx Hinc Hfirst Hne Hlast)
    as (d' & y0' & yN & sols & _ & Hfull & Hterm & _ & _ & _ & _ & Hsols
        & Hlen & Hl).
  pose proof (nfe_after_full_integration hd theta lead self x x_aug t_first
                ts Hd Haug Hx Hinc Hfirst Hne Hlast) as Hn.
  rewrite Hfull in Hn. cbn [fst dynamics set_dynamics] in Hn.
  assert (Hall : Forall (has_shape (lead ++ [hd])) (x_aug :: sols))
    by (constructor; assumption).
  eexists. eexists. eexists. exists yN.
  split; [exact Hfull|]. split; [exact Hterm|]. split; [|split; [|split]].
  - pose proof (stack_has_shape _ _ Hall) as Hs.
    cbn [length] in *. rewrite Hlen in Hs. exact Hs.
  - rewrite (index0_stack _ _ 0 x_aug Hall) by (simpl; lia). reflexivity.
  - rewrite (index0_stack _ _ (length ts) x_aug Hall) by (simpl; lia).
    f_equal. rewrite <- Hlen, <- Hl.
    destruct sols as [|v sols']; [destruct ts; [contradiction|discriminate]|].
    clear. revert v. induction sols' as [|u sols' IH]; intros v;
      [reflexivity|].
    change (nth (length (v :: u :: sols')) (x_aug :: v :: u :: sols') x_aug)
      with (nth (length (u :: sols')) (x_aug :: u :: sols') x_aug).
    rewrite IH. reflexivity.
  - exact Hn.
Qed.

(** X12.  For requested times that start at [0] and end at [T],
    [Semiflow.forward] returns one state per requested time, the first
    being the (augmented) input and the last the state that
    [Semiflow.forward] without requested times returns.  The object and the
    input are left as by that call: the counter is [time_steps] however
    many times are requested. *)
Theorem Semiflow_forward_eval_times (hd : nat) (theta : initializer)
    (lead : list nat) (self : Semiflow) (x x_aug : tensor) (t_first : Q)
    (ts : list Q) :
  constructed hd theta (dynamics self) ->
  augment (set_nfe (dynamics self) 0) x = Ok x_aug ->
  has_shape (lead ++ [hd]) x_aug ->
  strictly_increasing (t_first :: ts) = true ->
  (t_first == 0)%Q -> ts <> [] -> (last ts 0 == T)%Q ->
  exists self' x' out terminal,
    Semiflow_forward self x (Some (t_first :: ts)) = (self', x', Ok out) /\
    Semiflow_forward self x None = (self', x', Ok terminal) /\
    has_shape (length (t_first :: ts) :: lead ++ [hd]) out /\
    index0 out 0 = Ok x_aug /\
    index0 out (length ts) = Ok terminal /\
    nfe (dynamics self') = time_steps.
Proof.
  exact (Semiflow_forward_first_and_last hd theta lead self x x_aug t_first
           ts).
Qed.

Lemma Semiflow_forward_eval_times_witness :
  exists d, Dynamics_init 1 1 0 "tanh" zero_init = Ok d /\
  let self := Semiflow_init d (1 # 1000) false in
  let x := mkTensor [1; 1] [1%R] in
  exists self' x' out terminal,
    Semiflow_forward self x (Some [0%Q; 1%Q; T]) = (self', x', Ok out) /\
    Semiflow_forward self x None = (self', x', Ok terminal) /\
    has_shape (length [0%Q; 1%Q; T] :: [1] ++ [1]) out /\
    index0 out 0 = Ok x /\
    index0 out (length [1%Q; T]) = Ok terminal /\
    nfe (dynamics self') = time_steps.
Proof.
  eexists. split; [reflexivity|]. intros self x.
  apply (Semiflow_forward_eval_times 1 zero_init [1] self x x 0%Q [1%Q; T]).
  - split; reflexivity.
  - reflexivity.
  - split; reflexivity.
  - reflexivity.
  - reflexivity.
  - discriminate.
  - reflexivity.
Defined.

(** X13.  A successful [NeuralODE.forward] on an input whose (augmented)
    shape is [lead ++ [hidden_dim]] returns features of that shape, a
    prediction of shape [lead ++ [output_dim]] and a projected trajectory
    of shape [time_steps :: lead ++ [output_dim]]; the stored trajectory
    has shape [time_steps :: lead ++ [hidden_dim]], and the counter is
    [time_steps] afterwards, the second integration having reset it. *)
Theorem NeuralODE_forward_shapes (hd od : nat) (theta : initializer)
    (w : nat -> nat -> R) (b : nat -> R) (lead : list nat)
    (file : option (list tensor)) (m : NeuralODE) (x x_aug : tensor) :
  constructed hd theta (dynamics (flow m)) ->
  linear_layer m = nn_Linear hd od w b ->
  augment (set_nfe (dynamics (flow m)) 0) x = Ok x_aug ->
  has_shape (lead ++ [hd]) x_aug ->
  exists m' x' features pred pt tr,
    NeuralODE_forward file m x true = (m', x', Ok (features, pred)) /\
    NeuralODE_forward file m x false = (m', x', Ok (pred, pt)) /\
    has_shape (lead ++ [hd]) features /\
    has_shape (lead ++ [od]) pred /\
    has_shape (time_steps :: lead ++ [od]) pt /\
    traj m' = Some tr /\
    has_shape (time_steps :: lead ++ [hd]) tr /\
    nfe (dynamics (flow m')) = time_steps.
Proof.
  intros Hd Hll Haug Hx.
  destruct (NeuralODE_forward_runs hd od theta w b lead file m x x_aug
              Hd Hll Haug Hx)
    as (flow1 & x1 & features & flow2 & x2 & tr & terminal & pred & pt
        & H1 & H2 & _ & Hfw & Hpred & Hpt & Hfeat & _).
  destruct (Semiflow_forward_runs hd theta lead (flow m) x x_aug 0%Q [T]
              Hd Haug Hx eq_refl (Qeq_refl 0) ltac:(discriminate) (Qeq_refl T))
    as (d1 & y01 & yN1 & _ & _ & _ & Hnone & Hd1 & [k1 Hsame] & Hy01 & _).
  rewrite H1 in Hnone. injection Hnone as Ef1 Ex1 _.
  assert (Hc1 : constructed hd theta (dynamics flow1))
    by (rewrite Ef1; exact Hd1).
  assert (Haug1 : exists x_aug1,
             augment (set_nfe (dynamics flow1) 0) x1 = Ok x_aug1 /\
             has_shape (lead ++ [hd]) x_aug1).
  { rewrite Ef1, Ex1. cbn [dynamics set_dynamics]. rewrite Hsame.
    exact (augment_again (set_nfe (dynamics (flow m)) 0) (lead ++ [hd])
             x x_aug y01 Haug Hx Hy01). }
  destruct Haug1 as (x_aug1 & Haug1 & Hx1).
  destruct (linspace_0_T time_steps ltac:(unfold time_steps; lia))
    as (t_first & ts & Elin & Hne & Hlen & Hinc & Hfirst & Hlast & _).
  rewrite Elin in Hinc, Hlen.
  unfold Semiflow_trajectory in H2. rewrite Elin in H2.
  destruct (Semiflow_forward_runs hd theta lead flow1 x1 x_aug1 t_first ts
              Hc1 Haug1 Hx1 Hinc Hfirst Hne Hlast)
    as (d2 & y02 & yN & sols & _ & Hfull & _ & _ & _ & _ & _ & Hsols
        & Hlens & _).
  pose proof (nfe_after_full_integration hd theta lead flow1 x1 x_aug1
                t_first ts Hc1 Haug1 Hx1 Hinc Hfirst Hne Hlast) as Hn.
  rewrite H2 in Hfull, Hn. injection Hfull as _ _ Etr. cbn [fst] in Hn.
  assert (Htr : has_shape (time_steps :: lead ++ [hd]) tr).
  { rewrite Etr.
    replace time_steps with (length (x_aug1 :: sols))
      by (cbn [length] in *; rewrite Hlens; exact Hlen).
    apply stack_has_shape. constructor; assumption. }
  destruct (Linear_forward_has_shape hd od w b features lead (proj1 Hfeat))
    as (pred' & Hpred' & Hshp).
  destruct (Linear_forward_has_shape hd od w b tr (time_steps :: lead)
              (proj1 Htr)) as (pt' & Hpt' & Hshpt).
  rewrite Hll in Hpred, Hpt.
  rewrite Hpred in Hpred'. injection Hpred' as <-.
  rewrite Hpt in Hpt'. injection Hpt' as <-.
  exists (set_proj_traj (set_traj (set_flow (set_flow m flow1) flow2) tr) pt),
    x2, features, pred, pt, tr.
  split; [exact (Hfw true)|]. split; [exact (Hfw false)|].
  split; [exact Hfeat|]. split; [exact Hshp|]. split; [exact Hshpt|].
  split; [reflexivity|]. split; [exact Htr | exact Hn].
Qed.

Lemma NeuralODE_forward_shapes_witness :
  exists m,
    NeuralODE_init 1 2 3 1 "tanh" (1 # 1000) false zero_init = Ok m /\
  let x := mkTensor [2; 1] [1%R; 2%R] in
  exists m' x' features pred pt tr,
    NeuralODE_forward None m x true = (m', x', Ok (features, pred)) /\
    NeuralODE_forward None m x false = (m', x', Ok (pred, pt)) /\
    has_shape ([2] ++ [2]) features /\
    has_shape ([2] ++ [3]) pred /\
    has_shape (time_steps :: [2] ++ [3]) pt /\
    traj m' = Some tr /\
    has_shape (time_steps :: [2] ++ [2]) tr /\
    nfe (dynamics (flow m')) = time_steps.
Proof.
  eexists. split; [reflexivity|]. intros x.
  apply (NeuralODE_forward_shapes 2 3 zero_init
           (init_weight zero_init "linear_layer" 0)
           (init_bias zero_init "linear_layer" 0) [2] None _ x
           (mkTensor [2; 2] [1%R; 0%R; 2%R; 0%R])).
  - split; reflexivity.
  - reflexivity.
  - reflexivity.
  - split; reflexivity.
Defined.

(** ** Calls do not depend on earlier calls *)

Lemma Semiflow_forward_any_counter (self : Semiflow) (k : nat) (y : tensor)
    (eval_times : option (list Q)) :
  Semiflow_forward (set_dynamics self (set_nfe (dynamics self) k)) y
                   eval_times
  = Semiflow_forward self y eval_times.
Proof. reflexivity. Qed.

(** X14.  [Semiflow.forward] resets the counter before it integrates, and
    the counter is all an earlier call has changed: a call on the object
    left by any earlier call, successful or not, does exactly what it does
    on the original object. *)
Theorem Semiflow_forward_after_a_call (self : Semiflow) (x y : tensor)
    (eval_times eval_times' : option (list Q)) :
  Semiflow_forward (fst (fst (Semiflow_forward self x eval_times))) y
                   eval_times'
  = Semiflow_forward self y eval_times'.
Proof.
  destruct (Semiflow_forward_counter_only self x eval_times) as [k ->].
  apply Semiflow_forward_any_counter.
Qed.

(** What [NeuralODE.forward] leaves in the object: the parameters and
    the sizes are those of before, the [Dynamics] differs by its counter
    only. *)
Lemma NeuralODE_forward_parameters (file : option (list tensor))
    (m : NeuralODE) (x : tensor) (rf : bool) :
  let m' := fst (fst (NeuralODE_forward file m x rf)) in
  linear_layer m' = linear_layer m /\
  (ode_data_dim m', ode_hidden_dim m', ode_augment_dim m', output_dim m')
  = (ode_data_dim m, ode_hidden_dim m, ode_augment_dim m, output_dim m) /\
  ode_tol m' = ode_tol m /\
  ode_non_linearity m' = ode_non_linearity m /\
  exists k, flow m' = set_dynamics (flow m) (set_nfe (dynamics (flow m)) k).
Proof.
  unfold NeuralODE_forward.
  destruct (Semiflow_forward_counter_only (flow m) x None) as [k1 Hk1].
  destruct (Semiflow_forward (flow m) x None) as [[f1 x1] r1].
  cbn [fst] in Hk1. subst f1.
  destruct r1 as [features|e];
    [|cbn [fst]; repeat (split; [reflexivity|]); exists k1; reflexivity].
  cbn [flow set_flow].
  destruct (Semiflow_forward_counter_only
              (set_dynamics (flow m) (set_nfe (dynamics (flow m)) k1)) x1
              (Some (linspace 0 T time_steps))) as [k2 Hk2].
  unfold Semiflow_trajectory.
  destruct (Semiflow_forward
              (set_dynamics (flow m) (set_nfe (dynamics (flow m)) k1)) x1
              (Some (linspace 0 T time_steps))) as [[f2 x2] r2].
  cbn [fst] in Hk2. subst f2.
  destruct r2 as [tr|e];
    [|cbn [fst]; repeat (split; [reflexivity|]); exists k2; reflexivity].
  cbn [linear_layer set_flow set_traj].
  destruct (Linear_forward (linear_layer m) features) as [pred|e];
    [|cbn [fst]; repeat (split; [reflexivity|]); exists k2; reflexivity].
  destruct (Linear_forward (linear_layer m) tr) as [pt|e];
    cbn [fst]; repeat (split; [reflexivity|]); exists k2; reflexivity.
Qed.

(** X15.  [NeuralODE.forward] never changes the parameters of the model:
    after a call, successful or not, the readout, the sizes, the
    tolerance and the output activation are those of before, and the
    [Dynamics] is the one of before up to its counter.  The only other
    attributes it writes are [traj] and [proj_traj]. *)
Theorem NeuralODE_forward_frame (file : option (list tensor))
    (m : NeuralODE) (x : tensor) (rf : bool) :
  let m' := fst (fst (NeuralODE_forward file m x rf)) in
  linear_layer m' = linear_layer m /\
  (ode_data_dim m', ode_hidden_dim m', ode_augment_dim m', output_dim m')
  = (ode_data_dim m, ode_hidden_dim m, ode_augment_dim m, output_dim m) /\
  ode_tol m' = ode_tol m /\
  ode_non_linearity m' = ode_non_linearity m /\
  exists k, flow m' = set_dynamics (flow m) (set_nfe (dynamics (flow m)) k).
Proof. exact (NeuralODE_forward_parameters file m x rf). Qed.

(** X16.  What [NeuralODE.forward] returns, and what it leaves in its
    input, does not depend on earlier calls: on the object left by any
    earlier call, successful or not, a call returns what it returns on the
    original object.  The stored [traj], [proj_traj] and counter are never
    read. *)
Theorem NeuralODE_forward_after_a_call (file file' : option (list tensor))
    (m : NeuralODE) (x y : tensor) (rf rf' : bool) :
  let m' := fst (fst (NeuralODE_forward file m x rf)) in
  snd (NeuralODE_forward file' m' y rf') = snd (NeuralODE_forward file' m y rf')
  /\ snd (fst (NeuralODE_forward file' m' y rf'))
     = snd (fst (NeuralODE_forward file' m y rf')).
Proof.
  intros m'.
  destruct (NeuralODE_forward_parameters file m x rf)
    as (Hll & _ & _ & _ & [k Hk]).
  fold m' in Hll, Hk.
  unfold NeuralODE_forward. rewrite Hk, Semiflow_forward_any_counter.
  destruct (Semiflow_forward (flow m) y None) as [[f1 x1] r1].
  destruct r1 as [features|e]; [|split; reflexivity].
  cbn [flow set_flow].
  destruct (Semiflow_trajectory f1 x1 time_steps) as [[f2 x2] r2].
  destruct r2 as [tr|e]; [|split; reflexivity].
  cbn [linear_layer set_flow set_traj]. rewrite Hll.
  destruct (Linear_forward (linear_layer m) features) as [pred|e];
    [|split; reflexivity].
  destruct (Linear_forward (linear_layer m) tr) as [pt|e]; split; reflexivity.
Qed.

(** ** Integration over other intervals *)

Lemma dt_value : (dt == 2 # 3)%Q.
Proof. reflexivity. Qed.

Lemma inject_Z_pred (z : Z) : (inject_Z (z - 1) == inject_Z z - 1)%Q.
Proof.
  unfold Z.sub. rewrite inject_Z_plus. reflexivity.
Qed.

Lemma Qceiling_unique (q : Q) (z : Z) :
  (inject_Z z - 1 < q)%Q -> (q <= inject_Z z)%Q -> Qceiling q = z.
Proof.
  intros Hlo Hhi.
  pose proof (Qle_ceiling q) as H1.
  pose proof (Qceiling_lt q) as H2. rewrite inject_Z_pred in H2.
  assert (A : (z - 1 < Qceiling q)%Z).
  { rewrite Zlt_Qlt, inject_Z_pred. lra. }
  assert (B : (Qceiling q - 1 < z)%Z).
  { rewrite Zlt_Qlt, inject_Z_pred. lra. }
  lia.
Qed.

Lemma div_dt_times (a : Q) : ((2 # 3) * (a / dt) == a)%Q.
Proof.
  rewrite <- dt_value at 1. apply Qmult_div_r.
  rewrite dt_value. discriminate.
Qed.

(** The grid of an integration from [t_first] to a later time: [N] steps,
    [N] the least integer with [t_first + N dt] at or after the end. *)
Lemma grid_constructor_points (t_first : Q) (ts : list Q) :
  ts <> [] -> (t_first < last ts 0)%Q ->
  exists N,
    1 <= N /\
    grid_constructor dt (t_first :: ts)
    = map (fun i => (inject_Z (Z.of_nat i) * dt + t_first)%Q) (seq 0 N)
      ++ [last ts 0%Q] /\
    Z.of_nat N = Qceiling ((last ts 0 - t_first) / dt)%Q /\
    (inject_Z (Z.of_nat N) * dt + t_first - dt < last ts 0)%Q /\
    (last ts 0 <= inject_Z (Z.of_nat N) * dt + t_first)%Q.
Proof.
  intros Hne Hlt.
  assert (Elast : last (t_first :: ts) 0%Q = last ts 0%Q).
  { destruct ts; [contradiction | reflexivity]. }
  unfold grid_constructor. rewrite Elast. cbn [hd].
  set (e := last ts 0%Q) in *. set (q := ((e - t_first) / dt)%Q).
  pose proof (div_dt_times (e - t_first)) as Hq. fold q in Hq.
  set (c := Qceiling (q + 1)%Q).
  pose proof (Qle_ceiling (q + 1)) as H1. fold c in H1.
  pose proof (Qceiling_lt (q + 1)) as H2. fold c in H2.
  rewrite inject_Z_pred in H2.
  assert (Hc : (2 <= c)%Z).
  { assert (A : (1 < c)%Z); [|lia]. rewrite Zlt_Qlt.
    change (inject_Z 1) with 1%Q. lra. }
  exists (Z.to_nat c - 1).
  assert (EN : Z.of_nat (Z.to_nat c - 1) = (c - 1)%Z) by lia.
  split; [lia|]. split; [|split; [|split]].
  - unfold set_last.
    destruct (Z.to_nat c) as [|n] eqn:En; [lia|].
    rewrite <- En at 1. rewrite En at 1.
    change (match map (fun i => (inject_Z (Z.of_nat i) * dt + t_first)%Q)
                      (seq 0 (S n)) with
            | [] => []
            | _ :: _ =>
                removelast (map (fun i => (inject_Z (Z.of_nat i) * dt
                                           + t_first)%Q) (seq 0 (S n)))
                ++ [e]
            end
            = map (fun i => (inject_Z (Z.of_nat i) * dt + t_first)%Q)
                  (seq 0 (S n - 1)) ++ [e]).
    cbn [seq map]. rewrite <- (removelast_map_seq _ 0 (S n)). reflexivity.
  - rewrite EN. symmetry. apply Qceiling_unique.
    + rewrite inject_Z_pred. lra.
    + rewrite inject_Z_pred. lra.
  - rewrite EN, inject_Z_pred, dt_value. lra.
  - rewrite EN, inject_Z_pred, dt_value. lra.
Qed.

Lemma strictly_increasing_snoc (l : list Q) (e : Q) :
  strictly_increasing l = true ->
  (forall a, In a l -> (a < e)%Q) ->
  strictly_increasing (l ++ [e]) = true.
Proof.
  induction l as [|a l IH]; intros Hl Hlt; [reflexivity|].
  destruct l as [|b l].
  - cbn [app]. apply strictly_increasing_cons. split; [|reflexivity].
    apply Hlt. left. reflexivity.
  - change ((a :: b :: l) ++ [e]) with (a :: b :: (l ++ [e])).
    apply strictly_increasing_cons in Hl. destruct Hl as [Hab Hl].
    apply strictly_increasing_cons. split; [exact Hab|].
    apply IH; [exact Hl|]. intros c Hc. apply Hlt. right. exact Hc.
Qed.

Lemma grid_point_bounds (t_first : Q) (N i : nat) :
  i < N ->
  (t_first <= inject_Z (Z.of_nat i) * dt + t_first)%Q /\
  (inject_Z (Z.of_nat i) * dt + t_first
   <= inject_Z (Z.of_nat N) * dt + t_first - dt)%Q.
Proof.
  intros Hi.
  assert (H0 : (0 <= inject_Z (Z.of_nat i))%Q).
  { change 0%Q with (inject_Z 0). rewrite <- Zle_Qle. lia. }
  assert (H1 : (inject_Z (Z.of_nat i) <= inject_Z (Z.of_nat N) - 1)%Q).
  { rewrite <- inject_Z_pred, <- Zle_Qle. lia. }
  rewrite dt_value. split; lra.
Qed.

(** The steps before a query that raises succeed; that query ends the
    loop with its exception. *)
Lemma euler_loop_raises {S : Type} (func : callable S) (inv : S -> Prop)
    (sh : list nat) (okt : Q -> Prop) (count : S -> nat) (tb : Q) (e : exn) :
  regular func inv sh okt ->
  (forall s t y, count (fst (fst (func s t y))) = count s + 1) ->
  (forall s y, inv s -> has_shape sh y -> snd (func s tb y) = Raise e) ->
  forall good s t0 y0 grid ts rest,
    t0 :: grid = good ++ tb :: rest -> rest <> [] ->
    inv s -> has_shape sh y0 -> Forall okt good ->
    snd (euler_loop func s t0 y0 grid ts) = Raise e /\
    count (fst (fst (euler_loop func s t0 y0 grid ts)))
    = count s + length good + 1.
Proof.
  intros Hreg Hcount Hbad.
  induction good as [|g good IH]; intros s t0 y0 grid ts rest E Hrest Hs Hy Hok.
  - cbn [app] in E. injection E as -> ->.
    destruct rest as [|t1 rest]; [contradiction|].
    cbn [euler_loop]. pose proof (Hbad s y0 Hs Hy) as Hb.
    pose proof (Hcount s tb y0) as Hc.
    destruct (func s tb y0) as [[s1 y0'] r]. cbn [fst snd] in *. subst r.
    cbn [bind fst snd length]. split; [reflexivity | lia].
  - cbn [app] in E. injection E as -> ->.
    inversion Hok as [|? ? Hg Hok']; subst.
    destruct (good ++ tb :: rest) as [|t1 grid'] eqn:Eg.
    { destruct good; discriminate. }
    cbn [euler_loop].
    destruct (Hreg s g y0 Hs Hg Hy) as (s1 & y0' & f0 & Hf & Hs1 & Hy0' & Hf0).
    pose proof (Hcount s g y0) as Hc. rewrite Hf in Hc. cbn [fst] in Hc.
    rewrite Hf. cbn [bind].
    destruct (elementwise_ok Rplus sh y0' (scale (Q2R (t1 - g)) f0) Hy0'
                (tensor_map_has_shape _ sh f0 Hf0)) as [y1 [Hadd Hy1]].
    unfold add. rewrite Hadd.
    destruct (fill_solution_spec sh g t1 y0' y1 ts Hy0' Hy1)
      as (sols1 & served & rest1 & Hfill & _).
    rewrite Hfill.
    destruct (IH s1 t1 y1 grid' rest1 rest (eq_sym Eg) Hrest Hs1 Hy1 Hok')
      as [Hr Hn].
    destruct (euler_loop func s1 t1 y1 grid' rest1) as [[s2 yy] r2].
    cbn [fst snd] in *. subst r2. cbn [bind length].
    split; [reflexivity | lia].
Qed.

Lemma grid_points_in_range (t_first e : Q) (N : nat) :
  (0 <= t_first)%Q ->
  (inject_Z (Z.of_nat N) * dt + t_first - dt < e)%Q -> (e <= T)%Q ->
  Forall in_time_range
    (map (fun i => (inject_Z (Z.of_nat i) * dt + t_first)%Q) (seq 0 N)).
Proof.
  intros H0 Hlo He. apply Forall_forall. intros a Ha.
  apply in_map_iff in Ha. destruct Ha as (i & <- & Hi). apply in_seq in Hi.
  destruct (grid_point_bounds t_first N i ltac:(lia)) as [A B].
  split; lra.
Qed.

Lemma grid_points_below (t_first e : Q) (N : nat) :
  (inject_Z (Z.of_nat N) * dt + t_first - dt < e)%Q ->
  forall a,
    In a (map (fun i => (inject_Z (Z.of_nat i) * dt + t_first)%Q) (seq 0 N)) ->
    (a < e)%Q.
Proof.
  intros Hlo a Ha.
  apply in_map_iff in Ha. destruct Ha as (i & <- & Hi). apply in_seq in Hi.
  destruct (grid_point_bounds t_first N i ltac:(lia)) as [A B]. lra.
Qed.

(** An integration over any part of [[0, T]]: every query is in range, the
    steps all succeed, and there are [ceil((end - start) / dt)] of
    them. *)
Lemma odeint_within_range {St : Type} (func : callable St) (inv : St -> Prop)
    (sh : list nat) (count : St -> nat) :
  regular func inv sh in_time_range ->
  (forall s t y, count (fst (fst (func s t y))) = count s + 1) ->
  forall (s : St) (y0 : tensor) (t_first : Q) (ts : list Q),
    inv s -> has_shape sh y0 ->
    strictly_increasing (t_first :: ts) = true ->
    (0 <= t_first)%Q -> ts <> [] -> (last ts 0 <= T)%Q ->
    exists s' y0' sols,
      odeint func s y0 (t_first :: ts) dt
      = (s', y0', Ok (stack sh (y0 :: sols))) /\
      inv s' /\ has_shape sh y0' /\
      Forall (has_shape sh) sols /\ length sols = length ts /\
      Z.of_nat (count s')
      = (Z.of_nat (count s) + Qceiling ((last ts 0 - t_first) / dt)%Q)%Z.
Proof.
  intros Hreg Hcount s y0 t_first ts Hs Hy Hinc H0 Hne HT.
  assert (Hlt : (t_first < last ts 0)%Q).
  { destruct ts as [|a ts']; [contradiction|].
    exact (strictly_increasing_last_lt t_first a 0%Q ts' Hinc). }
  assert (Elast : last (t_first :: ts) 0%Q = last ts 0%Q).
  { destruct ts; [contradiction | reflexivity]. }
  destruct (grid_constructor_points t_first ts Hne Hlt)
    as (N & HN & EG & EN & Hlo & Hhi).
  set (f := fun i => (inject_Z (Z.of_nat i) * dt + t_first)%Q) in *.
  set (e := last ts 0%Q) in *.
  pose proof (grid_queries_increasing dt (t_first :: ts) dt_positive) as Hq.
  rewrite EG, removelast_last in Hq.
  destruct (odeint_recording func count s y0 (t_first :: ts) dt Hcount)
    as (queried & rest & _ & Hn & Hpre & Hall).
  rewrite EG, removelast_last in Hpre.
  revert Hn Hall. unfold odeint. rewrite Hinc, EG. cbn [negb].
  destruct N as [|N]; [lia|].
  change (map f (seq 0 (S N)) ++ [e])
    with (f 0 :: (map f (seq 1 N) ++ [e])).
  cbv beta iota.
  assert (Hg0 : (f 0%nat == t_first)%Q).
  { unfold f. change (inject_Z (Z.of_nat 0)) with 0%Q. lra. }
  assert (El : last (f 0 :: (map f (seq 1 N) ++ [e])) 0%Q = e).
  { change (f 0 :: (map f (seq 1 N) ++ [e]))
      with ((f 0 :: map f (seq 1 N)) ++ [e]).
    apply last_last. }
  rewrite (Qeq_bool_true (f 0) t_first Hg0).
  rewrite El, Elast. fold e.
  rewrite (Qeq_bool_true e e (Qeq_refl e)). cbn [andb].
  destruct (euler_loop_spec St func inv sh in_time_range Hreg
              (map f (seq 1 N) ++ [e]) s (f 0) y0 ts Hs Hy)
    as (s' & y0' & yN & sols & _ & Hloop & Hs' & _ & Hy0' & Hsols & Hlen & _).
  - change (f 0 :: (map f (seq 1 N) ++ [e]))
      with (map f (seq 0 (S N)) ++ [e]).
    rewrite removelast_last.
    apply (grid_points_in_range t_first e (S N) H0 Hlo HT).
  - change (f 0 :: (map f (seq 1 N) ++ [e]))
      with (map f (seq 0 (S N)) ++ [e]).
    apply strictly_increasing_snoc; [exact Hq|].
    apply (grid_points_below t_first e (S N) Hlo).
  - rewrite (strictly_increasing_ext (f 0 :: ts) (t_first :: ts));
      [exact Hinc|].
    constructor; [exact Hg0 | apply Forall2_Qeq_refl].
  - right. split; [destruct (map f (seq 1 N)); discriminate|].
    rewrite last_last. reflexivity.
  - rewrite Hloop. cbn [bind fst snd]. intros Hn Hall.
    exists s', y0', sols. rewrite (proj1 Hy).
    split; [reflexivity|]. split; [exact Hs'|]. split; [exact Hy0'|].
    split; [exact Hsols|]. split; [exact Hlen|].
    rewrite (Hall _ eq_refl), app_nil_r in Hpre.
    rewrite Hn, <- Hpre, length_map, length_seq, <- EN. lia.
Qed.

(** An integration from [0] to a time after [T] reaches the grid point
    [T]: the fifteen steps before it succeed, the query at [T] raises. *)
Lemma odeint_past_T {St : Type} (func : callable St) (inv : St -> Prop)
    (sh : list nat) (count : St -> nat) (e : exn) :
  regular func inv sh in_time_range ->
  (forall s t y, count (fst (fst (func s t y))) = count s + 1) ->
  (forall s t y, inv s -> has_shape sh y -> (T <= t)%Q ->
                 snd (func s t y) = Raise e) ->
  forall (s : St) (y0 : tensor) (t_first : Q) (ts : list Q),
    inv s -> has_shape sh y0 ->
    strictly_increasing (t_first :: ts) = true ->
    (t_first == 0)%Q -> (T < last ts 0)%Q ->
    snd (odeint func s y0 (t_first :: ts) dt) = Raise e /\
    count (fst (fst (odeint func s y0 (t_first :: ts) dt)))
    = count s + time_steps + 1.
Proof.
  intros Hreg Hcount Hbad s y0 t_first ts Hs Hy Hinc H0 HT.
  assert (Hne : ts <> []).
  { intros ->. cbn [last] in HT. unfold T in HT. lra. }
  assert (Hlt : (t_first < last ts 0)%Q) by (unfold T in HT; lra).
  assert (Elast : last (t_first :: ts) 0%Q = last ts 0%Q).
  { destruct ts; [contradiction | reflexivity]. }
  destruct (grid_constructor_points t_first ts Hne Hlt)
    as (N & HN & EG & _ & _ & Hhi).
  set (f := fun i => (inject_Z (Z.of_nat i) * dt + t_first)%Q) in *.
  set (tend := last ts 0%Q) in *.
  assert (HN16 : 16 <= N).
  { assert (A : (15 < Z.of_nat N)%Z); [|lia].
    rewrite Zlt_Qlt. change (inject_Z 15) with 15%Q.
    rewrite dt_value in Hhi. unfold T in HT. lra. }
  assert (Eseq : seq 0 N = seq 0 15 ++ 15 :: seq 16 (N - 16)).
  { replace N with (15 + Datatypes.S (N - 16)) at 1 by lia.
    rewrite seq_app. reflexivity. }
  assert (Egrid : grid_constructor dt (t_first :: ts)
                  = f 0 :: (map f (seq 1 14)
                            ++ f 15 :: (map f (seq 16 (N - 16)) ++ [tend]))).
  { rewrite EG, Eseq, map_app, <- app_assoc. reflexivity. }
  assert (Hg0 : (f 0%nat == t_first)%Q).
  { unfold f. change (inject_Z (Z.of_nat 0)) with 0%Q. lra. }
  assert (El : last (grid_constructor dt (t_first :: ts)) 0%Q = tend).
  { rewrite EG. apply last_last. }
  unfold odeint. rewrite Hinc. cbn [negb].
  rewrite <- Elast in El. revert El. rewrite Egrid. intros El.
  cbv beta iota.
  rewrite (Qeq_bool_true (f 0) t_first Hg0), El.
  rewrite (Qeq_bool_true _ _ (Qeq_refl _)). cbn [andb].
  destruct (euler_loop_raises func inv sh in_time_range count (f 15) e
              Hreg Hcount) with
    (good := map f (seq 0 15)) (s := s) (t0 := f 0) (y0 := y0)
    (grid := map f (seq 1 14) ++ f 15 :: (map f (seq 16 (N - 16)) ++ [tend]))
    (ts := ts) (rest := map f (seq 16 (N - 16)) ++ [tend])
    as [Hr Hn].
  - intros s0 y Hs0 Hy0. apply Hbad; [exact Hs0 | exact Hy0|].
    unfold f, T. change (inject_Z (Z.of_nat 15)) with 15%Q.
    rewrite dt_value. lra.
  - reflexivity.
  - destruct (map f (seq 16 (N - 16))); discriminate.
  - exact Hs.
  - exact Hy.
  - apply (grid_points_in_range t_first T 15).
    + lra.
    + change (inject_Z (Z.of_nat 15)) with 15%Q. unfold T.
      rewrite dt_value. lra.
    + lra.
  - destruct (euler_loop func s (f 0) y0 _ ts) as [[s' y0'] r].
    cbn [fst snd] in *. subst r. split; [reflexivity|].
    rewrite Hn. rewrite length_map, length_seq. reflexivity.
Qed.

Lemma Dynamics_forward_past_T (hd : nat) (theta : initializer)
    (d : Dynamics) (t : Q) (x : tensor) :
  constructed hd theta d -> (T <= t)%Q ->
  snd (Dynamics_forward d t x) = Raise IndexError.
Proof.
  intros [Hs Hb] Ht. unfold Dynamics_forward.
  cbn [species_ fc2_time set_nfe]. rewrite Hs, Hb.
  cbn [Z.ltb Z.compare getattr bind].
  rewrite blocks_getitem_out_of_range; [reflexivity|].
  left. pose proof (proj1 (step_index_cases t) Ht). unfold time_steps. lia.
Qed.

(** X17.  [Semiflow.forward] integrates over any part of [[0, T]]: for
    requested times that increase strictly, start at or after [0] and end
    at or before [T], it returns one state per requested time, the first
    being the (augmented) input, which is thus taken as the state at the
    first requested time; the counter is then
    [ceil((last - first) / dt)]. *)
Theorem Semiflow_forward_within_range (hd : nat) (theta : initializer)
    (lead : list nat) (self : Semiflow) (x x_aug : tensor) (t_first : Q)
    (ts : list Q) :
  constructed hd theta (dynamics self) ->
  augment (set_nfe (dynamics self) 0) x = Ok x_aug ->
  has_shape (lead ++ [hd]) x_aug ->
  strictly_increasing (t_first :: ts) = true ->
  (0 <= t_first)%Q -> ts <> [] -> (last ts 0 <= T)%Q ->
  exists self' x' out,
    Semiflow_forward self x (Some (t_first :: ts)) = (self', x', Ok out) /\
    has_shape (length (t_first :: ts) :: lead ++ [hd]) out /\
    index0 out 0 = Ok x_aug /\
    Z.of_nat (nfe (dynamics self'))
    = Qceiling ((last ts 0 - t_first) / dt)%Q.
Proof.
  intros Hd Haug Hx Hinc H0 Hne HT.
  set (d0 := set_nfe (dynamics self) 0) in *.
  assert (Hd0 : constructed hd theta d0 /\ same_model (dynamics self) d0).
  { split; [apply constructed_set_nfe; exact Hd | exists 0; reflexivity]. }
  destruct (odeint_within_range Dynamics_forward _ _ nfe
              (Dynamics_forward_regular hd theta lead (dynamics self))
              Dynamics_forward_counts d0 x_aug t_first ts
              Hd0 Hx Hinc H0 Hne HT)
    as (d' & y0' & sols & Hode & _ & _ & Hsols & Hlen & Hn).
  assert (Hall : Forall (has_shape (lead ++ [hd])) (x_aug :: sols))
    by (constructor; assumption).
  unfold Semiflow_forward. fold d0. rewrite Haug.
  eexists. eexists. eexists. split.
  - destruct (adjoint self); unfold odeint_adjoint; rewrite Hode;
      reflexivity.
  - split; [|split].
    + pose proof (stack_has_shape _ _ Hall) as Hs.
      cbn [length] in *. rewrite Hlen in Hs. exact Hs.
    + rewrite (index0_stack _ _ 0 x_aug Hall) by (simpl; lia). reflexivity.
    + cbn [dynamics set_dynamics]. rewrite Hn. reflexivity.
Qed.

Lemma Semiflow_forward_within_range_witness :
  exists d, Dynamics_init 1 1 0 "tanh" zero_init = Ok d /\
  let self := Semiflow_init d (1 # 1000) false in
  let x := mkTensor [1; 1] [1%R] in
  exists self' x' out,
    Semiflow_forward self x (Some [5%Q; 8%Q]) = (self', x', Ok out) /\
    has_shape (length [5%Q; 8%Q] :: [1] ++ [1]) out /\
    index0 out 0 = Ok x /\
    Z.of_nat (nfe (dynamics self'))
    = Qceiling ((last [8%Q] 0 - 5) / dt)%Q.
Proof.
  eexists. split; [reflexivity|]. intros self x.
  apply (Semiflow_forward_within_range 1 zero_init [1] self x x 5%Q [8%Q]).
  - split; reflexivity.
  - reflexivity.
  - split; reflexivity.
  - reflexivity.
  - unfold Qle. simpl. lia.
  - discriminate.
  - unfold Qle. simpl. lia.
Defined.

(** X18.  Requested times that start at [0] and end after [T] make
    [Semiflow.forward] raise an [IndexError]: the integrator's grid then
    contains the point [T], for which the bank has no layer.  The fifteen
    steps before it have been made: the counter is [time_steps + 1]. *)
Theorem Semiflow_forward_past_T (hd : nat) (theta : initializer)
    (lead : list nat) (self : Semiflow) (x x_aug : tensor) (t_first : Q)
    (ts : list Q) :
  constructed hd theta (dynamics self) ->
  augment (set_nfe (dynamics self) 0) x = Ok x_aug ->
  has_shape (lead ++ [hd]) x_aug ->
  strictly_increasing (t_first :: ts) = true ->
  (t_first == 0)%Q -> (T < last ts 0)%Q ->
  snd (Semiflow_forward self x (Some (t_first :: ts))) = Raise IndexError /\
  nfe (dynamics (fst (fst (Semiflow_forward self x (Some (t_first :: ts))))))
  = time_steps + 1.
Proof.
  intros Hd Haug Hx Hinc H0 HT.
  set (d0 := set_nfe (dynamics self) 0) in *.
  assert (Hd0 : constructed hd theta d0 /\ same_model (dynamics self) d0).
  { split; [apply constructed_set_nfe; exact Hd | exists 0; reflexivity]. }
  destruct (odeint_past_T Dynamics_forward _ (lead ++ [hd]) nfe IndexError
              (Dynamics_forward_regular hd theta lead (dynamics self))
              Dynamics_forward_counts) with
    (s := d0) (y0 := x_aug) (t_first := t_first) (ts := ts) as [Hr Hn];
    try assumption.
  { intros d t y [Hc _] _ Ht.
    exact (Dynamics_forward_past_T hd theta d t y Hc Ht). }
  unfold Semiflow_forward. fold d0. rewrite Haug.
  destruct (adjoint self); unfold odeint_adjoint;
    destruct (odeint Dynamics_forward d0 x_aug (t_first :: ts) dt)
      as [[d1 x'] out]; cbn [fst snd] in *; subst out;
    (split; [reflexivity | exact Hn]).
Qed.

Lemma Semiflow_forward_past_T_witness :
  exists d, Dynamics_init 1 1 0 "tanh" zero_init = Ok d /\
  let self := Semiflow_init d (1 # 1000) false in
  let x := mkTensor [1; 1] [1%R] in
  snd (Semiflow_forward self x (Some [0%Q; 11%Q])) = Raise IndexError /\
  nfe (dynamics (fst (fst (Semiflow_forward self x (Some [0%Q; 11%Q])))))
  = time_steps + 1.
Proof.
  eexists. split; [reflexivity|]. intros self x.
  apply (Semiflow_forward_past_T 1 zero_init [1] self x x 0%Q [11%Q]).
  - split; reflexivity.
  - reflexivity.
  - split; reflexivity.
  - reflexivity.
  - reflexivity.
  - reflexivity.
Defined.

(** ** The flow as a residual network *)

Lemma int_grid_index (k : nat) :
  int ((inject_Z (Z.of_nat k) * dt) / dt) = Z.of_nat k.
Proof.
  rewrite (int_compat _ (inject_Z (Z.of_nat k))).
  - unfold int, inject_Z. simpl. apply Z.quot_1_r.
  - apply Qdiv_mult_l. rewrite dt_value. discriminate.
Qed.

Lemma grid_index_in_range (k : nat) :
  k < time_steps -> in_time_range (inject_Z (Z.of_nat k) * dt).
Proof.
  intros Hk.
  assert (H0 : (0 <= inject_Z (Z.of_nat k))%Q).
  { change 0%Q with (inject_Z 0). rewrite <- Zle_Qle. lia. }
  assert (H1 : (inject_Z (Z.of_nat k) <= 14)%Q).
  { change 14%Q with (inject_Z 14). rewrite <- Zle_Qle.
    unfold time_steps in Hk. lia. }
  split; unfold T; rewrite dt_value; lra.
Qed.

(** The Euler steps from grid point [k] on are the residual blocks [k],
    [k + 1], ... of the bank. *)
Lemma euler_final_residual (hd : nat) (theta : initializer) (n : nat) :
  forall (k : nat) (d : Dynamics) (y : tensor),
    constructed hd theta d -> k + n <= time_steps ->
    snd (euler_final Dynamics_forward d (inject_Z (Z.of_nat k) * dt) y
           (map (fun i => (inject_Z (Z.of_nat i) * dt)%Q) (seq (S k) n)))
    = residual_network hd theta (non_linearity d) k n y.
Proof.
  induction n as [|n IH]; intros k d y Hd Hk; [reflexivity|].
  cbn [seq map euler_final residual_network].
  rewrite (Dynamics_forward_in_range hd theta d _ y Hd
             (grid_index_in_range k ltac:(lia))).
  rewrite int_grid_index, Nat2Z.id.
  assert (E : Q2R (inject_Z (Z.of_nat (S k)) * dt
                   - inject_Z (Z.of_nat k) * dt) = Q2R dt).
  { apply Qeq_eqR. rewrite Nat2Z.inj_succ, <- Z.add_1_r, inject_Z_plus.
    change (inject_Z 1) with 1%Q. ring. }
  rewrite E. unfold residual_block.
  destruct (Linear_forward _ (snd (activation_call (non_linearity d) y)))
    as [f|e]; cbn [bind]; [|reflexivity].
  destruct (add (fst (activation_call (non_linearity d) y))
                (scale (Q2R dt) f)) as [y1|e]; cbn [bind]; [|reflexivity].
  specialize (IH (S k) (set_nfe d (nfe d + 1)) y1
                (constructed_set_nfe hd theta d _ Hd) ltac:(lia)).
  destruct (euler_final Dynamics_forward (set_nfe d (nfe d + 1)) _ y1 _)
    as [[s2 yy] r2].
  exact IH.
Qed.

Lemma Semiflow_forward_as_residual_network (hd : nat)
    (theta : initializer) (lead : list nat) (self : Semiflow)
    (x x_aug : tensor) :
  constructed hd theta (dynamics self) ->
  augment (set_nfe (dynamics self) 0) x = Ok x_aug ->
  has_shape (lead ++ [hd]) x_aug ->
  exists out,
    snd (Semiflow_forward self x None) = Ok out /\
    residual_network hd theta (non_linearity (dynamics self)) 0 time_steps
                     x_aug = Ok out.
Proof.
  intros Hd Haug Hx.
  destruct (Semiflow_forward_runs hd theta lead self x x_aug 0%Q [T]
              Hd Haug Hx eq_refl (Qeq_refl 0) ltac:(discriminate) (Qeq_refl T))
    as (d' & y0' & yN & _ & Hfin & _ & Hterm & _).
  exists yN. rewrite Hterm. split; [reflexivity|].
  change (non_linearity (dynamics self))
    with (non_linearity (set_nfe (dynamics self) 0)).
  rewrite <- (euler_final_residual hd theta time_steps 0
                (set_nfe (dynamics self) 0) x_aug
                (constructed_set_nfe hd theta _ 0 Hd) (Nat.le_refl _)).
  rewrite <- (euler_final_ext Dynamics_forward (tl time_grid) _
                Dynamics_forward_time_compatible) with (t0 := 0%Q).
  - rewrite Hfin. reflexivity.
  - repeat constructor; reflexivity.
  - reflexivity.
Qed.

(** X19.  [Semiflow.forward] is a residual network of [time_steps]
    blocks: on an initial state whose last axis has size [hidden_dim] it
    returns the result of the blocks [0], ..., [time_steps - 1] applied one
    after the other, block [k] being [y + dt * (W_k sigma(y) + b_k)] with
    layer [k] of the bank (for an in-place activation the first [y] is the
    activated state). *)
Theorem Semiflow_forward_residual_network (hd : nat) (theta : initializer)
    (lead : list nat) (self : Semiflow) (x x_aug : tensor) :
  constructed hd theta (dynamics self) ->
  augment (set_nfe (dynamics self) 0) x = Ok x_aug ->
  has_shape (lead ++ [hd]) x_aug ->
  exists out,
    snd (Semiflow_forward self x None) = Ok out /\
    residual_network hd theta (non_linearity (dynamics self)) 0 time_steps
                     x_aug = Ok out.
Proof.
  exact (Semiflow_forward_as_residual_network hd theta lead self x x_aug).
Qed.

Lemma Semiflow_forward_residual_network_witness :
  exists d, Dynamics_init 1 1 0 "relu" unit_bias_init = Ok d /\
  let self := Semiflow_init d (1 # 1000) false in
  let x := mkTensor [1; 1] [(-1)%R] in
  exists out,
    snd (Semiflow_forward self x None) = Ok out /\
    residual_network 1 unit_bias_init (non_linearity (dynamics self)) 0
                     time_steps x = Ok out.
Proof.
  eexists. split; [reflexivity|]. intros self x.
  apply (Semiflow_forward_residual_network 1 unit_bias_init [1] self x x).
  - split; reflexivity.
  - reflexivity.
  - split; reflexivity.
Defined.

(** ** The end of the stored trajectory *)

(** X20.  When the input is kept (it is augmented, or the activation is
    not in place), the trajectory stored by [NeuralODE.forward] ends in
    the features and the projected trajectory ends in the prediction. *)
Theorem NeuralODE_forward_trajectory_end (hd od : nat)
    (theta : initializer) (w : nat -> nat -> R) (b : nat -> R)
    (lead : list nat) (file : option (list tensor)) (m : NeuralODE)
    (x x_aug : tensor) :
  constructed hd theta (dynamics (flow m)) ->
  linear_layer m = nn_Linear hd od w b ->
  augment (set_nfe (dynamics (flow m)) 0) x = Ok x_aug ->
  has_shape (lead ++ [hd]) x_aug ->
  0 < augment_dim (dynamics (flow m))
  \/ is_inplace (non_linearity (dynamics (flow m))) = false ->
  exists m' x' features pred pt tr,
    NeuralODE_forward file m x true = (m', x', Ok (features, pred)) /\
    NeuralODE_forward file m x false = (m', x', Ok (pred, pt)) /\
    traj m' = Some tr /\
    index0 tr (time_steps - 1) = Ok features /\
    index0 pt (time_steps - 1) = Ok pred.
Proof.
  intros Hd Hll Haug Hx Hkeep.
  destruct (NeuralODE_forward_runs hd od theta w b lead file m x x_aug
              Hd Hll Haug Hx)
    as (flow1 & x1 & features & flow2 & x2 & tr & terminal & pred & pt
        & H1 & H2 & H3 & Hfw & Hpred & _ & _ & Hslices).
  assert (Ex1 : x1 = x).
  { pose proof (Semiflow_forward_keeps_input (flow m) x None) as K.
    rewrite H1 in K. apply K.
    destruct Hkeep as [Ha | Hin]; [left; exact Ha | right; left; exact Hin]. }
  destruct (Semiflow_forward_counter_only (flow m) x None) as [k Hk].
  rewrite H1 in Hk. cbn [fst] in Hk.
  assert (Eterm : terminal = features).
  { rewrite Hk, Ex1, Semiflow_forward_any_counter, H1 in H3.
    injection H3 as _ _ E. symmetry. exact E. }
  assert (Hd1 : constructed hd theta (dynamics flow1)).
  { rewrite Hk. apply constructed_set_nfe. exact Hd. }
  assert (Haug1 : augment (set_nfe (dynamics flow1) 0) x1 = Ok x_aug).
  { rewrite Hk, Ex1. exact Haug. }
  destruct (linspace_0_T time_steps ltac:(unfold time_steps; lia))
    as (t_first & ts & Elin & Hne & Hlen & Hinc & Hfirst & Hlast & _).
  rewrite Elin in Hinc, Hlen.
  unfold Semiflow_trajectory in H2. rewrite Elin in H2.
  destruct (Semiflow_forward_first_and_last hd theta lead flow1 x1 x_aug
              t_first ts Hd1 Haug1 Hx Hinc Hfirst Hne Hlast)
    as (self' & x' & out & term' & Hfull & Hnone & _ & _ & Hend & _).
  rewrite H2 in Hfull. injection Hfull as _ _ <-.
  rewrite H3 in Hnone. injection Hnone as _ _ <-.
  assert (El : length ts = time_steps - 1)
    by (cbn [length] in Hlen; unfold time_steps in *; lia).
  rewrite El, Eterm in Hend.
  destruct (Hslices (time_steps - 1) ltac:(unfold time_steps; lia))
    as (state & Hst & Hpt).
  rewrite Hend in Hst. injection Hst as <-.
  exists (set_proj_traj (set_traj (set_flow (set_flow m flow1) flow2) tr) pt),
    x2, features, pred, pt, tr.
  split; [exact (Hfw true)|]. split; [exact (Hfw false)|].
  split; [reflexivity|]. split; [exact Hend|].
  rewrite Hpt. exact Hpred.
Qed.

Lemma NeuralODE_forward_trajectory_end_witness :
  exists m,
    NeuralODE_init 1 1 1 0 "tanh" (1 # 1000) false unit_bias_init = Ok m /\
  let x := mkTensor [1; 1] [1%R] in
  exists m' x' features pred pt tr,
    NeuralODE_forward None m x true = (m', x', Ok (features, pred)) /\
    NeuralODE_forward None m x false = (m', x', Ok (pred, pt)) /\
    traj m' = Some tr /\
    index0 tr (time_steps - 1) = Ok features /\
    index0 pt (time_steps - 1) = Ok pred.
Proof.
  eexists. split; [reflexivity|]. intros x.
  apply (NeuralODE_forward_trajectory_end 1 1 unit_bias_init
           (init_weight unit_bias_init "linear_layer" 0)
           (init_bias unit_bias_init "linear_layer" 0) [1] None _ x x).
  - split; reflexivity.
  - reflexivity.
  - reflexivity.
  - split; reflexivity.
  - right. reflexivity.
Defined.

(** ** The samples of a batch *)

Lemma nth_broadcast_last (f : R -> R -> R) (k : nat) (u v : list R) :
  forall i0 i, i < length u ->
    nth i (broadcast_last f k i0 u v) 0%R
    = f (nth i u 0%R) (nth ((i0 + i) mod k) v 0%R).
Proof.
  induction u as [|a u IH]; intros i0 i Hi; simpl in Hi; [lia|].
  destruct i as [|i]; cbn [broadcast_last nth].
  - rewrite Nat.add_0_r. reflexivity.
  - rewrite IH by lia. replace (S i0 + i) with (i0 + S i) by lia.
    reflexivity.
Qed.

(** The sum of two tensors of one shape, entry by entry. *)
Lemma add_entries (sh : list nat) (a b : tensor) :
  has_shape sh a -> has_shape sh b ->
  exists y,
    add a b = Ok y /\ has_shape sh y /\
    forall i, i < numel sh ->
      nth i (data y) 0%R = (nth i (data a) 0 + nth i (data b) 0)%R.
Proof.
  intros [Ea La] [Eb Lb]. unfold add.
  rewrite elementwise_same_shape by congruence.
  eexists. split; [reflexivity|]. split.
  - split; [exact Ea|]. cbn [data]. rewrite broadcast_last_length. exact La.
  - intros i Hi. cbn [data]. rewrite nth_broadcast_last by lia.
    rewrite Ea, Nat.add_0_l, Nat.mod_small by exact Hi. reflexivity.
Qed.

Lemma activation_call_rows (sigma : activation) (hd r : nat) (y : tensor) :
  row hd r (data (fst (activation_call sigma y)))
  = (if is_inplace sigma then map (activation_fn sigma) (row hd r (data y))
     else row hd r (data y)) /\
  row hd r (data (snd (activation_call sigma y)))
  = map (activation_fn sigma) (row hd r (data y)).
Proof.
  unfold activation_call.
  destruct (is_inplace sigma); cbn [fst snd tensor_map data];
    rewrite row_map; split; reflexivity.
Qed.

(** A residual block, entry by entry: entry [j] of row [r] of the result
    is made of row [r] of the state alone. *)
Lemma residual_block_entries (hd : nat) (theta : initializer)
    (sigma : activation) (k : nat) (lead : list nat) (y : tensor) :
  has_shape (lead ++ [hd]) y ->
  exists y1,
    residual_block hd theta sigma k y = Ok y1 /\
    has_shape (lead ++ [hd]) y1 /\
    forall r j, r < numel lead -> j < hd ->
      nth (r * hd + j) (data y1) 0%R
      = (nth j (if is_inplace sigma
                then map (activation_fn sigma) (row hd r (data y))
                else row hd r (data y)) 0
         + Q2R dt
           * (dot (map (activation_fn sigma) (row hd r (data y)))
                  (map (init_weight theta "fc2_time" k j) (seq 0 hd))
              + init_bias theta "fc2_time" k j))%R.
Proof.
  intros Hy.
  destruct (activation_call_has_shape sigma _ y Hy) as [Hb Hs].
  unfold residual_block.
  rewrite (Linear_forward_rows hd hd _ _ _ lead (proj1 Hs)). cbn [bind].
  set (F := mkTensor (lead ++ [hd]) _).
  assert (HF : has_shape (lead ++ [hd]) F).
  { split; [reflexivity|]. unfold F. cbn [data].
    rewrite (flat_map_length_const _ _ hd)
      by (intros; rewrite length_map, length_seq; reflexivity).
    rewrite length_seq, numel_app. simpl. lia. }
  destruct (add_entries (lead ++ [hd]) (fst (activation_call sigma y))
              (scale (Q2R dt) F) Hb (tensor_map_has_shape _ _ F HF))
    as (y1 & Hadd & Hy1 & Hent).
  exists y1. split; [exact Hadd|]. split; [exact Hy1|].
  intros r j Hr Hj.
  assert (Hi : r * hd + j < numel (lead ++ [hd])).
  { rewrite numel_app. simpl. nia. }
  rewrite (Hent _ Hi).
  destruct (activation_call_rows sigma hd r y) as [Eb Es].
  rewrite <- Eb, <- Es, (nth_row hd r j _ Hj). f_equal.
  unfold scale. cbn [tensor_map data].
  rewrite (nth_indep _ 0%R (Q2R dt * 0)%R)
    by (rewrite length_map; rewrite (proj2 HF); exact Hi).
  rewrite (map_nth (Rmult (Q2R dt))). f_equal.
  unfold F. cbn [data].
  exact (nth_flat_map_map
           (fun r j =>
              (dot (row hd r (data (snd (activation_call sigma y))))
                   (map (init_weight theta "fc2_time" k j) (seq 0 hd))
               + init_bias theta "fc2_time" k j)%R)
           (numel lead) hd r j Hr Hj).
Qed.

Lemma rows_equal (hd : nat) (lead lead' : list nat) (y y' : tensor)
    (r r' : nat) :
  has_shape (lead ++ [hd]) y -> has_shape (lead' ++ [hd]) y' ->
  r < numel lead -> r' < numel lead' ->
  (forall j, j < hd ->
     nth (r * hd + j) (data y) 0%R = nth (r' * hd + j) (data y') 0%R) ->
  row hd r (data y) = row hd r' (data y').
Proof.
  intros [_ L] [_ L'] Hr Hr' H.
  rewrite numel_app in L, L'. simpl in L, L'.
  assert (Hl : length (row hd r (data y)) = hd)
    by (apply row_length; nia).
  assert (Hl' : length (row hd r' (data y')) = hd)
    by (apply row_length; nia).
  apply (nth_ext _ _ 0%R 0%R); [congruence|].
  intros j Hj. rewrite Hl in Hj.
  rewrite !nth_row by exact Hj. apply H. exact Hj.
Qed.

Lemma residual_block_row (hd : nat) (theta : initializer)
    (sigma : activation) (k : nat) (lead lead' : list nat) (y y' : tensor)
    (r r' : nat) :
  has_shape (lead ++ [hd]) y -> has_shape (lead' ++ [hd]) y' ->
  r < numel lead -> r' < numel lead' ->
  row hd r (data y) = row hd r' (data y') ->
  exists y1 y1',
    residual_block hd theta sigma k y = Ok y1 /\
    residual_block hd theta sigma k y' = Ok y1' /\
    has_shape (lead ++ [hd]) y1 /\ has_shape (lead' ++ [hd]) y1' /\
    row hd r (data y1) = row hd r' (data y1').
Proof.
  intros Hy Hy' Hr Hr' E.
  destruct (residual_block_entries hd theta sigma k lead y Hy)
    as (y1 & H1 & Hs1 & He1).
  destruct (residual_block_entries hd theta sigma k lead' y' Hy')
    as (y1' & H1' & Hs1' & He1').
  exists y1, y1'. repeat (split; [assumption|]).
  apply (rows_equal hd lead lead'); try assumption.
  intros j Hj. rewrite (He1 r j Hr Hj), (He1' r' j Hr' Hj), E. reflexivity.
Qed.

Lemma residual_network_row (hd : nat) (theta : initializer)
    (sigma : activation) (lead lead' : list nat) (r r' : nat) (n : nat) :
  r < numel lead -> r' < numel lead' ->
  forall (k : nat) (y y' : tensor),
    has_shape (lead ++ [hd]) y -> has_shape (lead' ++ [hd]) y' ->
    row hd r (data y) = row hd r' (data y') ->
    exists out out',
      residual_network hd theta sigma k n y = Ok out /\
      residual_network hd theta sigma k n y' = Ok out' /\
      row hd r (data out) = row hd r' (data out').
Proof.
  intros Hr Hr'. induction n as [|n IH]; intros k y y' Hy Hy' E.
  - exists y, y'. repeat split. exact E.
  - destruct (residual_block_row hd theta sigma k lead lead' y y' r r'
                Hy Hy' Hr Hr' E) as (y1 & y1' & H1 & H1' & Hs & Hs' & E1).
    destruct (IH (S k) y1 y1' Hs Hs' E1) as (out & out' & Ho & Ho' & Eo).
    exists out, out'. cbn [residual_network]. rewrite H1, H1'. cbn [bind].
    repeat split; assumption.
Qed.

(** X21.  The samples of a batch do not interact: row [r] of what
    [Semiflow.forward] returns is made of row [r] of the (augmented)
    input alone.  Two inputs, also of different batch sizes, that agree
    on a row give results that agree on that row. *)
Theorem Semiflow_forward_batch_independent (hd : nat) (theta : initializer)
    (lead lead' : list nat) (self : Semiflow) (x x' x_aug x_aug' : tensor)
    (r r' : nat) :
  constructed hd theta (dynamics self) ->
  augment (set_nfe (dynamics self) 0) x = Ok x_aug ->
  augment (set_nfe (dynamics self) 0) x' = Ok x_aug' ->
  has_shape (lead ++ [hd]) x_aug -> has_shape (lead' ++ [hd]) x_aug' ->
  r < numel lead -> r' < numel lead' ->
  row hd r (data x_aug) = row hd r' (data x_aug') ->
  exists out out',
    snd (Semiflow_forward self x None) = Ok out /\
    snd (Semiflow_forward self x' None) = Ok out' /\
    row hd r (data out) = row hd r' (data out').
Proof.
  intros Hd Ha Ha' Hx Hx' Hr Hr' E.
  destruct (Semiflow_forward_as_residual_network hd theta lead self x x_aug
              Hd Ha Hx) as (out & Ho & Hn).
  destruct (Semiflow_forward_as_residual_network hd theta lead' self x'
              x_aug' Hd Ha' Hx') as (out' & Ho' & Hn').
  destruct (residual_network_row hd theta (non_linearity (dynamics self))
              lead lead' r r' time_steps Hr Hr' 0 x_aug x_aug' Hx Hx' E)
    as (o & o' & Eo & Eo' & Erow).
  rewrite Hn in Eo. injection Eo as <-.
  rewrite Hn' in Eo'. injection Eo' as <-.
  exists out, out'. repeat split; assumption.
Qed.

Lemma Semiflow_forward_batch_independent_witness :
  exists d, Dynamics_init 1 1 0 "tanh" unit_bias_init = Ok d /\
  let self := Semiflow_init d (1 # 1000) false in
  let x := mkTensor [2; 1] [1%R; 2%R] in
  let x' := mkTensor [1; 1] [2%R] in
  exists out out',
    snd (Semiflow_forward self x None) = Ok out /\
    snd (Semiflow_forward self x' None) = Ok out' /\
    row 1 1 (data out) = row 1 0 (data out').
Proof.
  eexists. split; [reflexivity|]. intros self x x'.
  apply (Semiflow_forward_batch_independent 1 unit_bias_init [2] [1] self
           x x' x x' 1 0).
  - split; reflexivity.
  - reflexivity.
  - reflexivity.
  - split; reflexivity.
  - split; reflexivity.
  - simpl. lia.
  - simpl. lia.
  - reflexivity.
Defined.

(** ** The tolerance *)

Lemma Semiflow_forward_other_tol (self self' : Semiflow) (x : tensor)
    (eval_times : option (list Q)) :
  adjoint self' = adjoint self -> dynamics self' = dynamics self ->
  Semiflow_forward self' x eval_times
  = (mkSemiflow (adjoint self')
       (dynamics (fst (fst (Semiflow_forward self x eval_times))))
       (tol self'),
     snd (fst (Semiflow_forward self x eval_times)),
     snd (Semiflow_forward self x eval_times)).
Proof.
  intros Ea Ed. unfold Semiflow_forward, set_dynamics. rewrite Ea, Ed.
  destruct (augment (set_nfe (dynamics self) 0) x) as [x_aug|e];
    [|reflexivity].
  set (times := match eval_times with None => [0%Q; T] | Some t => t end).
  unfold odeint_adjoint.
  destruct (adjoint self);
    destruct (odeint Dynamics_forward (set_nfe (dynamics self) 0) x_aug
                     times dt) as [[d1 x1] out]; reflexivity.
Qed.

(** X22.  The tolerance given to the constructor is stored and never
    read: two models built with the same arguments but different [tol]
    return the same, leave the same in the input, and store the same
    trajectories. *)
Theorem NeuralODE_forward_ignores_tol (dd hd od ad : nat) (name : string)
    (tol1 tol2 : Q) (adj : bool) (theta : initializer)
    (file : option (list tensor)) (m m' : NeuralODE) (x : tensor)
    (rf : bool) :
  NeuralODE_init dd hd od ad name tol1 adj theta = Ok m ->
  NeuralODE_init dd hd od ad name tol2 adj theta = Ok m' ->
  snd (NeuralODE_forward file m' x rf) = snd (NeuralODE_forward file m x rf)
  /\ snd (fst (NeuralODE_forward file m' x rf))
     = snd (fst (NeuralODE_forward file m x rf))
  /\ traj (fst (fst (NeuralODE_forward file m' x rf)))
     = traj (fst (fst (NeuralODE_forward file m x rf)))
  /\ proj_traj (fst (fst (NeuralODE_forward file m' x rf)))
     = proj_traj (fst (fst (NeuralODE_forward file m x rf))).
Proof.
  unfold NeuralODE_init.
  destruct (Dynamics_init dd hd ad name theta) as [d|e]; [|discriminate].
  cbn [bind]. intros Hm Hm'. injection Hm as <-. injection Hm' as <-.
  unfold NeuralODE_forward. cbn [flow set_flow].
  rewrite (Semiflow_forward_other_tol (Semiflow_init d tol1 adj)
             (Semiflow_init d tol2 adj) x None eq_refl eq_refl).
  destruct (Semiflow_forward_counter_only (Semiflow_init d tol1 adj) x None)
    as [k Hk].
  destruct (Semiflow_forward (Semiflow_init d tol1 adj) x None)
    as [[f1 x1] r1]. cbn [fst snd] in *. subst f1.
  destruct r1 as [features|e]; [|repeat split; reflexivity].
  unfold Semiflow_trajectory.
  set (flow1 := set_dynamics (Semiflow_init d tol1 adj)
                  (set_nfe (dynamics (Semiflow_init d tol1 adj)) k)).
  set (flow1' := mkSemiflow (adjoint (Semiflow_init d tol2 adj))
                   (dynamics flow1) (tol (Semiflow_init d tol2 adj))).
  rewrite (Semiflow_forward_other_tol flow1 flow1' x1
             (Some (linspace 0 T time_steps)) eq_refl eq_refl).
  destruct (Semiflow_forward flow1 x1 (Some (linspace 0 T time_steps)))
    as [[f2 x2] r2]. cbn [fst snd].
  destruct r2 as [tr|e]; [|repeat split; reflexivity].
  cbn [linear_layer set_flow set_traj].
  destruct (Linear_forward _ features) as [pred|e];
    [|repeat split; reflexivity].
  destruct (Linear_forward _ tr) as [pt|e]; repeat split; reflexivity.
Qed.

Lemma NeuralODE_forward_ignores_tol_witness :
  exists m m',
    NeuralODE_init 1 1 1 0 "relu" (1 # 1000) false unit_bias_init = Ok m /\
    NeuralODE_init 1 1 1 0 "relu" (1 # 10) false unit_bias_init = Ok m' /\
  let x := mkTensor [1; 1] [(-1)%R] in
  snd (NeuralODE_forward None m' x false)
  = snd (NeuralODE_forward None m x false)
  /\ snd (fst (NeuralODE_forward None m' x false))
     = snd (fst (NeuralODE_forward None m x false))
  /\ traj (fst (fst (NeuralODE_forward None m' x false)))
     = traj (fst (fst (NeuralODE_forward None m x false)))
  /\ proj_traj (fst (fst (NeuralODE_forward None m' x false)))
     = proj_traj (fst (fst (NeuralODE_forward None m x false))).
Proof.
  eexists. eexists. split; [reflexivity|]. split; [reflexivity|]. intros x.
  apply (NeuralODE_forward_ignores_tol 1 1 1 0 "relu" (1 # 1000) (1 # 10)
           false unit_bias_init None _ _ x false); reflexivity.
Defined.
